(** * Materialious: the functions of [src/lib/misc.ts]

    A shallow embedding of the description annotator ([phaseDescription],
    [convertToSeconds], [decodeHtmlCharCodes]) and of the other functions of
    the file that stand on the language alone: the case functions, [truncate],
    [numberWithCommas], [videoLength], [humanizeSeconds], [getBestThumbnail],
    [unsafeRandomItem], [ensureNoTrailingSlash] and [pullBitratePreference];
    together with the fragment of the ECMAScript
    library they call: strings of UTF-16 code units, [split], [join], [trim],
    [replace], [match] and [substring], backtracking regular expressions with
    capture groups ([RegExp.prototype.exec]), [parseInt], and Numbers with
    their rounding and their decimal notation. *)

From Stdlib Require Import String Ascii.
From Stdlib Require Import QArith Qround Qpower Lqa.
From Stdlib Require Import List NArith ZArith Lia Bool.
Import ListNotations.

Local Open Scope N_scope.
Local Open Scope list_scope.

(** ** Strings *)

(** A JavaScript string is a sequence of UTF-16 code units. *)
Abbreviation char := N (only parsing).
Abbreviation jsstring := (list char) (only parsing).

(** The double quote, and the other characters the source names. *)
Definition dq : char := 34.
Definition nl : char := 10.
Definition colon : char := 58.
Definition lt : char := 60.
Definition gt : char := 62.

(** [js] reads an ASCII literal as a JavaScript string.  The literals of
    [misc.ts] are full of double quotes, which a literal here does not hold:
    [js] reads an apostrophe as the double quote (no literal of the embedded
    functions contains an apostrophe). *)
Definition js_char (a : ascii) : char :=
  let c := N_of_ascii a in if c =? 39 then dq else c.

Definition js (s : string) : jsstring := map js_char (list_ascii_of_string s).

(** LineTerminator: LF, CR, LS, PS. *)
Definition isLineTerminator (c : char) : bool :=
  (c =? 10) || (c =? 13) || (c =? 8232) || (c =? 8233).

(** WhiteSpace or LineTerminator: what [\s], [trim] and [parseInt] skip. *)
Definition isWhiteSpace (c : char) : bool :=
  (c =? 9) || (c =? 11) || (c =? 12) || (c =? 32) || (c =? 160) ||
  (c =? 5760) || ((8192 <=? c) && (c <=? 8202)) || (c =? 8239) ||
  (c =? 8287) || (c =? 12288) || (c =? 65279) || isLineTerminator c.

Definition isDigit (c : char) : bool := (48 <=? c) && (c <=? 57).

(** [s.split(sep)] for a separator of one character: the source splits on
    ['\n'] and on [':'].  The empty string splits into one empty piece. *)
Fixpoint split (sep : char) (s : jsstring) : list jsstring :=
  match s with
  | [] => [[]]
  | c :: s' =>
      if c =? sep then [] :: split sep s'
      else match split sep s' with
           | piece :: pieces => (c :: piece) :: pieces
           | [] => [[c]]
           end
  end.

(** [pieces.join(sep)]. *)
Fixpoint join (sep : jsstring) (pieces : list jsstring) : jsstring :=
  match pieces with
  | [] => []
  | [p] => p
  | p :: rest => p ++ sep ++ join sep rest
  end.

Fixpoint dropWhile (p : char -> bool) (s : jsstring) : jsstring :=
  match s with
  | c :: s' => if p c then dropWhile p s' else s
  | [] => []
  end.

Fixpoint takeWhile (p : char -> bool) (s : jsstring) : jsstring :=
  match s with
  | c :: s' => if p c then c :: takeWhile p s' else []
  | [] => []
  end.

(** [s.trim()]: white space and line terminators go from both ends. *)
Definition trim (s : jsstring) : jsstring :=
  rev (dropWhile isWhiteSpace (rev (dropWhile isWhiteSpace s))).

(** ** Regular expressions *)

(** Character classes of the patterns in [phaseDescription]. *)
Inductive cclass : Type :=
| Any                (* .    : everything but a line terminator *)
| Digit              (* \d *)
| Space              (* \s *)
| NonSpace           (* \S *)
| Not (c : char).    (* [^c] *)

Definition cmatch (cl : cclass) (c : char) : bool :=
  match cl with
  | Any => negb (isLineTerminator c)
  | Digit => isDigit c
  | Space => isWhiteSpace c
  | NonSpace => negb (isWhiteSpace c)
  | Not x => negb (c =? x)
  end.

(** A text all of whose characters are of a class. *)
Definition all_of (cl : cclass) (w : jsstring) : Prop :=
  forallb (cmatch cl) w = true.

(** Patterns.  Quantifiers stand on a character class, which is all the source
    uses (a negated character, [\d+], [\s*], [.+], [\S*?], [.*?]); the
    question mark stands on a non-capturing group. *)
Inductive regex : Type :=
| Str (s : jsstring)                 (* literal text *)
| Cls (cl : cclass)                  (* one character of a class *)
| Star (greedy : bool) (cl : cclass) (* cl* when greedy, cl*? when lazy *)
| Opt (r : regex)                    (* (?:r)? *)
| Grp (r : regex)                    (* (r), a capture group *)
| Cat (r1 r2 : regex).               (* r1 r2 *)

(** [cl+] is [cl] followed by [cl*]. *)
Definition Plus (cl : cclass) : regex := Cat (Cls cl) (Star true cl).

Declare Scope regex_scope.
Delimit Scope regex_scope with regex.
Infix ";;" := Cat (at level 61, right associativity) : regex_scope.

(** An element of a match array: a string, or [undefined] for a group that
    took no part in the match. *)
Inductive value : Type :=
| undefined
| VStr (s : jsstring).

Fixpoint ngroups (r : regex) : nat :=
  match r with
  | Str _ | Cls _ | Star _ _ => 0%nat
  | Opt r => ngroups r
  | Grp r => S (ngroups r)
  | Cat r1 r2 => (ngroups r1 + ngroups r2)%nat
  end.

(** The state of a match in progress: the captures of the groups opened so
    far, in the order of their opening parentheses, and the input left. *)
Abbreviation mstate := (list value * jsstring)%type (only parsing).
Abbreviation cont := (mstate -> option mstate) (only parsing).

Fixpoint strip_prefix (p s : jsstring) : option jsstring :=
  match p, s with
  | [], _ => Some s
  | x :: p', y :: s' => if x =? y then strip_prefix p' s' else None
  | _ :: _, [] => None
  end.

(** The text between two states of one match: what the input lost. *)
Definition consumed (before after : jsstring) : jsstring :=
  firstn (length before - length after) before.

(** Greedy repetition of a class: as many characters as possible first, one
    less on each failure of the continuation. *)
Fixpoint star_greedy (cl : cclass) (k : cont) (caps : list value)
    (inp : jsstring) : option mstate :=
  match inp with
  | c :: inp' =>
      if cmatch cl c then
        match star_greedy cl k caps inp' with
        | Some res => Some res
        | None => k (caps, inp)
        end
      else k (caps, inp)
  | [] => k (caps, inp)
  end.

(** Lazy repetition: the continuation first, one character more on each of
    its failures. *)
Fixpoint star_lazy (cl : cclass) (k : cont) (caps : list value)
    (inp : jsstring) : option mstate :=
  match k (caps, inp) with
  | Some res => Some res
  | None =>
      match inp with
      | c :: inp' => if cmatch cl c then star_lazy cl k caps inp' else None
      | [] => None
      end
  end.

(** The backtracking matcher of ECMAScript, in continuation-passing style:
    [m r k st] matches [r] at the head of the input of [st] and hands the
    state after it to [k]; when [k] fails, the next alternative of [r] is
    tried.  A group records its text at its own index, before the groups
    nested in it; an optional group that matches nothing leaves its groups
    [undefined], and an iteration of it that consumes nothing is refused. *)
Fixpoint m (r : regex) (k : cont) (st : mstate) : option mstate :=
  match r with
  | Str s =>
      match strip_prefix s (snd st) with
      | Some rest => k (fst st, rest)
      | None => None
      end
  | Cls cl =>
      match snd st with
      | c :: rest => if cmatch cl c then k (fst st, rest) else None
      | [] => None
      end
  | Star greedy cl =>
      (if greedy then star_greedy else star_lazy) cl k (fst st) (snd st)
  | Opt r =>
      match m r (fun st' =>
                   if (length (snd st') =? length (snd st))%nat then None
                   else k st') st with
      | Some res => Some res
      | None => k (fst st ++ repeat undefined (ngroups r), snd st)
      end
  | Grp r =>
      let n := length (fst st) in
      m r (fun st' =>
             k (firstn n (fst st')
                  ++ VStr (consumed (snd st) (snd st')) :: skipn n (fst st'),
                snd st')) st
  | Cat r1 r2 => m r1 (m r2 k) st
  end.

(** A match array: [index], and the elements 0 (the whole match), 1, 2, ... *)
Record MatchResult : Type := mkMatch {
  index : nat;
  elements : list value
}.

(** [match[i]]. *)
Definition at_index (mr : MatchResult) (i : nat) : value :=
  nth i (elements mr) undefined.

(** The search of [RegExpBuiltinExec]: the first index, from [i] on, at which
    the pattern matches. *)
Fixpoint search (r : regex) (i : nat) (inp : jsstring) : option MatchResult :=
  match m r Some ([], inp) with
  | Some (caps, rest) => Some (mkMatch i (VStr (consumed inp rest) :: caps))
  | None =>
      match inp with
      | [] => None
      | _ :: inp' => search r (S i) inp'
      end
  end.

(** A RegExp object: its pattern, its [g] flag, and the mutable [lastIndex]. *)
Record RegExp : Type := mkRegExp {
  pattern : regex;
  global : bool;
  lastIndex : nat
}.

(** A regular expression literal evaluates to a fresh object. *)
Definition literal (r : regex) (g : bool) : RegExp := mkRegExp r g 0.

(** [R.exec(s)]: the match array or [None] for [null], and the object after
    the call.  Without the [g] flag the search starts at 0 and [lastIndex] is
    neither used nor written; with it the search starts at [lastIndex], which
    then moves to the end of the match, or back to 0 on failure. *)
Definition exec (R : RegExp) (s : jsstring) : option MatchResult * RegExp :=
  if global R then
    if (length s <? lastIndex R)%nat then (None, mkRegExp (pattern R) true 0)
    else
      match search (pattern R) (lastIndex R) (skipn (lastIndex R) s) with
      | Some mr =>
          let e := match at_index mr 0 with
                   | VStr w => (index mr + length w)%nat
                   | undefined => index mr
                   end in
          (Some mr, mkRegExp (pattern R) true e)
      | None => (None, mkRegExp (pattern R) true 0)
      end
  else (search (pattern R) 0 s, R).

(** ** [String.prototype.replace] *)

Definition capture_text (v : value) : jsstring :=
  match v with
  | VStr s => s
  | undefined => []
  end.

Definition digit_val (c : char) : nat := N.to_nat (c - 48).

(** [GetSubstitution]: the replacement template with its [$] references
    expanded: [$$], [$&], the text before and after the match, and [$n] or
    [$nn] for a group that exists (a group that is [undefined] gives the empty
    string, an index with no group stays as written). *)
Fixpoint GetSubstitution (matched str : jsstring) (position : nat)
    (captures : list value) (template : jsstring) {struct template} : jsstring :=
  match template with
  | [] => []
  | c :: t =>
      if negb (c =? 36) then
        c :: GetSubstitution matched str position captures t
      else
        match t with
        | [] => [c]
        | d :: t' =>
            let one_digit :=
              let i := digit_val d in
              if ((1 <=? i) && (i <=? length captures))%nat
              then capture_text (nth (i - 1) captures undefined)
                     ++ GetSubstitution matched str position captures t'
              else c :: d :: GetSubstitution matched str position captures t' in
            if d =? 36 then
              36 :: GetSubstitution matched str position captures t'
            else if d =? 38 then
              matched ++ GetSubstitution matched str position captures t'
            else if d =? 96 then
              firstn position str
                ++ GetSubstitution matched str position captures t'
            else if d =? 39 then
              skipn (position + length matched) str
                ++ GetSubstitution matched str position captures t'
            else if isDigit d then
              match t' with
              | d2 :: t'' =>
                  let i2 := (10 * digit_val d + digit_val d2)%nat in
                  if isDigit d2 && (i2 <=? length captures)%nat then
                    if (1 <=? i2)%nat
                    then capture_text (nth (i2 - 1) captures undefined)
                           ++ GetSubstitution matched str position captures t''
                    else c :: d :: d2
                           :: GetSubstitution matched str position captures t''
                  else one_digit
              | [] => one_digit
              end
            else c :: GetSubstitution matched str position captures t
        end
  end.

(** Replacement of every match, from left to right: [skip] characters of the
    input still belong to the match before; elsewhere the pattern is tried at
    the head of the input, and after an empty match the search moves one
    character on, as the loop over [lastIndex] does. *)
Fixpoint replace_all (r : regex) (template str : jsstring) (position skip : nat)
    (inp : jsstring) {struct inp} : jsstring :=
  match skip with
  | S n =>
      match inp with
      | _ :: inp' => replace_all r template str (S position) n inp'
      | [] => []
      end
  | O =>
      match m r Some ([], inp) with
      | Some (caps, rest) =>
          let matched := consumed inp rest in
          GetSubstitution matched str position caps template ++
          match inp with
          | c :: inp' =>
              match matched with
              | [] => c :: replace_all r template str (S position) 0 inp'
              | _ :: w => replace_all r template str (S position) (length w) inp'
              end
          | [] => []
          end
      | None =>
          match inp with
          | c :: inp' => c :: replace_all r template str (S position) 0 inp'
          | [] => []
          end
      end
  end.

(** [s.replace(R, template)] for a RegExp [R] and a string template.  With the
    [g] flag [lastIndex] is first set to 0 and every match is replaced;
    without it the first match found by [exec] is. *)
Definition replace (R : RegExp) (template s : jsstring) : jsstring :=
  if global R then replace_all (pattern R) template s 0 0 s
  else
    match fst (exec R s) with
    | None => s
    | Some mr =>
        let matched := capture_text (at_index mr 0) in
        firstn (index mr) s
          ++ GetSubstitution matched s (index mr) (tl (elements mr)) template
          ++ skipn (index mr + length matched) s
    end.

(** ** Numbers *)

(** The Numbers [convertToSeconds] computes with are [NaN], the infinities and
    the integer-valued doubles, the latter as sign and magnitude (so that -0
    is a value of its own). *)
Inductive number : Type :=
| NaN
| Infinity (neg : bool)
| Int (neg : bool) (mag : N).

(** Rounding of a natural number to the nearest double, ties to even: 53
    significant bits are kept. *)
Definition round53 (n : N) : N :=
  let b := N.size n in
  if b <=? 53 then n
  else
    let sh := b - 53 in
    let q := N.shiftr n sh in
    let r := N.land n (N.ones sh) in
    let half := N.shiftl 1 (sh - 1) in
    let q' := if (half <? r) || ((r =? half) && N.odd q) then q + 1 else q in
    N.shiftl q' sh.

(** The Number for a signed integer: infinite from 2^1024 on. *)
Definition of_integer (neg : bool) (n : N) : number :=
  let v := round53 n in
  if 1024 <? N.size v then Infinity neg else Int neg v.

Definition of_Z (z : Z) (zero_neg : bool) : number :=
  match z with
  | Z0 => Int zero_neg 0
  | Zpos p => of_integer false (Npos p)
  | Zneg p => of_integer true (Npos p)
  end.

Definition signed (neg : bool) (n : N) : Z :=
  if neg then (- Z.of_N n)%Z else Z.of_N n.

(** [a * b] *)
Definition mul (a b : number) : number :=
  match a, b with
  | NaN, _ | _, NaN => NaN
  | Infinity s, Infinity t => Infinity (xorb s t)
  | Infinity s, Int t n | Int t n, Infinity s =>
      if n =? 0 then NaN else Infinity (xorb s t)
  | Int s x, Int t y => of_integer (xorb s t) (x * y)
  end.

(** [a + b] *)
Definition add (a b : number) : number :=
  match a, b with
  | NaN, _ | _, NaN => NaN
  | Infinity s, Infinity t => if Bool.eqb s t then Infinity s else NaN
  | Infinity s, Int _ _ | Int _ _, Infinity s => Infinity s
  | Int s x, Int t y => of_Z (signed s x + signed t y) (s && t)
  end.

Declare Scope number_scope.
Delimit Scope number_scope with number.
Infix "*" := mul : number_scope.
Infix "+" := add : number_scope.

(** A numeric literal of the source. *)
Definition lit (n : N) : number := Int false n.

Definition digit_of (radix : N) (c : char) : option N :=
  let v := if isDigit c then Some (c - 48)
           else if (97 <=? c) && (c <=? 122) then Some (c - 87)
           else if (65 <=? c) && (c <=? 90) then Some (c - 55)
           else None in
  match v with
  | Some d => if d <? radix then Some d else None
  | None => None
  end.

Definition is_digit_of (radix : N) (c : char) : bool :=
  match digit_of radix c with Some _ => true | None => false end.

Definition radix_value (radix : N) (ds : jsstring) : N :=
  fold_left (fun acc c => acc * radix + match digit_of radix c with
                                         | Some d => d
                                         | None => 0
                                         end) ds 0.

(** [parseInt(s)], no radix given: leading white space and a sign are
    skipped, a prefix 0x or 0X selects radix 16, and the longest run of
    digits is read; [NaN] when there is none.  The value is the exact integer
    rounded to a Number (an engine may round a decimal with more than 20
    significant digits once more; that freedom is not modelled). *)
Definition parseInt (s : jsstring) : number :=
  let s1 := dropWhile isWhiteSpace s in
  let neg := match s1 with c :: _ => c =? 45 | [] => false end in
  let s2 := match s1 with
            | c :: t => if (c =? 45) || (c =? 43) then t else s1
            | [] => s1
            end in
  let hex := match s2 with
             | c :: x :: _ => (c =? 48) && ((x =? 120) || (x =? 88))
             | _ => false
             end in
  let radix := if hex then 16 else 10 in
  let s3 := if hex then skipn 2 s2 else s2 in
  let ds := takeWhile (is_digit_of radix) s3 in
  match ds with
  | [] => NaN
  | _ :: _ => of_integer neg (radix_value radix ds)
  end.

(** The integer a run of decimal digits writes. *)
Definition decimal (ds : jsstring) : N := radix_value 10 ds.

(** A non-empty run of decimal digits. *)
Definition digits (ds : jsstring) : Prop := ds <> [] /\ all_of Digit ds.

(** ** [misc.ts] *)

(** [convertToSeconds], lines 159-173. *)
Definition convertToSeconds (time : jsstring) : number :=
  let parts := map (fun part => parseInt part) (split colon time) in
  let seconds := lit 0 in
  let part i := nth i parts NaN in
  if (length parts =? 3)%nat then
    (part 0%nat * lit 3600 + part 1%nat * lit 60 + part 2%nat)%number
  else if (length parts =? 2)%nat then
    (part 0%nat * lit 60 + part 1%nat)%number
  else if (length parts =? 1)%nat then
    part 0%nat
  else seconds.

(** One element of [PhasedDescription.timestamps].  [timePretty] is declared
    a string; the code stores an element of the match array in it unchecked,
    so the field holds a [value]. *)
Record TimestampEntry : Type := mkEntry {
  title : jsstring;
  time : number;
  timePretty : value
}.

(** [interface PhasedDescription], lines 105-108. *)
Record PhasedDescription : Type := mkPhased {
  description : jsstring;
  timestamps : list TimestampEntry
}.

(** How a call ends: with a value, or with a thrown [TypeError] (a method
    called on [undefined]). *)
Inductive completion (A : Type) : Type :=
| Normal (a : A)
| ThrowTypeError.
Arguments Normal {A} a.
Arguments ThrowTypeError {A}.

Definition bind {A B : Type} (c : completion A) (f : A -> completion B)
  : completion B :=
  match c with
  | Normal a => f a
  | ThrowTypeError => ThrowTypeError
  end.

(** The patterns of lines 120-122, 133 and 145.  Written as in the source,
    with the apostrophe of [js] for the double quote:
      urlRegex                 /<a href='([^']+)'/
      timestampRegexInvidious  /<a href='([^']+)' data-onclick='jump_to_time'
                                data-jump-time='(\d+)'>(\d+:\d+(?::\d+)?)<\/a>\s*(.+)/
      timestampRegexYtJs       the pieces [&], [(?:\S*?&)?], [t=], [(\d+)], [\s*],
                               [s], [.*?], [<span], [[^>]*], [>], a group of
                               [[^<]*], [<\/span>], [.*?], [>], a group of [.*?],
                               [<\/span>]
      line 145                 /<[^>]+>/g and /\n/g *)
Definition urlPattern : regex :=
  (Str (js "<a href='") ;; Grp (Plus (Not dq)) ;; Str (js "'"))%regex.

Definition invidiousPattern : regex :=
  (Str (js "<a href='") ;; Grp (Plus (Not dq))
   ;; Str (js "' data-onclick='jump_to_time' data-jump-time='")
   ;; Grp (Plus Digit) ;; Str (js "'>")
   ;; Grp (Plus Digit ;; Str (js ":") ;; Plus Digit
           ;; Opt (Str (js ":") ;; Plus Digit))
   ;; Str (js "</a>") ;; Star true Space ;; Grp (Plus Any))%regex.

Definition ytJsPattern : regex :=
  (Str (js "&") ;; Opt (Star false NonSpace ;; Str (js "&")) ;; Str (js "t=")
   ;; Grp (Plus Digit) ;; Star true Space ;; Str (js "s") ;; Star false Any
   ;; Str (js "<span") ;; Star true (Not gt) ;; Str (js ">")
   ;; Grp (Star true (Not lt)) ;; Str (js "</span>") ;; Star false Any
   ;; Str (js ">") ;; Grp (Star false Any) ;; Str (js "</span>"))%regex.

Definition tagPattern : regex :=
  (Str (js "<") ;; Plus (Not gt) ;; Str (js ">"))%regex.

Definition newlinePattern : regex := Str [nl].

(** The replacement template of line 134. *)
Definition linkTemplate : jsstring :=
  js "<a href='$1' target='_blank' rel='noopener noreferrer' class='link'".

(** [match[i] || ''] *)
Definition or_empty (v : value) : jsstring :=
  match v with
  | VStr (c :: s) => c :: s
  | VStr [] | undefined => []
  end.

(** The variables of [phaseDescription] that the callback of [forEach] reads
    and writes: the three RegExp objects, made once and shared by all the
    lines, and the two arrays it pushes onto. *)
Record locals : Type := mkLocals {
  urlRegex : RegExp;
  timestampRegexInvidious : RegExp;
  timestampRegexYtJs : RegExp;
  filteredLines : list jsstring;
  timestampsArray : list TimestampEntry
}.

Definition set_regexes (st : locals) (u i y : RegExp) : locals :=
  mkLocals u i y (filteredLines st) (timestampsArray st).

Definition push_line (st : locals) (l : jsstring) : locals :=
  mkLocals (urlRegex st) (timestampRegexInvidious st) (timestampRegexYtJs st)
    (filteredLines st ++ [l]) (timestampsArray st).

Definition push_timestamp (st : locals) (e : TimestampEntry) : locals :=
  mkLocals (urlRegex st) (timestampRegexInvidious st) (timestampRegexYtJs st)
    (filteredLines st) (timestampsArray st ++ [e]).

Section Annotator.

(** [he.decode], of the package [he], is no code of this repository: it is a
    parameter of the development. *)
Variable decode : jsstring -> jsstring.

(** [decodeHtmlCharCodes], lines 110-113. *)
Definition decodeHtmlCharCodes (str : jsstring) : jsstring := decode str.

(** Line 145: the title with its tags and newlines removed, trimmed and
    decoded. *)
Definition clean_title (title : jsstring) : jsstring :=
  decodeHtmlCharCodes
    (trim (replace (literal newlinePattern true) []
             (replace (literal tagPattern true) [] title))).

(** The callback of [lines.forEach], lines 125-151. *)
Definition forEach_body (usingYoutubeJs : bool) (st : locals)
    (line : jsstring) : completion locals :=
  let (urlMatch, urlRegex') := exec (urlRegex st) line in
  let (timestampMatch, tsRegex') :=
    exec (if usingYoutubeJs then timestampRegexYtJs st
          else timestampRegexInvidious st)
         (if usingYoutubeJs then line ++ js "</span>" else line) in
  let st :=
    if usingYoutubeJs
    then set_regexes st urlRegex' (timestampRegexInvidious st) tsRegex'
    else set_regexes st urlRegex' tsRegex' (timestampRegexYtJs st) in
  match urlMatch, timestampMatch with
  | Some _, None =>
      let modifiedLine := replace (literal urlPattern false) linkTemplate line in
      Normal (push_line st modifiedLine)
  | _, Some timestampMatch =>
      let time := if usingYoutubeJs then at_index timestampMatch 1
                  else at_index timestampMatch 2 in
      let timestamp := if usingYoutubeJs then at_index timestampMatch 2
                       else at_index timestampMatch 3 in
      let title := if usingYoutubeJs then or_empty (at_index timestampMatch 3)
                   else or_empty (at_index timestampMatch 4) in
      match time with
      | VStr time =>
          Normal (push_timestamp st
                    (mkEntry (clean_title title) (convertToSeconds time)
                       timestamp))
      | undefined => ThrowTypeError
      end
  | None, None => Normal (push_line st line)
  end.

(** [lines.forEach(callback)]: an exception ends the loop. *)
Fixpoint forEach (usingYoutubeJs : bool) (lines : list jsstring) (st : locals)
  : completion locals :=
  match lines with
  | [] => Normal st
  | line :: rest =>
      bind (forEach_body usingYoutubeJs st line) (forEach usingYoutubeJs rest)
  end.

(** The variables as lines 116-124 initialise them. *)
Definition initial_locals : locals :=
  mkLocals (literal urlPattern false) (literal invidiousPattern false)
    (literal ytJsPattern false) [] [].

(** [phaseDescription], lines 115-156. *)
Definition phaseDescription (content : jsstring) (usingYoutubeJs : bool)
  : completion PhasedDescription :=
  let lines := split nl content in
  bind (forEach usingYoutubeJs lines initial_locals) (fun st =>
    let filteredContent := join [nl] (filteredLines st) in
    Normal (mkPhased filteredContent (timestampsArray st))).

End Annotator.

(** ** What the specification speaks of *)

(** A parse of the head of the input by a pattern, without the order in which
    the matcher tries the alternatives: [parses r st st'] when [r] can take
    the state [st] to [st']. *)
Fixpoint parses (r : regex) (st st' : mstate) : Prop :=
  match r with
  | Str s => snd st = s ++ snd st' /\ fst st' = fst st
  | Cls cl =>
      exists c, snd st = c :: snd st' /\ cmatch cl c = true /\ fst st' = fst st
  | Star _ cl =>
      exists w, snd st = w ++ snd st' /\ forallb (cmatch cl) w = true
                /\ fst st' = fst st
  | Opt r =>
      (parses r st st' /\ length (snd st') <> length (snd st))
      \/ st' = (fst st ++ repeat undefined (ngroups r), snd st)
  | Grp r =>
      exists mid, parses r st mid /\
        st' = (firstn (length (fst st)) (fst mid)
                 ++ VStr (consumed (snd st) (snd mid))
                 :: skipn (length (fst st)) (fst mid), snd mid)
  | Cat r1 r2 => exists mid, parses r1 st mid /\ parses r2 mid st'
  end.

(** The two matches the callback takes on a line. *)
Definition urlMatch (line : jsstring) : option MatchResult :=
  search urlPattern 0 line.

Definition timestampMatch (usingYoutubeJs : bool) (line : jsstring)
  : option MatchResult :=
  if usingYoutubeJs then search ytJsPattern 0 (line ++ js "</span>")
  else search invidiousPattern 0 line.

Definition is_some {A : Type} (o : option A) : bool :=
  match o with Some _ => true | None => false end.

(** A timestamp line is one the timestamp pattern of the mode matches; a URL
    line is any other line that [urlRegex] matches. *)
Definition is_timestamp (usingYoutubeJs : bool) (line : jsstring) : bool :=
  is_some (timestampMatch usingYoutubeJs line).

Definition is_url (line : jsstring) : bool := is_some (urlMatch line).

(** The line with the attributes of line 134 put into its first anchor. *)
Definition modifiedLine (line : jsstring) : jsstring :=
  replace (literal urlPattern false) linkTemplate line.

(** What stays of a line that is no timestamp line. *)
Definition retained (line : jsstring) : jsstring :=
  if is_url line then modifiedLine line else line.

(** An anchor tag in a text: [<a href=], quote, a non-empty address without a
    quote, quote. *)
Definition contains_anchor (s : jsstring) : Prop :=
  exists pre U post,
    s = pre ++ js "<a href='" ++ U ++ dq :: post /\ U <> [] /\ all_of (Not dq) U.



Section Entries.

Variable decode : jsstring -> jsstring.

(** The entry of a timestamp line: the fields of lines 139-147, read off the
    match array of the mode. *)
Definition entry_of_match (usingYoutubeJs : bool) (tm : MatchResult)
  : TimestampEntry :=
  let i := if usingYoutubeJs then 1%nat else 2%nat in
  mkEntry (clean_title decode (or_empty (at_index tm (S (S i)))))
    (convertToSeconds (capture_text (at_index tm i)))
    (at_index tm (S i)).

Definition entry_of (usingYoutubeJs : bool) (line : jsstring) : TimestampEntry :=
  match timestampMatch usingYoutubeJs line with
  | Some tm => entry_of_match usingYoutubeJs tm
  | None => mkEntry [] NaN undefined
  end.

(** The result the specification describes: the entries of the timestamp
    lines, and the other lines as retained, each list in the order of the
    input. *)
Definition annotate (content : jsstring) (usingYoutubeJs : bool)
  : PhasedDescription :=
  let lines := split nl content in
  mkPhased
    (join [nl]
       (map retained
          (filter (fun l => negb (is_timestamp usingYoutubeJs l)) lines)))
    (map (entry_of usingYoutubeJs) (filter (is_timestamp usingYoutubeJs) lines)).

End Entries.

(** A pattern accepts a text when it parses a beginning of it. *)
Definition accepts (r : regex) (inp : jsstring) : Prop :=
  exists st', parses r ([], inp) st'.

(** The clock text of the legacy format: digits, a colon, digits, and
    possibly a colon and digits more. *)
Definition clock (P : jsstring) : Prop :=
  exists D1 D2 O,
    P = D1 ++ js ":" ++ D2 ++ O
    /\ D1 <> [] /\ all_of Digit D1 /\ D2 <> [] /\ all_of Digit D2
    /\ (O = [] \/ exists D3, O = js ":" ++ D3 /\ D3 <> [] /\ all_of Digit D3).

(** The attributes line 134 puts after the address. *)
Definition linkAttributes : jsstring :=
  js " target='_blank' rel='noopener noreferrer' class='link'".

(** What the alternate timestamp pattern accepts: the pieces of the pattern
    in their order, and the text left after them. *)
Definition ytjs_shape (suf rest : jsstring) : Prop :=
  exists O T W X1 X2 L X3 TITLE,
    suf = js "&" ++ O ++ js "t=" ++ T ++ W ++ js "s" ++ X1 ++ js "<span" ++ X2
            ++ js ">" ++ L ++ js "</span>" ++ X3 ++ js ">" ++ TITLE
            ++ js "</span>" ++ rest
    /\ (O = [] \/ exists NS, O = NS ++ js "&" /\ all_of NonSpace NS)
    /\ T <> [] /\ all_of Digit T
    /\ all_of Space W /\ all_of Any X1 /\ all_of (Not gt) X2
    /\ all_of (Not lt) L /\ all_of Any X3 /\ all_of Any TITLE.

(** Whether a character occurs in a text. *)
Definition has (c : char) (s : jsstring) : bool := existsb (N.eqb c) s.


(** ** Sample inputs *)

(** A decoder that changes nothing, for the closed instances below. *)
Definition no_decoding (s : jsstring) : jsstring := s.


Definition sample_anchor : jsstring := js "<a href='http://x/y'>link</a>".

Definition sample_legacy : jsstring :=
  js "<a href='/watch?v=abc&t=65' data-onclick='jump_to_time' data-jump-time='65'>1:05</a> Intro &amp; <b>more</b>".

Definition sample_alternate : jsstring :=
  js "&t=65s<span>1:05</span><span>Intro".


(** A legacy timestamp line whose seconds are written with 309 digits. *)
Definition sample_long_time : jsstring :=
  js "<a href='/watch' data-onclick='jump_to_time' data-jump-time='"
    ++ repeat 57 309 ++ js "'>0:01</a> Intro".

Definition sample_plain : jsstring :=
  js "first line" ++ [nl] ++ js "second line".

(** The RegExp objects of a call, whatever their [lastIndex]: the patterns of
    lines 120-122, none with the [g] flag. *)
Definition regexes_of_call (st : locals) : Prop :=
  pattern (urlRegex st) = urlPattern /\ global (urlRegex st) = false
  /\ pattern (timestampRegexInvidious st) = invidiousPattern
  /\ global (timestampRegexInvidious st) = false
  /\ pattern (timestampRegexYtJs st) = ytJsPattern
  /\ global (timestampRegexYtJs st) = false.

(** ** Further notions for the annotator *)

(** Whether every occurrence of [pat] in [s] has line terminators only after
    it. *)
Fixpoint only_terminators_after (pat s : jsstring) : bool :=
  match strip_prefix pat s with
  | Some rest => forallb isLineTerminator rest
  | None => true
  end
  && match s with
     | [] => true
     | _ :: s' => only_terminators_after pat s'
     end.

(** A legacy timestamp anchor with nothing after it. *)
Definition sample_untitled : jsstring :=
  js "<a href='/watch' data-onclick='jump_to_time' data-jump-time='65'>1:05</a>".

(** ** More of the string library *)

(** Equality of strings. *)
Fixpoint string_eqb (a b : jsstring) : bool :=
  match a, b with
  | [], [] => true
  | x :: a', y :: b' => (x =? y) && string_eqb a' b'
  | _, _ => false
  end.

(** [s.endsWith(t)]: the last characters of [s] are [t]. *)
Definition endsWith (s t : jsstring) : bool :=
  (length t <=? length s)%nat && string_eqb (skipn (length s - length t) s) t.

(** An index of [slice], counted from the end when negative, kept within the
    string. *)
Definition relative_index (len : nat) (i : Z) : nat :=
  if (i <? 0)%Z then Z.to_nat (Z.max (Z.of_nat len + i) 0)
  else Nat.min (Z.to_nat i) len.

(** [s.slice(start, end)], and [s.slice(start)] when no end is given. *)
Definition slice (s : jsstring) (start : Z) (end_ : option Z) : jsstring :=
  let from := relative_index (length s) start in
  let to := match end_ with
            | Some e => relative_index (length s) e
            | None => length s
            end in
  firstn (to - from) (skipn from s).

(** [s.charAt(i)]: the character as a string, empty outside the string. *)
Definition charAt (s : jsstring) (i : nat) : jsstring :=
  match nth_error s i with
  | Some c => [c]
  | None => []
  end.

(** [s.split(R)] for a RegExp [R], from the character after the piece in
    progress: [acc] is the piece since the end of the last separator, [skip]
    characters of the input still belong to that separator.  A separator that
    is found goes with its captures into the array; an empty match at the
    start of the piece is passed over. *)
Fixpoint split_regex_from (r : regex) (acc : jsstring) (skip : nat)
    (inp : jsstring) {struct inp} : list value :=
  match skip with
  | S n =>
      match inp with
      | _ :: inp' => split_regex_from r acc n inp'
      | [] => [VStr acc]
      end
  | O =>
      match inp with
      | [] => [VStr acc]
      | c :: inp' =>
          match m r Some ([], inp) with
          | None => split_regex_from r (acc ++ [c]) 0 inp'
          | Some (caps, rest) =>
              match consumed inp rest, acc with
              | [], [] => split_regex_from r [c] 0 inp'
              | [], _ :: _ => VStr acc :: caps ++ split_regex_from r [c] 0 inp'
              | _ :: w, _ =>
                  VStr acc :: caps ++ split_regex_from r [] (length w) inp'
              end
          end
      end
  end.

(** The empty string splits into nothing when the separator matches it, and
    into itself otherwise. *)
Definition split_regex (r : regex) (s : jsstring) : list value :=
  match s with
  | [] => match m r Some ([], []) with
          | Some _ => []
          | None => [VStr []]
          end
  | _ :: _ => split_regex_from r [] 0 s
  end.

(** Greedy repetition of the characters that satisfy [p], for the classes
    that [cclass] has no name for; as [star_greedy], without captures. *)
Fixpoint star_of (p : char -> bool) (k : jsstring -> option jsstring)
    (inp : jsstring) : option jsstring :=
  match inp with
  | c :: inp' =>
      if p c then
        match star_of p k inp' with
        | Some rest => Some rest
        | None => k inp
        end
      else k inp
  | [] => k inp
  end.

(** [s.match(R)] for a RegExp [R] with the [g] flag, [matcher] being the
    match of its pattern at the head of a text: the matched texts from left to
    right (no match at all gives [null], which is the empty list here).
    After an empty match the search moves one character on. *)
Fixpoint match_all (matcher : jsstring -> option jsstring) (skip : nat)
    (inp : jsstring) {struct inp} : list jsstring :=
  match skip with
  | S n =>
      match inp with
      | _ :: inp' => match_all matcher n inp'
      | [] => []
      end
  | O =>
      match matcher inp with
      | Some rest =>
          let matched := consumed inp rest in
          matched ::
          match inp with
          | _ :: inp' =>
              match matched with
              | [] => match_all matcher 0 inp'
              | _ :: w => match_all matcher (length w) inp'
              end
          | [] => []
          end
      | None =>
          match inp with
          | _ :: inp' => match_all matcher 0 inp'
          | [] => []
          end
      end
  end.

(** ** The case functions of [misc.ts] *)

(** [type TitleCase], line 11, without [null]. *)
Inductive TitleCase : Type :=
| lowercase
| uppercase
| sentence_case
| title_case.

(** [a-zA-Z] *)
Definition isAsciiLetter (c : char) : bool :=
  ((97 <=? c) && (c <=? 122)) || ((65 <=? c) && (c <=? 90)).

(** The end of a sentence: one of [.!?]. *)
Definition isSentenceEnd (c : char) : bool :=
  (c =? 46) || (c =? 33) || (c =? 63).

(** The pattern of line 36, [[^.!?]*[.!?]*], at the head of a text. *)
Definition sentencePattern (inp : jsstring) : option jsstring :=
  star_of (fun c => negb (isSentenceEnd c)) (star_of isSentenceEnd Some) inp.

(** The sentences of a text: a run of other characters, then a run of the
    marks that end a sentence; one of the runs may be empty, not both. *)
Definition sentence (s : jsstring) : Prop :=
  s <> [] /\ exists a b, s = a ++ b
    /\ forallb (fun c => negb (isSentenceEnd c)) a = true
    /\ forallb isSentenceEnd b = true.

(** The pattern of line 50, [(\s+)]. *)
Definition spacesPattern : regex := Grp (Plus Space).

(** The callback of [filter], line 50: whether a piece has more than white
    space.  A piece that is [undefined] has no [trim]. *)
Fixpoint filter_words (pieces : list value) : completion (list jsstring) :=
  match pieces with
  | [] => Normal []
  | undefined :: _ => ThrowTypeError
  | VStr word :: rest =>
      bind (filter_words rest) (fun words =>
        Normal (if (0 <? length (trim word))%nat then word :: words else words))
  end.

(** The maximal runs of characters that are no white space. *)
Fixpoint words_from (acc s : jsstring) : list jsstring :=
  match s with
  | [] => match acc with
          | [] => []
          | _ :: _ => [acc]
          end
  | c :: s' =>
      if isWhiteSpace c then
        match acc with
        | [] => words_from [] s'
        | _ :: _ => acc :: words_from [] s'
        end
      else words_from (acc ++ [c]) s'
  end.

Definition words (s : jsstring) : list jsstring := words_from [] s.

Section Casing.

(** [String.prototype.toUpperCase] and [toLowerCase] follow the Unicode case
    mappings: they are parameters of the development. *)
Variable toUpperCase toLowerCase : jsstring -> jsstring.

(** The callback of [map] in [sentenceCase], lines 38-42. *)
Definition sentence_cased (sentence : jsstring) : jsstring :=
  let sentence := trim sentence in
  if (length sentence =? 0)%nat then []
  else toUpperCase (charAt sentence 0) ++ toLowerCase (slice sentence 1 None).

(** [sentenceCase], lines 35-45. *)
Definition sentenceCase (text : jsstring) : jsstring :=
  let sentences := match_all sentencePattern 0 text in
  let casedSentences := map sentence_cased sentences in
  join (js " ") casedSentences.

(** The callback of [map] in [titleCase], lines 52-64. *)
Definition title_cased (word : jsstring) : jsstring :=
  if (length word =? 0)%nat then []
  else
    let firstChar := charAt word 0 in
    let restOfWord := toLowerCase (slice word 1 None) in
    if existsb isAsciiLetter firstChar then toUpperCase firstChar ++ restOfWord
    else word.

(** [titleCase], lines 47-67. *)
Definition titleCase (text : jsstring) : completion jsstring :=
  match text with
  | [] => Normal []
  | _ :: _ =>
      bind (filter_words (split_regex spacesPattern text)) (fun words =>
        let titleCasedWords := map title_cased words in
        Normal (join (js " ") titleCasedWords))
  end.

(** [letterCase], lines 19-33.  [caseTypeOverwrite] and the value of the
    store [interfaceForceCase] are a case or nothing ([null], [undefined]). *)
Definition letterCase (interfaceForceCase : option TitleCase)
    (text : jsstring) (caseTypeOverwrite : option TitleCase)
  : completion jsstring :=
  let casing := match caseTypeOverwrite with
                | Some c => Some c
                | None => interfaceForceCase
                end in
  match casing with
  | None => Normal text
  | Some lowercase => Normal (toLowerCase text)
  | Some uppercase => Normal (toUpperCase text)
  | Some sentence_case => Normal (sentenceCase text)
  | Some title_case => titleCase text
  end.

End Casing.

(** ** [ensureNoTrailingSlash] *)

(** A value of type [any], as [typeof] tells them apart. *)
Inductive any : Type :=
| any_undefined
| any_null
| any_boolean (b : bool)
| any_number (x : number)
| any_string (s : jsstring)
| any_object.

(** [ensureNoTrailingSlash], lines 286-290. *)
Definition ensureNoTrailingSlash (url : any) : jsstring :=
  match url with
  | any_string url =>
      if endsWith url (js "/") then slice url 0 (Some (-1)%Z) else url
  | _ => []
  end.

(** ** Numbers with fractions *)

(** A Number: [NaN], an infinity, or a finite double, which is a rational
    number.  The two zeros are one value here: none of the functions below
    divides by a zero or looks at its sign, and both print as 0. *)
Inductive double : Type :=
| dNaN
| dInf (neg : bool)
| dFin (q : Q).

(** The ratio [a/b] divided by [base^e], as a ratio again. *)
Definition scaled (base a b e : Z) : Z * Z :=
  if (0 <=? e)%Z then (a, (b * base ^ e)%Z) else ((a * base ^ (- e))%Z, b).

(** The whole part of the logarithm of [a/b], for positive [a] and [b]:
    [lg] is the whole part of the logarithm of an integer. *)
Definition ilog (base : Z) (lg : Z -> Z) (a b : Z) : Z :=
  let e := (lg a - lg b)%Z in
  let (n, d) := scaled base a b e in
  if (d <=? n)%Z then e else (e - 1)%Z.

(** The integer nearest to [n/d], the even one of two that are as near. *)
Definition nearest_even (n d : Z) : Z :=
  let q := (n / d)%Z in
  let r := (n mod d)%Z in
  if (d <? 2 * r)%Z || ((2 * r =? d)%Z && Z.odd q) then (q + 1)%Z else q.

(** The rational [M * 2^E]. *)
Definition dyadic (M E : Z) : Q :=
  let (n, d) := scaled 2 1 1 E in Qred (Qmake (M * d) (Z.to_pos n)).

(** The double nearest to the positive ratio [a/b], ties to even: 53 bits
    are kept, fewer below 2^-1022, and from 2^1024 on the result is
    infinite. *)
Definition round_ratio (a b : Z) : double :=
  let e := ilog 2 Z.log2 a b in
  let E := Z.max (e - 52) (-1074) in
  let (n, d) := scaled 2 a b E in
  let M := nearest_even n d in
  if (1024 <=? Z.log2 M + E)%Z then dInf false else dFin (dyadic M E).

Definition negate (x : double) : double :=
  match x with
  | dNaN => dNaN
  | dInf s => dInf (negb s)
  | dFin q => dFin (Qopp q)
  end.

(** The Number for a rational: its nearest double. *)
Definition round (q : Q) : double :=
  match Qnum q with
  | Z0 => dFin 0%Q
  | Zpos a => round_ratio (Zpos a) (Zpos (Qden q))
  | Zneg a => negate (round_ratio (Zpos a) (Zpos (Qden q)))
  end.

Definition is_zero (q : Q) : bool := (Qnum q =? 0)%Z.
Definition is_negative (q : Q) : bool := (Qnum q <? 0)%Z.

(** [x / y] *)
Definition d_div (x y : double) : double :=
  match x, y with
  | dNaN, _ | _, dNaN => dNaN
  | dInf _, dInf _ => dNaN
  | dInf s, dFin q => dInf (xorb s (is_negative q))
  | dFin _, dInf _ => dFin 0%Q
  | dFin p, dFin q =>
      if is_zero q then (if is_zero p then dNaN else dInf (is_negative p))
      else round (p / q)%Q
  end.

(** [x * y] *)
Definition d_mul (x y : double) : double :=
  match x, y with
  | dNaN, _ | _, dNaN => dNaN
  | dInf s, dInf t => dInf (xorb s t)
  | dInf s, dFin q | dFin q, dInf s =>
      if is_zero q then dNaN else dInf (xorb s (is_negative q))
  | dFin p, dFin q => round (p * q)%Q
  end.

(** [x - y] *)
Definition d_sub (x y : double) : double :=
  match x, y with
  | dNaN, _ | _, dNaN => dNaN
  | dInf s, dInf t => if Bool.eqb s t then dNaN else dInf s
  | dInf s, dFin _ => dInf s
  | dFin _, dInf t => dInf (negb t)
  | dFin p, dFin q => round (p - q)%Q
  end.

(** The integer part of a rational, towards zero. *)
Definition truncate_Q (q : Q) : Z :=
  if is_negative q then (- Qfloor (- q))%Z else Qfloor q.

(** [x % y]: the remainder has the sign of [x] and is exact. *)
Definition d_rem (x y : double) : double :=
  match x, y with
  | dNaN, _ | _, dNaN | dInf _, _ => dNaN
  | dFin p, dInf _ => dFin p
  | dFin p, dFin q =>
      if is_zero q then dNaN
      else dFin (Qred (p - q * inject_Z (truncate_Q (p / q)))%Q)
  end.

(** [Math.floor(x)] *)
Definition Math_floor (x : double) : double :=
  match x with
  | dFin q => dFin (inject_Z (Qfloor q))
  | _ => x
  end.

(** [Math.round(x)]: the nearest integer, the greater one of two. *)
Definition Math_round (x : double) : double :=
  match x with
  | dFin q => dFin (inject_Z (Qfloor (q + (1 # 2))%Q))
  | _ => x
  end.

(** [x < y] *)
Definition d_lt (x y : double) : bool :=
  match x, y with
  | dNaN, _ | _, dNaN => false
  | dInf s, dInf t => s && negb t
  | dInf s, dFin _ => s
  | dFin _, dInf t => negb t
  | dFin p, dFin q => match (p ?= q)%Q with Lt => true | _ => false end
  end.

(** [x === y] on Numbers *)
Definition d_eq (x y : double) : bool :=
  match x, y with
  | dInf s, dInf t => Bool.eqb s t
  | dFin p, dFin q => Qeq_bool p q
  | _, _ => false
  end.

(** A literal of the source that is a natural number. *)
Definition dlit (n : Z) : double := dFin (inject_Z n).

(** *** [Number.prototype.toString] *)

(** The decimal numeral of a natural number. *)
Fixpoint numeral_fuel (fuel : nat) (n : N) (acc : jsstring) : jsstring :=
  match fuel with
  | O => acc
  | S fuel' =>
      let acc' := (48 + n mod 10) :: acc in
      if n <? 10 then acc' else numeral_fuel fuel' (n / 10) acc'
  end.

Definition numeral (n : N) : jsstring := numeral_fuel (S (N.to_nat (N.log2 n))) n [].

(** The whole part of the decimal logarithm of a positive integer. *)
Fixpoint log10_fuel (fuel : nat) (n : Z) : Z :=
  match fuel with
  | O => 0%Z
  | S fuel' => if (n <? 10)%Z then 0%Z else (1 + log10_fuel fuel' (n / 10))%Z
  end.

Definition log10 (n : Z) : Z := log10_fuel (Z.to_nat (Z.log2 n)) n.

(** [s * 10^t] *)
Definition decimal_Q (s t : Z) : Q :=
  let (n, d) := scaled 10 1 1 t in Qmake (s * d) (Z.to_pos n).

(** Whether the decimal [s * 10^t] reads back as the double [q]. *)
Definition reads_back (q : Q) (s t : Z) : bool :=
  d_eq (round (decimal_Q s t)) (dFin q).

(** The shortest decimal that reads back as the positive double [q], and
    the nearest to [q] of the shortest: its digits [s] and their number [k],
    tried for [k], [k + 1], ...; [n] is such that 10^(n-1) <= q < 10^n.
    For every [k] the two decimals of [k] digits around [q] are the ones to
    try. *)
Fixpoint shortest (fuel : nat) (q : Q) (n k : Z) : Z * Z :=
  let t := (n - k)%Z in
  let lo := Qfloor (q / decimal_Q 1 t)%Q in
  let hi := (lo + 1)%Z in
  match fuel with
  | O => (lo, k)
  | S fuel' =>
      match reads_back q lo t, reads_back q hi t with
      | true, true =>
          match (q - decimal_Q lo t ?= decimal_Q hi t - q)%Q with
          | Lt => (lo, k)
          | Gt => (hi, k)
          | Eq => if Z.even lo then (lo, k) else (hi, k)
          end
      | true, false => (lo, k)
      | false, true => (hi, k)
      | false, false => shortest fuel' q n (k + 1)
      end
  end.

Definition zeros (n : Z) : jsstring := repeat 48 (Z.to_nat n).

(** The text of a positive double in the notation of [Number::toString]:
    [k] digits [s], and the decimal point after the first [n] of them. *)
Definition notation (s n k : Z) : jsstring :=
  let ds := numeral (Z.to_N s) in
  if ((k <=? n) && (n <=? 21))%Z then ds ++ zeros (n - k)
  else if ((0 <? n) && (n <=? 21))%Z
  then firstn (Z.to_nat n) ds ++ js "." ++ skipn (Z.to_nat n) ds
  else if ((-6 <? n) && (n <=? 0))%Z then js "0." ++ zeros (- n) ++ ds
  else
    let e := (n - 1)%Z in
    let exponent := (if (e <? 0)%Z then js "e-" else js "e+")
                      ++ numeral (Z.abs_N e) in
    match ds with
    | [d] => d :: exponent
    | d :: more => d :: js "." ++ more ++ exponent
    | [] => exponent
    end.

Definition toString_positive (q : Q) : jsstring :=
  let n := (ilog 10 log10 (Qnum q) (Zpos (Qden q)) + 1)%Z in
  let (s, k) := shortest 17 q n 1 in
  if (s =? 10 ^ k)%Z then notation 1 (n + 1) 1 else notation s n k.

(** [x.toString()], which is also how a template literal prints [x]. *)
Definition toString (x : double) : jsstring :=
  match x with
  | dNaN => js "NaN"
  | dInf s => if s then js "-Infinity" else js "Infinity"
  | dFin q =>
      if is_zero q then js "0"
      else if is_negative q then js "-" ++ toString_positive (Qopp q)
      else toString_positive q
  end.

(** ** The number functions of [misc.ts] *)

(** An index of [substring]: [ToIntegerOrInfinity], kept within the
    string. *)
Definition clamp_index (len : nat) (x : double) : nat :=
  match x with
  | dNaN => 0%nat
  | dInf s => if s then 0%nat else len
  | dFin q => Nat.min (Z.to_nat (truncate_Q q)) len
  end.

(** [s.substring(start, end)]: the smaller index is the start. *)
Definition substring (s : jsstring) (start end_ : double) : jsstring :=
  let a := clamp_index (length s) start in
  let b := clamp_index (length s) end_ in
  firstn (Nat.max a b - Nat.min a b) (skipn (Nat.min a b) s).

(** [truncate], lines 70-72; [maxLength] is 50 when it is not given. *)
Definition truncate (value : jsstring) (maxLength : option double) : jsstring :=
  let maxLength := match maxLength with
                   | Some x => x
                   | None => dlit 50
                   end in
  if d_lt maxLength (dlit (Z.of_nat (length value)))
  then substring value (dlit 0) maxLength ++ js "..."
  else value.

(** [\w] *)
Definition isWordChar (c : char) : bool :=
  isAsciiLetter c || isDigit c || (c =? 95).

(** [\B] between the character before, if there is one, and the text
    ahead: no word boundary. *)
Definition not_boundary (prev : option char) (inp : jsstring) : bool :=
  Bool.eqb (match prev with Some c => isWordChar c | None => false end)
           (match inp with c :: _ => isWordChar c | [] => false end).

(** [(\d{3})+] followed by [k]: three digits, as often as possible first. *)
Fixpoint triples (k : jsstring -> bool) (inp : jsstring) : bool :=
  match inp with
  | a :: b :: c :: rest =>
      isDigit a && isDigit b && isDigit c && (triples k rest || k rest)
  | _ => false
  end.

(** [(?!\d)] *)
Definition no_digit (inp : jsstring) : bool :=
  match inp with
  | c :: _ => negb (isDigit c)
  | [] => true
  end.

(** The pattern of line 76, [\B(?=(\d{3})+(?!\d))], at a position: it
    matches the empty string there or nothing. *)
Definition thousandsPattern (prev : option char) (inp : jsstring) : bool :=
  not_boundary prev inp && triples no_digit inp.

(** [s.replace(/\B(?=(\d{3})+(?!\d))/g, ',')]: a comma at every position
    where the pattern matches. *)
Fixpoint commas_from (prev : option char) (inp : jsstring) : jsstring :=
  (if thousandsPattern prev inp then js "," else [])
  ++ match inp with
     | c :: inp' => c :: commas_from (Some c) inp'
     | [] => []
     end.

Definition commas (s : jsstring) : jsstring := commas_from None s.

(** [numberWithCommas], lines 74-77: [undefined] for [undefined]. *)
Definition numberWithCommas (number : option double) : option jsstring :=
  match number with
  | None => None
  | Some number => Some (commas (toString number))
  end.

(** Two digits for a number below 10, as lines 90-96 write it. *)
Definition padded (x : double) : jsstring :=
  if d_lt x (dlit 10) then js "0" ++ toString x else toString x.

(** [videoLength], lines 85-103. *)
Definition videoLength (lengthSeconds : double) : jsstring :=
  let hours := Math_floor (d_div lengthSeconds (dlit 3600)) in
  let minutes :=
    Math_floor (d_div (d_rem lengthSeconds (dlit 3600)) (dlit 60)) in
  let seconds := Math_round (d_rem lengthSeconds (dlit 60)) in
  let minutes := padded minutes in
  let seconds := padded seconds in
  if negb (d_eq hours (dlit 0))
  then toString hours ++ js ":" ++ minutes ++ js ":" ++ seconds
  else minutes ++ js ":" ++ seconds.

(** One part of [humanizeSeconds], lines 185 and 188. *)
Definition counted (x : double) (unit : jsstring) : jsstring :=
  toString x ++ unit ++ (if d_lt (dlit 1) x then js "s" else []).

(** [humanizeSeconds], lines 175-192. *)
Definition humanizeSeconds (totalSeconds : double) : jsstring :=
  let secondsInMinute := dlit 60 in
  let secondsInHour := dlit 3600 in
  let hours := Math_floor (d_div totalSeconds secondsInHour) in
  let minutes :=
    Math_floor (d_div (d_rem totalSeconds secondsInHour) secondsInMinute) in
  let parts := [] in
  let parts := if d_lt (dlit 0) hours
               then parts ++ [counted hours (js " hour")] else parts in
  let parts := if d_lt (dlit 0) minutes
               then parts ++ [counted minutes (js " minute")] else parts in
  join (js ", ") parts.

(** [interface Image] of the API model, as far as [misc.ts] reads it. *)
Record Image : Type := mkImage {
  url : jsstring;
  width : double;
  height : double
}.

(** [array.sort(compare)] for a comparator that orders the elements
    consistently: the sort is stable, an element goes behind the ones that
    the comparator puts before it. *)
Fixpoint insert_sorted {A : Type} (compare : A -> A -> double) (x : A)
    (sorted : list A) : list A :=
  match sorted with
  | [] => [x]
  | y :: rest =>
      if d_lt (dlit 0) (compare x y) then y :: insert_sorted compare x rest
      else x :: sorted
  end.

Definition sort {A : Type} (compare : A -> A -> double) (array : list A)
  : list A :=
  fold_right (insert_sorted compare) [] array.

(** The comparator of lines 276-278. *)
Definition by_area (a b : Image) : double :=
  d_sub (d_mul (width b) (height b)) (d_mul (width a) (height a)).

(** [getBestThumbnail], lines 262-284; the bounds are 480 and 360 when they
    are not given, and [images] may be [null]. *)
Definition getBestThumbnail (images : option (list Image))
    (maxWidthDimension maxHeightDimension : option double)
  : completion jsstring :=
  let maxWidthDimension := match maxWidthDimension with
                           | Some x => x
                           | None => dlit 480
                           end in
  let maxHeightDimension := match maxHeightDimension with
                            | Some x => x
                            | None => dlit 360
                            end in
  match images with
  | Some (first :: rest) =>
      let imagesFiltered :=
        filter (fun image => d_lt (width image) maxWidthDimension
                             && d_lt (height image) maxHeightDimension)
          (first :: rest) in
      match imagesFiltered with
      | [] => Normal (url first)
      | _ :: _ =>
          match sort by_area imagesFiltered with
          | best :: _ => Normal (url best)
          | [] => ThrowTypeError
          end
      end
  | _ => Normal []
  end.

(** [array[i]] for a Number [i]: the element when [i] is an index of the
    array, [undefined] otherwise. *)
Definition element {A : Type} (array : list A) (i : double) : option A :=
  match i with
  | dFin q =>
      if Qeq_bool q (inject_Z (Qfloor q)) && (0 <=? Qfloor q)%Z
      then nth_error array (Z.to_nat (Qfloor q))
      else None
  | _ => None
  end.

(** [unsafeRandomItem], lines 230-232; [random] is what [Math.random()]
    returns. *)
Definition unsafeRandomItem {A : Type} (random : double) (array : list A)
  : option A :=
  element array
    (Math_floor (d_mul random (dlit (Z.of_nat (length array))))).

(** The two digits of a number below 100. *)
Definition two_digits (x : N) : jsstring := [48 + x / 10; 48 + x mod 10].

(** The three digits of a number below 1000. *)
Definition three_digits (x : N) : jsstring :=
  [48 + x / 100; 48 + (x / 10) mod 10; 48 + x mod 10].

(** Whether an image is below both bounds, as the callback of line 269
    asks. *)
Definition below_bounds (maxWidthDimension maxHeightDimension : option double)
    (image : Image) : bool :=
  d_lt (width image) (match maxWidthDimension with
                      | Some x => x
                      | None => dlit 480
                      end)
  && d_lt (height image) (match maxHeightDimension with
                          | Some x => x
                          | None => dlit 360
                          end).

(** The whole part of a finite Number. *)
Definition whole (x : double) : Z :=
  match x with
  | dFin q => Qfloor q
  | _ => 0%Z
  end.

(** The number of pixels of an image. *)
Definition pixels (image : Image) : Z :=
  (whole (width image) * whole (height image))%Z.

(** An image whose sides are whole numbers of pixels, below 2^26. *)
Definition whole_sized (image : Image) : Prop :=
  exists w h : Z,
    (0 <= w < 2 ^ 26)%Z /\ (0 <= h < 2 ^ 26)%Z
    /\ width image = dlit w /\ height image = dlit h.

(** Thumbnails as the API lists them, the largest first. *)
Definition sample_thumbnails : list Image :=
  [mkImage (js "maxres") (dlit 1280) (dlit 720);
   mkImage (js "medium") (dlit 320) (dlit 180);
   mkImage (js "high") (dlit 480) (dlit 360);
   mkImage (js "start") (dlit 120) (dlit 90);
   mkImage (js "middle") (dlit 336) (dlit 188)].

(** ** The query flags of the window *)

(** The items of a [Storage] object: keys and values. *)
Abbreviation items := (list (jsstring * jsstring)) (only parsing).

Definition named {V : Type} (name : jsstring) (p : jsstring * V) : bool :=
  string_eqb (fst p) name.

(** ** [pullBitratePreference] *)

(** What [JSON.parse] returns. *)
#[warnings="-register-all"]
Inductive json : Type :=
| json_null
| json_boolean (b : bool)
| json_number (x : double)
| json_string (s : jsstring)
| json_array (items : list json)
| json_object (members : list (jsstring * json)).

(** What a call throws. *)
Inductive exception : Type :=
| TypeError
| SyntaxError.

(** How a call ends: with a value, or with an exception. *)
Inductive outcome (A : Type) : Type :=
| Returns (a : A)
| Throws (e : exception).
Arguments Returns {A} a.
Arguments Throws {A} e.

Definition and_then {A B : Type} (o : outcome A) (f : A -> outcome B)
  : outcome B :=
  match o with
  | Returns a => f a
  | Throws e => Throws e
  end.

(** [v.name] for a value of JSON: [null] has no members, an object has its
    own, and any other value has none of this name ([None] is
    [undefined]). *)
Definition member (v : json) (name : jsstring) : outcome (option json) :=
  match v with
  | json_null => Throws TypeError
  | json_object members =>
      Returns (option_map snd (find (named name) members))
  | _ => Returns None
  end.

(** Whether a condition takes the value for true. *)
Definition truthy (v : json) : bool :=
  match v with
  | json_null => false
  | json_boolean b => b
  | json_number dNaN => false
  | json_number (dFin q) => negb (is_zero q)
  | json_number (dInf _) => true
  | json_string s => negb (length s =? 0)%nat
  | json_array _ | json_object _ => true
  end.

(** [localStorage.getItem(key)] *)
Definition getItem (storage : items) (key : jsstring) : option jsstring :=
  option_map snd (find (named key) storage).

Section Storage.

(** [JSON.parse] is a parameter of the development. *)
Variable JSON_parse : jsstring -> outcome json.

(** [pullBitratePreference], lines 204-215.  The result is declared a
    number; what is returned is the member [bitrate] as it was parsed. *)
Definition pullBitratePreference (localStorage : items) : outcome json :=
  let vidstack := getItem localStorage (js "video-player") in
  match vidstack with
  | Some (c :: s) =>
      and_then (JSON_parse (c :: s)) (fun vidstackSettings =>
      and_then (member vidstackSettings (js "quality")) (fun quality =>
      match quality with
      | Some quality =>
          if truthy quality then
            and_then (member quality (js "bitrate")) (fun bitrate =>
            match bitrate with
            | Some bitrate =>
                if truthy bitrate then Returns bitrate
                else Returns (json_number (dlit (-1)))
            | None => Returns (json_number (dlit (-1)))
            end)
          else Returns (json_number (dlit (-1)))
      | None => Returns (json_number (dlit (-1)))
      end))
  | _ => Returns (json_number (dlit (-1)))
  end.

End Storage.

(** The member [bitrate] of the member [quality] of a value of JSON, when
    the value has it. *)
Definition stored_bitrate (settings : json) : option json :=
  match settings with
  | json_object members =>
      match find (named (js "quality")) members with
      | Some (_, json_object quality) =>
          option_map snd (find (named (js "bitrate")) quality)
      | _ => None
      end
  | _ => None
  end.

(** ** Lists of lines *)

Lemma split_not_nil (sep : char) (s : jsstring) : split sep s <> [].
Proof.
  destruct s as [|c s]; simpl; [discriminate|].
  destruct (c =? sep); [discriminate|].
  destruct (split sep s); discriminate.
Qed.

Lemma join_cons (sep p : jsstring) (q : jsstring) (rest : list jsstring) :
  join sep (p :: q :: rest) = p ++ sep ++ join sep (q :: rest).
Proof. reflexivity. Qed.

Lemma join_split (sep : char) (s : jsstring) : join [sep] (split sep s) = s.
Proof.
  induction s as [|c s IH]; [reflexivity|].
  simpl. destruct (N.eqb_spec c sep) as [->|Hne].
  - destruct (split sep s) as [|p rest] eqn:E.
    + now apply split_not_nil in E.
    + rewrite join_cons, IH. reflexivity.
  - destruct (split sep s) as [|p rest] eqn:E.
    + now apply split_not_nil in E.
    + destruct rest as [|q rest]; simpl in *; now rewrite <- IH.
Qed.

Lemma split_pieces (sep : char) (s : jsstring) :
  Forall (fun piece => ~ In sep piece) (split sep s).
Proof.
  induction s as [|c s IH]; simpl.
  - constructor; [intros []|constructor].
  - destruct (N.eqb_spec c sep) as [->|Hne].
    + constructor; [intros []|exact IH].
    + destruct (split sep s) as [|p rest]; [repeat constructor; simpl; intuition|].
      inversion IH; subst. constructor; [|assumption].
      simpl. intros [E|E]; [now apply Hne|contradiction].
Qed.

Lemma split_one (sep : char) (p : jsstring) :
  ~ In sep p -> split sep p = [p].
Proof.
  induction p as [|c p IH]; intros H; [reflexivity|].
  simpl. destruct (N.eqb_spec c sep) as [->|Hne].
  - exfalso. apply H. now left.
  - rewrite IH; [reflexivity|]. intros Hin. apply H. now right.
Qed.

Lemma split_app (sep : char) (p : jsstring) (s : jsstring) :
  ~ In sep p -> split sep (p ++ sep :: s) = p :: split sep s.
Proof.
  induction p as [|c p IH]; intros H; simpl.
  - now rewrite N.eqb_refl.
  - destruct (N.eqb_spec c sep) as [->|Hne].
    + exfalso. apply H. now left.
    + rewrite IH; [reflexivity|]. intros Hin. apply H. now right.
Qed.

Lemma split_join (sep : char) (pieces : list jsstring) :
  pieces <> [] ->
  Forall (fun piece => ~ In sep piece) pieces ->
  split sep (join [sep] pieces) = pieces.
Proof.
  induction pieces as [|p rest IH]; intros Hne Hall; [congruence|].
  inversion Hall as [|? ? Hp Hrest]; subst.
  destruct rest as [|q rest].
  - simpl. now apply split_one.
  - rewrite join_cons.
    change (p ++ [sep] ++ join [sep] (q :: rest))
      with (p ++ sep :: join [sep] (q :: rest)).
    rewrite split_app by assumption.
    rewrite IH; [reflexivity|discriminate|assumption].
Qed.

(** ** The matcher and the parses *)

(** Case analysis on the scrutinee of the match at the head of a hypothesis
    or of the goal. *)
Ltac case_hyp H E :=
  match type of H with
  | match ?x with _ => _ end = _ => destruct x eqn:E
  | (if ?x then _ else _) = _ => destruct x eqn:E
  end.

Ltac case_goal E :=
  match goal with
  | |- match ?x with _ => _ end <> _ => destruct x eqn:E
  | |- match ?x with _ => _ end = _ => destruct x eqn:E
  end.

Lemma strip_prefix_spec (p s rest : jsstring) :
  strip_prefix p s = Some rest <-> s = p ++ rest.
Proof.
  revert s. induction p as [|x p IH]; intros s; simpl.
  - split; congruence.
  - destruct s as [|y s]; [split; discriminate|].
    destruct (N.eqb_spec x y) as [->|Hne].
    + rewrite IH. split; congruence.
    + split; [discriminate|]. intros E. injection E as E _. congruence.
Qed.

Lemma strip_prefix_app (p rest : jsstring) : strip_prefix p (p ++ rest) = Some rest.
Proof. now apply strip_prefix_spec. Qed.

Lemma consumed_app (w rest : jsstring) : consumed (w ++ rest) rest = w.
Proof.
  unfold consumed. rewrite length_app.
  replace (length w + length rest - length rest)%nat with (length w) by lia.
  rewrite firstn_app, firstn_all, Nat.sub_diag. simpl. apply app_nil_r.
Qed.

Lemma star_greedy_sound (cl : cclass) (k : cont) (caps : list value)
    (inp : jsstring) (res : mstate) :
  star_greedy cl k caps inp = Some res ->
  exists w rest, inp = w ++ rest /\ forallb (cmatch cl) w = true
                 /\ k (caps, rest) = Some res.
Proof.
  induction inp as [|c inp IH]; simpl; intros H.
  - exists [], []. auto.
  - destruct (cmatch cl c) eqn:Hc.
    + destruct (star_greedy cl k caps inp) as [r|] eqn:E.
      * destruct (IH H) as (w & rest & -> & Hw & Hk).
        exists (c :: w), rest. simpl. rewrite Hc, Hw. auto.
      * exists [], (c :: inp). auto.
    + exists [], (c :: inp). auto.
Qed.

Lemma star_lazy_sound (cl : cclass) (k : cont) (caps : list value)
    (inp : jsstring) (res : mstate) :
  star_lazy cl k caps inp = Some res ->
  exists w rest, inp = w ++ rest /\ forallb (cmatch cl) w = true
                 /\ k (caps, rest) = Some res.
Proof.
  induction inp as [|c inp IH]; simpl; intros H.
  - case_hyp H E; [|discriminate].
    exists [], []. rewrite <- H. auto.
  - case_hyp H E.
    + exists [], (c :: inp). rewrite <- H. auto.
    + destruct (cmatch cl c) eqn:Hc; [|discriminate].
      destruct (IH H) as (w & rest & -> & Hw & Hk).
      exists (c :: w), rest. simpl. rewrite Hc, Hw. auto.
Qed.

Lemma star_greedy_complete (cl : cclass) (k : cont) (caps : list value)
    (w rest : jsstring) :
  forallb (cmatch cl) w = true -> k (caps, rest) <> None ->
  star_greedy cl k caps (w ++ rest) <> None.
Proof.
  induction w as [|c w IH]; simpl; intros Hw Hk.
  - destruct rest as [|c rest]; simpl; [assumption|].
    destruct (cmatch cl c); [|assumption].
    destruct (star_greedy cl k caps rest); [discriminate|assumption].
  - apply andb_true_iff in Hw as [Hc Hw]. rewrite Hc.
    specialize (IH Hw Hk).
    destruct (star_greedy cl k caps (w ++ rest)); [discriminate|contradiction].
Qed.

Lemma star_lazy_complete (cl : cclass) (k : cont) (caps : list value)
    (w rest : jsstring) :
  forallb (cmatch cl) w = true -> k (caps, rest) <> None ->
  star_lazy cl k caps (w ++ rest) <> None.
Proof.
  induction w as [|c w IH]; simpl; intros Hw Hk.
  - destruct rest as [|c rest]; simpl; case_goal E;
      solve [discriminate|contradiction].
  - apply andb_true_iff in Hw as [Hc Hw]. rewrite Hc.
    case_goal E; [discriminate|]. now apply IH.
Qed.

(** Soundness: a result of the matcher comes from a parse after which the
    continuation gave that result. *)
Lemma m_sound (r : regex) :
  forall (k : cont) (st res : mstate),
    m r k st = Some res ->
    exists st', parses r st st' /\ k st' = Some res.
Proof.
  induction r as [s|cl|g cl|r IH|r IH|r1 IH1 r2 IH2]; intros k [caps inp] res H;
    simpl in H.
  - destruct (strip_prefix s inp) as [rest|] eqn:E; [|discriminate].
    apply strip_prefix_spec in E. exists (caps, rest). simpl. auto.
  - destruct inp as [|c rest]; [discriminate|].
    destruct (cmatch cl c) eqn:Hc; [|discriminate].
    exists (caps, rest). simpl. eauto.
  - assert (exists w rest, inp = w ++ rest /\ forallb (cmatch cl) w = true
                           /\ k (caps, rest) = Some res) as (w & rest & -> & Hw & Hk).
    { destruct g; [now apply star_greedy_sound|now apply star_lazy_sound]. }
    exists (caps, rest). simpl. eauto.
  - case_hyp H E.
    + injection H as ->. apply IH in E as (st' & Hp & Hk). simpl in Hk.
      destruct (Nat.eqb_spec (length (snd st')) (length inp)); [discriminate|].
      exists st'. simpl. auto.
    + eexists. split; [right; reflexivity|exact H].
  - apply IH in H as (mid & Hp & Hk). simpl in Hk.
    eexists. split; [exists mid; split; [exact Hp|reflexivity]|exact Hk].
  - apply IH1 in H as (mid & Hp1 & H). apply IH2 in H as (st' & Hp2 & Hk).
    exists st'. split; [exists mid; auto|exact Hk].
Qed.

(** Completeness: when some parse leads to a state the continuation accepts,
    the matcher finds a result (that of the first such parse in its order). *)
Lemma m_complete (r : regex) :
  forall (k : cont) (st st' : mstate),
    parses r st st' -> k st' <> None -> m r k st <> None.
Proof.
  induction r as [s|cl|g cl|r IH|r IH|r1 IH1 r2 IH2];
    intros k [caps inp] [caps' inp'] Hp Hk; simpl in Hp |- *.
  - destruct Hp as [-> ->]. now rewrite strip_prefix_app.
  - destruct Hp as (c & -> & Hc & ->). now rewrite Hc.
  - destruct Hp as (w & -> & Hw & ->).
    destruct g; [now apply star_greedy_complete|now apply star_lazy_complete].
  - case_goal E; [discriminate|].
    destruct Hp as [[Hp Hlen]|Heq].
    + exfalso. revert E. apply (IH _ _ _ Hp). simpl.
      destruct (Nat.eqb_spec (length inp') (length inp)); [contradiction|assumption].
    + now rewrite <- Heq.
  - destruct Hp as (mid & Hp & Heq). apply (IH _ _ _ Hp). now rewrite <- Heq.
  - destruct Hp as (mid & Hp1 & Hp2). apply (IH1 _ _ _ Hp1).
    now apply (IH2 _ _ _ Hp2).
Qed.

(** A parse only removes a prefix of the input. *)
Lemma parses_suffix (r : regex) :
  forall st st', parses r st st' -> exists w, snd st = w ++ snd st'.
Proof.
  induction r as [s|cl|g cl|r IH|r IH|r1 IH1 r2 IH2]; intros st st' Hp;
    simpl in Hp.
  - destruct Hp as [-> _]. eauto.
  - destruct Hp as (c & -> & _). now exists [c].
  - destruct Hp as (w & -> & _). eauto.
  - destruct Hp as [[Hp _]| ->]; [now apply IH|now exists []].
  - destruct Hp as (mid & Hp & ->). simpl. now apply IH.
  - destruct Hp as (mid & Hp1 & Hp2).
    apply IH1 in Hp1 as [w1 ->]. apply IH2 in Hp2 as [w2 ->].
    exists (w1 ++ w2). now rewrite app_assoc.
Qed.

(** The matcher fails with a continuation that accepts less. *)
Lemma m_none_mono (r : regex) (k1 k2 : cont) (st : mstate) :
  (forall st', k1 st' = None -> k2 st' = None) ->
  m r k1 st = None -> m r k2 st = None.
Proof.
  intros Hk H1. destruct (m r k2 st) as [res|] eqn:E; [exfalso|reflexivity].
  apply m_sound in E as (st' & Hp & E).
  apply (m_complete r k1 st st' Hp); [|exact H1].
  intros H. apply Hk in H. congruence.
Qed.

(** The captures of a parse: those before it, then one per group. *)
Lemma parses_captures (r : regex) :
  forall st st', parses r st st' ->
    exists new, fst st' = fst st ++ new /\ length new = ngroups r.
Proof.
  induction r as [s|cl|g cl|r IH|r IH|r1 IH1 r2 IH2]; intros st st' Hp;
    simpl in Hp.
  - destruct Hp as [_ ->]. exists []. now rewrite app_nil_r.
  - destruct Hp as (c & _ & _ & ->). exists []. now rewrite app_nil_r.
  - destruct Hp as (w & _ & _ & ->). exists []. now rewrite app_nil_r.
  - destruct Hp as [[Hp _]| ->]; [now apply IH|].
    simpl. eexists. split; [reflexivity|apply repeat_length].
  - destruct Hp as (mid & Hp & ->). apply IH in Hp as (new & -> & Hlen). simpl.
    rewrite firstn_app, firstn_all, Nat.sub_diag, skipn_app, skipn_all,
      Nat.sub_diag. simpl. rewrite app_nil_r.
    eexists. split; [reflexivity|]. simpl. now rewrite Hlen.
  - destruct Hp as (mid & Hp1 & Hp2).
    apply IH1 in Hp1 as (n1 & E1 & L1). apply IH2 in Hp2 as (n2 & E2 & L2).
    exists (n1 ++ n2). rewrite E2, E1, <- app_assoc, length_app, L1, L2. auto.
Qed.

Lemma parses_Str (s : jsstring) (caps : list value) (inp : jsstring) (st' : mstate) :
  parses (Str s) (caps, inp) st' <-> exists rest, inp = s ++ rest /\ st' = (caps, rest).
Proof.
  destruct st' as [caps' rest]. simpl. split.
  - intros [-> ->]. eauto.
  - intros (rest' & -> & E). now injection E as -> ->.
Qed.

Lemma parses_Star (g : bool) (cl : cclass) (caps : list value) (inp : jsstring)
    (st' : mstate) :
  parses (Star g cl) (caps, inp) st' <->
  exists w rest, forallb (cmatch cl) w = true /\ inp = w ++ rest /\ st' = (caps, rest).
Proof.
  destruct st' as [caps' rest]. simpl. split.
  - intros (w & -> & Hw & ->). eauto.
  - intros (w & rest' & Hw & -> & E). injection E as -> ->. eauto.
Qed.

Lemma parses_Plus (cl : cclass) (caps : list value) (inp : jsstring) (st' : mstate) :
  parses (Plus cl) (caps, inp) st' <->
  exists c w rest, forallb (cmatch cl) (c :: w) = true /\ inp = c :: w ++ rest
                   /\ st' = (caps, rest).
Proof.
  destruct st' as [caps' rest]. unfold Plus. simpl. split.
  - intros ([caps1 inp1] & (c & -> & Hc & E1) & (w & E2 & Hw & E3)).
    simpl in *. subst. exists c, w, rest. now rewrite Hc, Hw.
  - intros (c & w & rest' & Hw & -> & E). injection E as -> ->.
    apply andb_true_iff in Hw as [Hc Hw].
    exists (caps, w ++ rest'). simpl. split; eauto.
Qed.

(** A group with no group nested in it adds the text it took to the captures. *)
Lemma parses_Grp (r : regex) (caps : list value) (inp : jsstring) (st' : mstate) :
  ngroups r = 0%nat ->
  parses (Grp r) (caps, inp) st' <->
  exists w rest, parses r (caps, w ++ rest) (caps, rest) /\ inp = w ++ rest
                 /\ st' = (caps ++ [VStr w], rest).
Proof.
  intros Hn. simpl. split.
  - intros ([caps1 rest] & Hp & ->).
    destruct (parses_captures _ _ _ Hp) as (new & E & Hlen). simpl in E.
    rewrite Hn in Hlen. destruct new; [|discriminate]. rewrite app_nil_r in E.
    subst caps1. destruct (parses_suffix _ _ _ Hp) as [w E]. simpl in E. subst inp.
    exists w, rest. simpl. rewrite consumed_app, firstn_all, skipn_all. auto.
  - intros (w & rest & Hp & -> & ->). exists (caps, rest). split; [exact Hp|].
    simpl. now rewrite consumed_app, firstn_all, skipn_all.
Qed.

(** ** Searching *)

Lemma m_accepts (r : regex) (inp : jsstring) :
  m r Some ([], inp) <> None <-> accepts r inp.
Proof.
  split.
  - destruct (m r Some ([], inp)) as [res|] eqn:E; [intros _|congruence].
    apply m_sound in E as (st' & Hp & _). now exists st'.
  - intros [st' Hp]. now apply (m_complete r Some _ st' Hp).
Qed.

Lemma search_None (r : regex) (i : nat) (inp : jsstring) :
  search r i inp = None <->
  forall pre suf, inp = pre ++ suf -> m r Some ([], suf) = None.
Proof.
  revert i. induction inp as [|c inp IH]; intros i; simpl.
  - destruct (m r Some _) as [[caps rest]|] eqn:E.
    + split; [discriminate|]. intros H. now rewrite (H [] []) in E.
    + split; [|reflexivity]. intros _ pre suf H.
      symmetry in H. apply app_eq_nil in H as [-> ->]. exact E.
  - destruct (m r Some _) as [[caps rest]|] eqn:E.
    + split; [discriminate|]. intros H. now rewrite (H [] (c :: inp)) in E.
    + rewrite IH. split.
      * intros H [|x pre] suf Heq; simpl in Heq.
        -- now subst suf.
        -- injection Heq as -> ->. now apply (H pre).
      * intros H pre suf ->. now apply (H (c :: pre)).
Qed.

(** The match [search] returns is the leftmost one, with the captures of the
    matcher. *)
Lemma search_Some (r : regex) (i : nat) (inp : jsstring) (mr : MatchResult) :
  search r i inp = Some mr ->
  exists pre suf caps rest,
    inp = pre ++ suf /\ m r Some ([], suf) = Some (caps, rest)
    /\ mr = mkMatch (i + length pre) (VStr (consumed suf rest) :: caps)
    /\ forall pre' suf', inp = pre' ++ suf' -> (length pre' < length pre)%nat ->
                         m r Some ([], suf') = None.
Proof.
  revert i. induction inp as [|c inp IH]; intros i; simpl.
  - destruct (m r Some _) as [[caps rest]|] eqn:E; [|discriminate].
    intros H. injection H as <-. exists [], [], caps, rest. simpl.
    rewrite Nat.add_0_r. repeat split; auto. intros; lia.
  - destruct (m r Some _) as [[caps rest]|] eqn:E.
    + intros H. injection H as <-. exists [], (c :: inp), caps, rest. simpl.
      rewrite Nat.add_0_r. repeat split; auto. intros; lia.
    + intros H. apply IH in H as (pre & suf & caps & rest & -> & Hm & -> & Hleft).
      exists (c :: pre), suf, caps, rest. simpl.
      rewrite Nat.add_succ_r. repeat split; auto.
      intros [|x pre'] suf' Heq Hlen; simpl in Heq.
      * now subst suf'.
      * injection Heq as -> Heq. apply (Hleft pre' suf' Heq). simpl in Hlen. lia.
Qed.

Lemma search_found (r : regex) (i : nat) (inp : jsstring) :
  search r i inp <> None <-> exists pre suf, inp = pre ++ suf /\ accepts r suf.
Proof.
  split.
  - destruct (search r i inp) as [mr|] eqn:E; [intros _|congruence].
    apply search_Some in E as (pre & suf & caps & rest & -> & Hm & _).
    exists pre, suf. split; [reflexivity|]. apply m_accepts. congruence.
  - intros (pre & suf & -> & Ha) H. apply m_accepts in Ha. apply Ha.
    now apply (proj1 (search_None r i _) H pre suf).
Qed.

(** The start index has no part in whether and what [search] finds. *)
Lemma search_index (r : regex) (i j : nat) (inp : jsstring) :
  search r i inp = None <-> search r j inp = None.
Proof. now rewrite !search_None. Qed.

(** [exec] on an object without the [g] flag: the search from 0, whatever
    [lastIndex] holds, and the object is left as it was. *)
Lemma exec_not_global (R : RegExp) (s : jsstring) :
  global R = false -> exec R s = (search (pattern R) 0 s, R).
Proof. unfold exec. now intros ->. Qed.

(** A group with no group nested in it, by the input left after it. *)
Lemma parses_Grp_rest (r : regex) (caps : list value) (inp : jsstring) (st' : mstate) :
  ngroups r = 0%nat ->
  parses (Grp r) (caps, inp) st' <->
  exists rest, parses r (caps, inp) (caps, rest)
               /\ st' = (caps ++ [VStr (consumed inp rest)], rest).
Proof.
  intros Hn. rewrite parses_Grp by assumption. split.
  - intros (w & rest & Hp & -> & ->). exists rest. now rewrite consumed_app.
  - intros (rest & Hp & ->). destruct (parses_suffix _ _ _ Hp) as [w E].
    simpl in E. subst inp. exists w, rest. now rewrite consumed_app.
Qed.

Lemma parses_Opt (r : regex) (caps : list value) (inp : jsstring) (st' : mstate) :
  ngroups r = 0%nat ->
  parses (Opt r) (caps, inp) st' <->
  (parses r (caps, inp) st' /\ length (snd st') <> length inp) \/ st' = (caps, inp).
Proof.
  intros Hn. simpl. rewrite Hn. simpl. now rewrite app_nil_r.
Qed.

(** Building a parse of a concrete pattern: a literal, a group of one
    quantified class, a quantified class, then the rest. *)
Lemma parses_Str_intro (s : jsstring) (r : regex) (caps : list value)
    (rest : jsstring) (st' : mstate) :
  parses r (caps, rest) st' -> parses (Cat (Str s) r) (caps, s ++ rest) st'.
Proof. intros H. exists (caps, rest). simpl. auto. Qed.

Lemma parses_Star_intro (g : bool) (cl : cclass) (r : regex) (caps : list value)
    (w rest : jsstring) (st' : mstate) :
  all_of cl w -> parses r (caps, rest) st' ->
  parses (Cat (Star g cl) r) (caps, w ++ rest) st'.
Proof. intros Hw H. exists (caps, rest). split; [|exact H]. exists w. auto. Qed.


Lemma parses_Grp_intro (r0 r : regex) (caps : list value) (w rest : jsstring)
    (st' : mstate) :
  ngroups r0 = 0%nat ->
  parses r0 (caps, w ++ rest) (caps, rest) ->
  parses r (caps ++ [VStr w], rest) st' ->
  parses (Cat (Grp r0) r) (caps, w ++ rest) st'.
Proof.
  intros Hn H0 H. exists (caps ++ [VStr w], rest). split; [|exact H].
  apply parses_Grp; [assumption|]. exists w, rest. auto.
Qed.

Lemma parses_Plus_last (cl : cclass) (caps : list value) (w rest : jsstring) :
  w <> [] -> all_of cl w -> parses (Plus cl) (caps, w ++ rest) (caps, rest).
Proof.
  intros Hne Hw. destruct w as [|c w]; [congruence|].
  apply parses_Plus. exists c, w, rest. auto.
Qed.

Lemma parses_Star_last (g : bool) (cl : cclass) (caps : list value)
    (w rest : jsstring) :
  all_of cl w -> parses (Star g cl) (caps, w ++ rest) (caps, rest).
Proof. intros Hw. exists w. auto. Qed.

Lemma parses_Str_last (s : jsstring) (caps : list value) (rest : jsstring) :
  parses (Str s) (caps, s ++ rest) (caps, rest).
Proof. simpl. auto. Qed.

Lemma consumed_app2 (a b rest : jsstring) : consumed (a ++ b ++ rest) rest = a ++ b.
Proof. rewrite app_assoc. apply consumed_app. Qed.

Lemma consumed_app3 (a b c rest : jsstring) :
  consumed (a ++ b ++ c ++ rest) rest = a ++ b ++ c.
Proof. rewrite !app_assoc, consumed_app. now rewrite <- !app_assoc. Qed.

Lemma consumed_app4 (a b c d rest : jsstring) :
  consumed (a ++ b ++ c ++ d ++ rest) rest = a ++ b ++ c ++ d.
Proof. rewrite !app_assoc, consumed_app. now rewrite <- !app_assoc. Qed.

Lemma consumed_app5 (a b c d e rest : jsstring) :
  consumed (a ++ b ++ c ++ d ++ e ++ rest) rest = a ++ b ++ c ++ d ++ e.
Proof. rewrite !app_assoc, consumed_app. now rewrite <- !app_assoc. Qed.

Lemma consumed_nil (rest : jsstring) : consumed rest rest = [].
Proof. apply (consumed_app [] rest). Qed.

(** The same facts, from a parse to its pieces. *)
Lemma parses_Str_inv (s : jsstring) (caps : list value) (inp : jsstring) (st' : mstate) :
  parses (Str s) (caps, inp) st' -> exists rest, inp = s ++ rest /\ st' = (caps, rest).
Proof. exact (proj1 (parses_Str s caps inp st')). Qed.

Lemma parses_Star_inv (g : bool) (cl : cclass) (caps : list value) (inp : jsstring)
    (st' : mstate) :
  parses (Star g cl) (caps, inp) st' ->
  exists w rest, all_of cl w /\ inp = w ++ rest /\ st' = (caps, rest).
Proof. exact (proj1 (parses_Star g cl caps inp st')). Qed.

Lemma parses_Plus_inv (cl : cclass) (caps : list value) (inp : jsstring) (st' : mstate) :
  parses (Plus cl) (caps, inp) st' ->
  exists c w rest, all_of cl (c :: w) /\ inp = (c :: w) ++ rest /\ st' = (caps, rest).
Proof. exact (proj1 (parses_Plus cl caps inp st')). Qed.

Lemma parses_Grp_inv (r : regex) (caps : list value) (inp : jsstring) (st' : mstate) :
  ngroups r = 0%nat ->
  parses (Grp r) (caps, inp) st' ->
  exists rest, parses r (caps, inp) (caps, rest)
               /\ st' = (caps ++ [VStr (consumed inp rest)], rest).
Proof. intros Hn. exact (proj1 (parses_Grp_rest r caps inp st' Hn)). Qed.

Lemma parses_Opt_inv (r : regex) (caps : list value) (inp : jsstring) (st' : mstate) :
  ngroups r = 0%nat ->
  parses (Opt r) (caps, inp) st' ->
  parses r (caps, inp) st' \/ st' = (caps, inp).
Proof. intros Hn H. apply (proj1 (parses_Opt r caps inp st' Hn)) in H. tauto. Qed.

Lemma parses_Cat_inv (r1 r2 : regex) (st st' : mstate) :
  parses (Cat r1 r2) st st' -> exists mid, parses r1 st mid /\ parses r2 mid st'.
Proof. trivial. Qed.

Ltac split_state E :=
  first [apply pair_equal_spec in E; destruct E|idtac]; subst;
  repeat match goal with X : ?x = ?x |- _ => clear X end.

(** Taking a parse of a concrete pattern apart, piece by piece. *)
Ltac parse_inv H :=
  lazymatch type of H with
  | parses (Plus _) _ _ =>
      let c := fresh "c" in let w := fresh "w" in let rest := fresh "rest" in
      let Hw := fresh "Hw" in let E := fresh "E" in
      apply parses_Plus_inv in H; destruct H as (c & w & rest & Hw & ? & E);
      split_state E
  | parses (Cat _ _) _ _ =>
      let H1 := fresh "H" in let H2 := fresh "H" in
      apply parses_Cat_inv in H; destruct H as ([? ?] & H1 & H2);
      parse_inv H1; parse_inv H2
  | parses (Str _) _ _ =>
      let rest := fresh "rest" in let E := fresh "E" in
      apply parses_Str_inv in H; destruct H as (rest & ? & E); split_state E
  | parses (Star _ _) _ _ =>
      let w := fresh "w" in let rest := fresh "rest" in
      let Hw := fresh "Hw" in let E := fresh "E" in
      apply parses_Star_inv in H; destruct H as (w & rest & Hw & ? & E);
      split_state E
  | parses (Grp _) _ _ =>
      let rest := fresh "rest" in let E := fresh "E" in
      let Hp := fresh "Hp" in
      apply parses_Grp_inv in H; [|reflexivity]; destruct H as (rest & Hp & E);
      split_state E; parse_inv Hp
  | parses (Opt _) _ _ =>
      let Hp := fresh "Hp" in let E := fresh "E" in
      apply parses_Opt_inv in H; [|reflexivity]; destruct H as [Hp|E];
      [parse_inv Hp|split_state E]
  end.

(** ** The three patterns of [phaseDescription] *)

(** [urlRegex] matches at the head of the input exactly a text
    [<a href=], quote, a non-empty run of non-quotes, quote. *)
Lemma url_parse (inp : jsstring) (st' : mstate) :
  parses urlPattern ([], inp) st' <->
  exists c U, all_of (Not dq) (c :: U)
              /\ inp = js "<a href='" ++ (c :: U) ++ dq :: snd st'
              /\ fst st' = [VStr (c :: U)].
Proof.
  unfold urlPattern. split.
  - intros H. parse_inv H. cbn [fst snd app].
    exists c, w. split; [assumption|split; [reflexivity|]].
    now rewrite app_comm_cons, consumed_app.
  - intros (c & U & HU & -> & Hf). destruct st' as [caps rest].
    cbn [fst snd] in *. subst caps.
    apply parses_Str_intro.
    apply (parses_Grp_intro _ _ [] (c :: U)); [reflexivity| |].
    + now apply parses_Plus_last.
    + apply (parses_Str_last [dq]).
Qed.

Ltac simpl_consumed :=
  cbn [fst snd]; rewrite ?app_nil_l;
  rewrite ?consumed_app5, ?consumed_app4, ?consumed_app3, ?consumed_app2,
    ?consumed_app, ?consumed_nil.

Lemma invidious_parse (inp : jsstring) (st' : mstate) :
  parses invidiousPattern ([], inp) st' ->
  exists U T P W TITLE,
    inp = js "<a href='" ++ U
            ++ js "' data-onclick='jump_to_time' data-jump-time='" ++ T
            ++ js "'>" ++ P ++ js "</a>" ++ W ++ TITLE ++ snd st'
    /\ fst st' = [VStr U; VStr T; VStr P; VStr TITLE]
    /\ U <> [] /\ all_of (Not dq) U
    /\ T <> [] /\ all_of Digit T
    /\ clock P
    /\ all_of Space W
    /\ TITLE <> [] /\ all_of Any TITLE.
Proof.
  unfold invidiousPattern. intros H. parse_inv H; simpl_consumed.
  - exists (c :: w), (c0 :: w0),
      ((c1 :: w1) ++ js ":" ++ (c2 :: w2) ++ js ":" ++ (c3 :: w3)), w4, (c4 :: w5).
    rewrite <- !app_assoc.
    repeat (split; [first [assumption|discriminate|reflexivity]|]).
    split; [|repeat split; first [assumption|discriminate]].
    exists (c1 :: w1), (c2 :: w2), (js ":" ++ (c3 :: w3)).
    repeat (split; [first [assumption|discriminate|reflexivity]|]).
    right. exists (c3 :: w3). repeat split; first [assumption|discriminate].
  - exists (c :: w), (c0 :: w0), ((c1 :: w1) ++ js ":" ++ (c2 :: w2)), w3, (c3 :: w4).
    rewrite <- !app_assoc.
    repeat (split; [first [assumption|discriminate|reflexivity]|]).
    split; [|repeat split; first [assumption|discriminate]].
    exists (c1 :: w1), (c2 :: w2), [].
    rewrite app_nil_r.
    repeat (split; [first [assumption|discriminate|reflexivity]|]).
    now left.
Qed.

Lemma ytjs_parse (inp : jsstring) (st' : mstate) :
  parses ytJsPattern ([], inp) st' ->
  exists O T W X1 X2 L X3 TITLE,
    inp = js "&" ++ O ++ js "t=" ++ T ++ W ++ js "s" ++ X1 ++ js "<span" ++ X2
            ++ js ">" ++ L ++ js "</span>" ++ X3 ++ js ">" ++ TITLE
            ++ js "</span>" ++ snd st'
    /\ fst st' = [VStr T; VStr L; VStr TITLE]
    /\ (O = [] \/ exists NS, O = NS ++ js "&" /\ all_of NonSpace NS)
    /\ T <> [] /\ all_of Digit T
    /\ all_of Space W /\ all_of Any X1 /\ all_of (Not gt) X2
    /\ all_of (Not lt) L /\ all_of Any X3 /\ all_of Any TITLE.
Proof.
  unfold ytJsPattern. intros H. parse_inv H; simpl_consumed.
  - exists (w ++ js "&"), (c :: w0), w1, w2, w3, w4, w5, w6.
    rewrite <- !app_assoc.
    repeat (split; [first [assumption|discriminate|reflexivity]|]).
    split; [right; exists w; auto|].
    repeat split; first [assumption|discriminate].
  - exists [], (c :: w), w0, w1, w2, w3, w4, w5.
    repeat (split; [first [assumption|discriminate|reflexivity]|]).
    split; [now left|].
    repeat split; first [assumption|discriminate].
Qed.

(** ** The matches of the two timestamp patterns *)

Lemma search_parses (r : regex) (i : nat) (inp : jsstring) (mr : MatchResult) :
  search r i inp = Some mr ->
  exists pre suf st',
    inp = pre ++ suf /\ parses r ([], suf) st'
    /\ mr = mkMatch (i + length pre) (VStr (consumed suf (snd st')) :: fst st')
    /\ forall pre' suf', inp = pre' ++ suf' -> (length pre' < length pre)%nat ->
                         ~ accepts r suf'.
Proof.
  intros H. apply search_Some in H as (pre & suf & caps & rest & -> & Hm & -> & Hl).
  destruct (m_sound _ _ _ _ Hm) as (st' & Hp & E). injection E as ->.
  exists pre, suf, (caps, rest). repeat split; auto.
  intros pre' suf' E Hlen Ha. apply m_accepts in Ha. apply Ha. now apply (Hl pre').
Qed.

(** A match of the legacy pattern has its four groups, all strings; the
    second is a non-empty run of digits. *)
Lemma invidious_match (line : jsstring) (tm : MatchResult) :
  search invidiousPattern 0 line = Some tm ->
  exists whole U T P TITLE,
    elements tm = [VStr whole; VStr U; VStr T; VStr P; VStr TITLE]
    /\ T <> [] /\ all_of Digit T /\ clock P /\ TITLE <> [] /\ all_of Any TITLE.
Proof.
  intros H. apply search_parses in H as (pre & suf & st' & -> & Hp & -> & _).
  apply invidious_parse in Hp
    as (U & T & P & W & TITLE & _ & -> & _ & _ & HT & HT' & HP & _ & HTi & HTi').
  exists (consumed suf (snd st')), U, T, P, TITLE. auto 10.
Qed.

(** A match of the alternate pattern has its three groups, all strings; the
    first is a non-empty run of digits. *)
Lemma ytjs_match (line : jsstring) (tm : MatchResult) :
  search ytJsPattern 0 line = Some tm ->
  exists whole T L TITLE,
    elements tm = [VStr whole; VStr T; VStr L; VStr TITLE]
    /\ T <> [] /\ all_of Digit T /\ all_of (Not lt) L /\ all_of Any TITLE.
Proof.
  intros H. apply search_parses in H as (pre & suf & st' & -> & Hp & -> & _).
  apply ytjs_parse in Hp
    as (O & T & W & X1 & X2 & L & X3 & TITLE & _ & -> & _ & HT & HT' & _ & _ & _
        & HL & _ & HTi).
  exists (consumed suf (snd st')), T, L, TITLE. auto 10.
Qed.

(** The text [time] of a timestamp match, in either mode. *)
Lemma timestamp_time (yt : bool) (line : jsstring) (tm : MatchResult) :
  timestampMatch yt line = Some tm ->
  exists T, at_index tm (if yt then 1 else 2)%nat = VStr T
            /\ T <> [] /\ all_of Digit T.
Proof.
  unfold timestampMatch, at_index. destruct yt; intros H.
  - apply ytjs_match in H as (whole & T & L & TITLE & -> & HT & HT' & _).
    exists T. auto.
  - apply invidious_match in H as (whole & U & T & P & TITLE & -> & HT & HT' & _).
    exists T. auto.
Qed.

(** ** The loop *)

Section Loop.

Variable decode : jsstring -> jsstring.

(** One line: an entry pushed for a timestamp line, the retained form of the
    line pushed otherwise; the RegExp objects stay as they are, and nothing is
    thrown. *)
Lemma forEach_body_spec (yt : bool) (st : locals) (line : jsstring) :
  regexes_of_call st ->
  forEach_body decode yt st line =
  Normal (if is_timestamp yt line
          then push_timestamp st (entry_of decode yt line)
          else push_line st (retained line)).
Proof.
  intros (Pu & Gu & Pi & Gi & Py & Gy). unfold forEach_body.
  rewrite (exec_not_global _ _ Gu), Pu.
  assert (exec (if yt then timestampRegexYtJs st else timestampRegexInvidious st)
               (if yt then line ++ js "</span>" else line)
          = (timestampMatch yt line,
             if yt then timestampRegexYtJs st else timestampRegexInvidious st)) as ->.
  { unfold timestampMatch.
    destruct yt; rewrite exec_not_global by assumption; [now rewrite Py|now rewrite Pi]. }
  assert ((if yt
           then set_regexes st (urlRegex st) (timestampRegexInvidious st)
                  (timestampRegexYtJs st)
           else set_regexes st (urlRegex st) (timestampRegexInvidious st)
                  (timestampRegexYtJs st)) = st) as Est.
  { destruct st, yt; reflexivity. }
  unfold is_timestamp, entry_of, retained, is_url, urlMatch.
  destruct (timestampMatch yt line) as [tm|] eqn:Et; cbn [is_some].
  - destruct (timestamp_time _ _ _ Et) as (T & ET & _).
    assert ((if yt then at_index tm 1 else at_index tm 2) = VStr T) as ->
        by (now destruct yt).
    unfold entry_of_match. rewrite ET. cbn [capture_text].
    destruct yt; rewrite Est; now destruct (search urlPattern 0 line).
  - destruct yt; rewrite Est; now destruct (search urlPattern 0 line).
Qed.

Lemma push_line_regexes (st : locals) (l : jsstring) :
  regexes_of_call st -> regexes_of_call (push_line st l).
Proof. trivial. Qed.

Lemma push_timestamp_regexes (st : locals) (e : TimestampEntry) :
  regexes_of_call st -> regexes_of_call (push_timestamp st e).
Proof. trivial. Qed.

(** The whole loop: the retained lines and the entries are appended in the
    order of the lines. *)
Lemma forEach_spec (yt : bool) (lines : list jsstring) :
  forall st, regexes_of_call st ->
    forEach decode yt lines st =
    Normal (mkLocals (urlRegex st) (timestampRegexInvidious st)
              (timestampRegexYtJs st)
              (filteredLines st
                 ++ map retained (filter (fun l => negb (is_timestamp yt l)) lines))
              (timestampsArray st
                 ++ map (entry_of decode yt) (filter (is_timestamp yt) lines))).
Proof.
  induction lines as [|line lines IH]; intros st Hst; cbn [forEach].
  - cbn [filter map]. rewrite !app_nil_r. now destruct st.
  - rewrite forEach_body_spec by assumption. cbn [bind filter].
    destruct (is_timestamp yt line); cbn [negb map].
    + rewrite IH by now apply push_timestamp_regexes.
      cbn [push_timestamp urlRegex timestampRegexInvidious timestampRegexYtJs
           filteredLines timestampsArray].
      now rewrite <- app_assoc.
    + rewrite IH by now apply push_line_regexes.
      cbn [push_line urlRegex timestampRegexInvidious timestampRegexYtJs
           filteredLines timestampsArray].
      now rewrite <- app_assoc.
Qed.

Lemma initial_regexes : regexes_of_call initial_locals.
Proof. repeat split. Qed.

(** [phaseDescription] returns, and what it returns is [annotate]. *)
Lemma phaseDescription_annotate (content : jsstring) (yt : bool) :
  phaseDescription decode content yt = Normal (annotate decode content yt).
Proof.
  unfold phaseDescription. rewrite forEach_spec by apply initial_regexes.
  reflexivity.
Qed.

End Loop.

(** ** The anchor rewrite *)

Lemma firstn_length_app {A : Type} (l1 l2 : list A) : firstn (length l1) (l1 ++ l2) = l1.
Proof. now rewrite firstn_app, Nat.sub_diag, firstn_all, app_nil_r. Qed.

Lemma skipn_length_app {A : Type} (l1 l2 : list A) : skipn (length l1) (l1 ++ l2) = l2.
Proof. now rewrite skipn_app, Nat.sub_diag, skipn_all. Qed.

(** The template of line 134, expanded. *)
Lemma linkTemplate_expanded (matched str : jsstring) (position : nat) (U : jsstring) :
  GetSubstitution matched str position [VStr U] linkTemplate
  = js "<a href='" ++ U ++ dq :: linkAttributes.
Proof. reflexivity. Qed.

(** The first anchor of a URL line, and the line as rewritten. *)
Lemma modifiedLine_spec (line : jsstring) :
  is_url line = true ->
  exists pre U post,
    line = pre ++ js "<a href='" ++ U ++ dq :: post
    /\ U <> [] /\ all_of (Not dq) U
    /\ (forall pre' suf', line = pre' ++ suf' -> (length pre' < length pre)%nat ->
                          ~ accepts urlPattern suf')
    /\ modifiedLine line =
       pre ++ js "<a href='" ++ U ++ dq :: linkAttributes ++ post.
Proof.
  unfold is_url, urlMatch, modifiedLine, replace. cbn [literal global].
  rewrite exec_not_global by reflexivity. cbn [fst pattern literal].
  destruct (search urlPattern 0 line) as [mr|] eqn:E; [intros _|discriminate].
  apply search_parses in E as (pre & suf & [caps rest] & -> & Hp & -> & Hleft).
  apply url_parse in Hp as (c & U & HU & -> & Hc). cbn [fst snd] in *. subst caps.
  exists pre, (c :: U), rest. repeat split; [discriminate|assumption|assumption|].
  cbn [index elements at_index nth capture_text tl Nat.add].
  rewrite firstn_length_app. f_equal.
  replace (js "<a href='" ++ (c :: U) ++ dq :: rest)
    with ((js "<a href='" ++ (c :: U) ++ [dq]) ++ rest)
    by now rewrite <- !app_assoc.
  rewrite consumed_app.
  replace (pre ++ (js "<a href='" ++ (c :: U) ++ [dq]) ++ rest)
    with ((pre ++ js "<a href='" ++ (c :: U) ++ [dq]) ++ rest)
    by now rewrite <- !app_assoc.
  rewrite <- length_app, skipn_length_app, linkTemplate_expanded.
  rewrite <- !app_assoc. reflexivity.
Qed.

(** ** Lines without a newline *)

Lemma has_In (c : char) (s : jsstring) : has c s = true <-> In c s.
Proof.
  unfold has. rewrite existsb_exists. split.
  - intros (x & Hin & E). apply N.eqb_eq in E. now subst.
  - intros Hin. exists c. split; [assumption|apply N.eqb_refl].
Qed.

Lemma not_has_In (c : char) (s : jsstring) : has c s = false -> ~ In c s.
Proof. intros H Hin. apply has_In in Hin. congruence. Qed.

Lemma retained_no_nl (line : jsstring) : ~ In nl line -> ~ In nl (retained line).
Proof.
  unfold retained. destruct (is_url line) eqn:E; [|trivial].
  destruct (modifiedLine_spec line E) as (pre & U & post & -> & _ & _ & _ & ->).
  intros H Hin. apply H. rewrite !in_app_iff in *. cbn [In] in *.
  rewrite !in_app_iff in *.
  destruct Hin as [Hin|[Hin|[Hin|[Hin|[Hin|Hin]]]]]; auto.
  exfalso. revert Hin. now apply not_has_In.
Qed.

Lemma retained_lines_no_nl (f : jsstring -> bool) (content : jsstring) :
  Forall (fun l => ~ In nl l) (map retained (filter f (split nl content))).
Proof.
  apply Forall_map, Forall_forall. intros l Hl. apply filter_In in Hl as [Hl _].
  apply retained_no_nl. revert l Hl. apply Forall_forall, split_pieces.
Qed.

(** The lines of a description that was joined from lines: those lines, or
    one empty line when there was none. *)
Lemma split_joined (pieces : list jsstring) :
  Forall (fun l => ~ In nl l) pieces ->
  split nl (join [nl] pieces) = match pieces with [] => [[]] | _ => pieces end.
Proof.
  intros H. destruct pieces as [|p rest]; [reflexivity|].
  apply split_join; [discriminate|assumption].
Qed.

(** A line that is no timestamp line is a line of the description, as
    retained. *)
Lemma retained_in_description (decode : jsstring -> jsstring) (content : jsstring)
    (yt : bool) (line : jsstring) :
  In line (split nl content) -> is_timestamp yt line = false ->
  In (retained line) (split nl (description (annotate decode content yt))).
Proof.
  intros Hin Hts. cbn [annotate description].
  rewrite split_joined by apply retained_lines_no_nl.
  assert (In (retained line)
            (map retained
               (filter (fun l => negb (is_timestamp yt l)) (split nl content)))) as H.
  { apply in_map, filter_In. split; [assumption|now rewrite Hts]. }
  destruct (map retained _); [contradiction|assumption].
Qed.

(** ** The claims on the lines *)

(** C1: for every input and either mode, [phaseDescription] returns the
    entries of the timestamp lines, one entry per such line and in the order
    of the lines, and as description the other lines joined with a newline:
    a URL line in its rewritten form, any other line as it is. *)
Theorem phaseDescription_lines_in_order :
  forall (decode : jsstring -> jsstring) (content : jsstring) (yt : bool),
    let lines := split nl content in
    exists pd,
      phaseDescription decode content yt = Normal pd
      /\ timestamps pd = map (entry_of decode yt) (filter (is_timestamp yt) lines)
      /\ length (timestamps pd) = length (filter (is_timestamp yt) lines)
      /\ description pd =
         join [nl]
           (map (fun l => if is_url l then modifiedLine l else l)
              (filter (fun l => negb (is_timestamp yt l)) lines)).
Proof.
  intros decode content yt lines. exists (annotate decode content yt).
  split; [apply phaseDescription_annotate|]. cbn [annotate timestamps description].
  split; [reflexivity|]. split; [apply length_map|reflexivity].
Qed.

(** C7: for every input and either mode [phaseDescription] returns a
    [PhasedDescription] and throws nothing; every line that is no timestamp
    line stays in the description, rewritten when it is a URL line (whatever
    its address) and as it is otherwise. *)
Theorem phaseDescription_total :
  forall (decode : jsstring -> jsstring) (content : jsstring) (yt : bool),
    exists pd,
      phaseDescription decode content yt = Normal pd
      /\ forall line, In line (split nl content) -> is_timestamp yt line = false ->
           In (retained line) (split nl (description pd))
           /\ (is_url line = false -> retained line = line).
Proof.
  intros decode content yt. exists (annotate decode content yt).
  split; [apply phaseDescription_annotate|]. intros line Hin Hts.
  split; [now apply retained_in_description|unfold retained; now intros ->].
Qed.

(** C5: a line that [urlRegex] matches and the timestamp pattern does not is
    kept with the attributes [target], [rel] and [class] put after the address
    of its first anchor; the address and the rest of the line are as they
    were. *)
Theorem anchor_line_rewritten :
  forall (decode : jsstring -> jsstring) (content : jsstring) (yt : bool)
         (line : jsstring),
    In line (split nl content) ->
    is_url line = true -> is_timestamp yt line = false ->
    exists pre U post pd,
      line = pre ++ js "<a href='" ++ U ++ dq :: post
      /\ U <> [] /\ all_of (Not dq) U
      /\ phaseDescription decode content yt = Normal pd
      /\ In (pre ++ js "<a href='" ++ U
               ++ js "' target='_blank' rel='noopener noreferrer' class='link'"
               ++ post)
            (split nl (description pd)).
Proof.
  intros decode content yt line Hin Hurl Hts.
  destruct (modifiedLine_spec line Hurl) as (pre & U & post & E & HU & HU' & _ & Hm).
  exists pre, U, post, (annotate decode content yt).
  repeat split; try assumption; [apply phaseDescription_annotate|].
  pose proof (retained_in_description decode content yt line Hin Hts) as H.
  unfold retained in H. now rewrite Hurl, Hm in H.
Qed.

(** C6, as it holds: there are as many timestamps as timestamp lines, and the
    description splits into as many lines as the input has lines that are no
    timestamp lines, or into one empty line when every line of the input is a
    timestamp line. *)
Theorem description_line_count :
  forall (decode : jsstring -> jsstring) (content : jsstring) (yt : bool),
    exists pd,
      phaseDescription decode content yt = Normal pd
      /\ length (timestamps pd)
         = length (filter (is_timestamp yt) (split nl content))
      /\ length (split nl (description pd))
         = Nat.max 1 (length (split nl content) - length (timestamps pd)).
Proof.
  intros decode content yt. exists (annotate decode content yt).
  split; [apply phaseDescription_annotate|]. cbn [annotate description timestamps].
  rewrite length_map. split; [reflexivity|].
  rewrite split_joined by apply retained_lines_no_nl.
  pose proof (filter_length (is_timestamp yt) (split nl content)) as H.
  assert (length (map retained
                    (filter (fun l => negb (is_timestamp yt l)) (split nl content)))
          = (length (split nl content)
             - length (filter (is_timestamp yt) (split nl content)))%nat) as <-
      by (rewrite length_map; lia).
  destruct (map retained _) as [|p rest]; [reflexivity|]. cbn [length]. lia.
Qed.

(** ** Inputs without anchors *)

Lemma is_url_anchor (line : jsstring) : is_url line = true <-> contains_anchor line.
Proof.
  unfold is_url, urlMatch. split.
  - destruct (search urlPattern 0 line) as [mr|] eqn:E; [intros _|discriminate].
    apply search_parses in E as (pre & suf & st' & -> & Hp & _).
    apply url_parse in Hp as (c & U & HU & -> & _).
    exists pre, (c :: U), (snd st'). repeat split; [discriminate|assumption].
  - intros (pre & U & post & -> & Hne & HU).
    destruct U as [|c U]; [congruence|].
    assert (search urlPattern 0 (pre ++ js "<a href='" ++ (c :: U) ++ dq :: post)
            <> None) as H.
    { apply search_found. exists pre, (js "<a href='" ++ (c :: U) ++ dq :: post).
      split; [reflexivity|]. exists ([VStr (c :: U)], post).
      apply url_parse. exists c, U. auto. }
    now destruct (search urlPattern 0 _).
Qed.

(** The first line of a text is its beginning, and every line a part of it. *)
Lemma split_head (sep : char) (s : jsstring) :
  exists p rest b, split sep s = p :: rest /\ s = p ++ b.
Proof.
  induction s as [|c s (p & rest & b & E & Es)]; simpl.
  - now exists [], [], [].
  - destruct (c =? sep).
    + now exists [], (split sep s), (c :: s).
    + rewrite E. exists (c :: p), rest, b. simpl. now rewrite <- Es.
Qed.

Lemma line_infix (sep : char) (s line : jsstring) :
  In line (split sep s) -> exists a b, s = a ++ line ++ b.
Proof.
  revert line. induction s as [|c s IH]; intros line; simpl.
  - intros [<-|[]]. now exists [], [].
  - destruct (c =? sep).
    + intros [<-|Hin].
      * now exists [], (c :: s).
      * destruct (IH _ Hin) as (a & b & ->). now exists (c :: a), b.
    + destruct (split_head sep s) as (p & rest & b & E & Es). rewrite E in *.
      intros [<-|Hin].
      * exists [], b. simpl. now rewrite <- Es.
      * destruct (IH _ (or_intror Hin)) as (a & b' & ->). now exists (c :: a), b'.
Qed.

Lemma anchor_in_line (content line : jsstring) :
  In line (split nl content) -> contains_anchor line -> contains_anchor content.
Proof.
  intros Hin (pre & U & post & -> & HU). apply line_infix in Hin as (a & b & ->).
  exists (a ++ pre), U, (post ++ b). split; [|exact HU].
  rewrite <- !app_assoc. cbn [app]. now rewrite <- ?app_assoc.
Qed.

(** The legacy pattern starts as [urlRegex] does: what it accepts, [urlRegex]
    accepts. *)
Lemma invidious_accepts_url (suf : jsstring) :
  accepts invidiousPattern suf -> accepts urlPattern suf.
Proof.
  intros [st' Hp]. apply invidious_parse in Hp
    as (U & T & P & W & TITLE & -> & _ & HU & HU' & _).
  destruct U as [|c U]; [congruence|].
  eexists ([VStr (c :: U)], _). apply url_parse. exists c, U.
  split; [assumption|]. split; reflexivity.
Qed.

Lemma is_some_false {A : Type} (o : option A) : is_some o = false <-> o = None.
Proof. destruct o; simpl; split; congruence. Qed.

Lemma invidious_is_url (line : jsstring) :
  is_url line = false -> is_timestamp false line = false.
Proof.
  unfold is_url, is_timestamp, urlMatch, timestampMatch.
  rewrite !is_some_false, !search_None. intros H pre suf E.
  specialize (H pre suf E).
  destruct (m invidiousPattern Some ([], suf)) eqn:Em; [exfalso|reflexivity].
  assert (accepts invidiousPattern suf) as Ha by (apply m_accepts; congruence).
  apply invidious_accepts_url, m_accepts in Ha. contradiction.
Qed.

(** Lines that are neither timestamp lines nor URL lines come back as they
    are. *)
Lemma annotate_plain (decode : jsstring -> jsstring) (content : jsstring)
    (yt : bool) :
  (forall line, In line (split nl content) ->
                is_timestamp yt line = false /\ is_url line = false) ->
  annotate decode content yt = mkPhased content [].
Proof.
  intros H. unfold annotate.
  assert (forall lines, (forall line, In line lines ->
                           is_timestamp yt line = false /\ is_url line = false) ->
            filter (is_timestamp yt) lines = []
            /\ map retained (filter (fun l => negb (is_timestamp yt l)) lines)
               = lines) as Hl.
  { induction lines as [|l lines IH]; intros Hall; [now split|].
    destruct (Hall l (or_introl eq_refl)) as [Ht Hu].
    destruct IH as [IH1 IH2]; [intros; apply Hall; now right|].
    cbn [filter]. rewrite Ht. cbn [negb map]. rewrite IH1, IH2.
    unfold retained. now rewrite Hu. }
  destruct (Hl _ H) as [-> ->]. cbn [map]. now rewrite join_split.
Qed.

(** C3, as it holds: an input with no anchor tag comes back unchanged, with
    no timestamps, in the legacy mode; and in the alternate mode when,
    besides, no line of it matches the alternate timestamp pattern (which
    asks for no anchor tag). *)
Theorem phaseDescription_no_anchor :
  forall (decode : jsstring -> jsstring) (content : jsstring) (yt : bool),
    ~ contains_anchor content ->
    (yt = true ->
     forall line, In line (split nl content) -> is_timestamp true line = false) ->
    phaseDescription decode content yt = Normal (mkPhased content []).
Proof.
  intros decode content yt Hno Hyt. rewrite phaseDescription_annotate. f_equal.
  apply annotate_plain. intros line Hin.
  assert (is_url line = false) as Hu.
  { destruct (is_url line) eqn:E; [exfalso|reflexivity].
    apply Hno, (anchor_in_line content line Hin). now apply is_url_anchor. }
  split; [|assumption].
  destruct yt; [now apply Hyt|now apply invidious_is_url].
Qed.

Lemma phaseDescription_no_anchor_witness :
  phaseDescription no_decoding sample_plain true = Normal (mkPhased sample_plain []).
Proof.
  apply phaseDescription_no_anchor.
  - intros H. apply is_url_anchor in H. vm_compute in H. discriminate.
  - intros _ line [<-|[<-|[]]]; vm_compute; reflexivity.
Defined.

(** C3 fails in the alternate mode: a line with no anchor tag that the
    alternate timestamp pattern matches becomes a timestamp and leaves the
    description. *)
Lemma alternate_timestamp_without_anchor :
  exists content,
    ~ contains_anchor content
    /\ forall decode, exists pd,
         phaseDescription decode content true = Normal pd
         /\ description pd <> content /\ length (timestamps pd) = 1%nat.
Proof.
  exists sample_alternate. split.
  - intros H. apply is_url_anchor in H. vm_compute in H. discriminate.
  - intros decode. exists (annotate decode sample_alternate true).
    split; [apply phaseDescription_annotate|]. split; [|reflexivity].
    vm_compute. discriminate.
Qed.

(** C6 fails when every line is a timestamp line: the empty description
    still splits into one line. *)
Lemma line_count_of_empty_description :
  exists content yt,
    forall decode, exists pd,
      phaseDescription decode content yt = Normal pd
      /\ length (split nl (description pd)) = 1%nat
      /\ (length (split nl content) - length (timestamps pd) = 0)%nat.
Proof.
  exists sample_legacy, false. intros decode.
  exists (annotate decode sample_legacy false).
  split; [apply phaseDescription_annotate|]. split; reflexivity.
Qed.

Lemma anchor_line_rewritten_witness :
  exists pre U post pd,
    sample_anchor = pre ++ js "<a href='" ++ U ++ dq :: post
    /\ U <> [] /\ all_of (Not dq) U
    /\ phaseDescription no_decoding sample_anchor false = Normal pd
    /\ In (pre ++ js "<a href='" ++ U
             ++ js "' target='_blank' rel='noopener noreferrer' class='link'"
             ++ post)
          (split nl (description pd)).
Proof.
  apply (anchor_line_rewritten no_decoding sample_anchor false sample_anchor).
  - left. reflexivity.
  - reflexivity.
  - reflexivity.
Defined.

(** ** A second pass *)

Lemma modifiedLine_is_url (line : jsstring) :
  is_url line = true -> is_url (modifiedLine line) = true.
Proof.
  intros H. destruct (modifiedLine_spec line H) as (pre & U & post & _ & HU & HU' & _ & ->).
  apply is_url_anchor. exists pre, U, (linkAttributes ++ post). auto.
Qed.

(** C2 fails on a URL line: the second pass puts the attributes into the
    anchor once more. *)
Lemma phaseDescription_not_idempotent :
  exists content yt,
    forall decode, exists pd pd',
      phaseDescription decode content yt = Normal pd
      /\ phaseDescription decode (description pd) yt = Normal pd'
      /\ description pd' <> description pd.
Proof.
  exists sample_anchor, false. intros decode.
  exists (annotate decode sample_anchor false),
    (annotate decode (description (annotate decode sample_anchor false)) false).
  split; [apply phaseDescription_annotate|].
  split; [apply phaseDescription_annotate|]. vm_compute. discriminate.
Qed.

(** ** Numbers and [parseInt] *)

Lemma isDigit_range (c : char) : isDigit c = true <-> 48 <= c <= 57.
Proof.
  unfold isDigit. rewrite andb_true_iff, !N.leb_le. tauto.
Qed.

Lemma digit_not_space (c : char) : isDigit c = true -> isWhiteSpace c = false.
Proof.
  rewrite isDigit_range. intros H. unfold isWhiteSpace, isLineTerminator.
  repeat match goal with
         | |- context [c =? ?b] => destruct (N.eqb_spec c b); [lia|]
         end.
  destruct (N.leb_spec 8192 c); [lia|reflexivity].
Qed.

Lemma digit_of_decimal (c : char) :
  isDigit c = true -> digit_of 10 c = Some (c - 48).
Proof.
  intros H. unfold digit_of. rewrite H. apply isDigit_range in H.
  destruct (N.ltb_spec (c - 48) 10); [reflexivity|lia].
Qed.

Lemma takeWhile_all (p : char -> bool) (s : jsstring) :
  forallb p s = true -> takeWhile p s = s.
Proof.
  induction s as [|c s IH]; simpl; [reflexivity|].
  intros H. apply andb_true_iff in H as [-> H]. now rewrite IH.
Qed.

(** [parseInt] on a run of digits: the Number for the integer it writes. *)
Lemma parseInt_digits (D : jsstring) :
  D <> [] -> all_of Digit D -> parseInt D = of_integer false (decimal D).
Proof.
  destruct D as [|c D]; [congruence|]. intros _ H.
  unfold all_of in H. cbn [forallb cmatch] in H.
  apply andb_true_iff in H as [Hc HD].
  unfold parseInt. cbn [dropWhile]. rewrite (digit_not_space c Hc).
  pose proof (proj1 (isDigit_range c) Hc) as Rc.
  destruct (N.eqb_spec c 45); [lia|]. destruct (N.eqb_spec c 43); [lia|].
  cbn [orb].
  assert ((match c :: D with
           | c0 :: x :: _ => (c0 =? 48) && ((x =? 120) || (x =? 88))
           | _ => false
           end) = false) as ->.
  { destruct D as [|x D]; [reflexivity|]. cbn [forallb] in HD.
    apply andb_true_iff in HD as [Hx _]. apply isDigit_range in Hx.
    destruct (N.eqb_spec x 120); [lia|]. destruct (N.eqb_spec x 88); [lia|].
    apply andb_false_r. }
  rewrite takeWhile_all.
  - reflexivity.
  - cbn [forallb]. unfold is_digit_of. rewrite (digit_of_decimal c Hc). cbn [andb].
    clear - HD. induction D as [|x D IH]; [reflexivity|].
    cbn [forallb] in *. apply andb_true_iff in HD as [Hx HD].
    rewrite (digit_of_decimal x Hx). now apply IH.
Qed.

Lemma size_small (n : N) : n < 2 ^ 53 -> N.size n <= 53.
Proof.
  intros H. apply N.lt_succ_r. apply (N.pow_lt_mono_r_iff 2); [lia|].
  pose proof (N.size_le n) as L. rewrite N.succ_double_spec in L.
  change (N.succ 53) with 54. change (2 ^ 54) with (2 * 2 ^ 53). lia.
Qed.

(** Below 2^53 every integer is a Number. *)
Lemma of_integer_small (neg : bool) (n : N) :
  n < 2 ^ 53 -> of_integer neg n = Int neg n.
Proof.
  intros H. pose proof (size_small n H) as S. unfold of_integer, round53.
  destruct (N.leb_spec (N.size n) 53); [|lia].
  destruct (N.ltb_spec 1024 (N.size n)); [lia|reflexivity].
Qed.

Lemma mul_small (a b : N) :
  a * b < 2 ^ 53 -> (Int false a * Int false b)%number = Int false (a * b).
Proof. intros H. cbn [mul xorb]. now apply of_integer_small. Qed.

Lemma add_small (a b : N) :
  a + b < 2 ^ 53 -> (Int false a + Int false b)%number = Int false (a + b).
Proof.
  intros H. cbn [add signed andb]. rewrite <- N2Z.inj_add.
  destruct (a + b) as [|p] eqn:E; [reflexivity|].
  cbn [Z.of_N of_Z]. now apply of_integer_small.
Qed.

Lemma digits_no_colon (D : jsstring) : all_of Digit D -> ~ In colon D.
Proof.
  unfold all_of. rewrite forallb_forall. intros H Hin. apply H in Hin.
  discriminate.
Qed.

(** [convertToSeconds] on a run of digits, as [phaseDescription] calls it. *)
Lemma convertToSeconds_digits (T : jsstring) :
  T <> [] -> all_of Digit T ->
  convertToSeconds T = of_integer false (decimal T).
Proof.
  intros Hne HT. unfold convertToSeconds.
  rewrite split_one by now apply digits_no_colon.
  cbn [map length Nat.eqb nth]. now apply parseInt_digits.
Qed.

Lemma split_three (h m s : jsstring) :
  ~ In colon h -> ~ In colon m -> ~ In colon s ->
  split colon (h ++ js ":" ++ m ++ js ":" ++ s) = [h; m; s].
Proof.
  intros Hh Hm Hs. change (js ":") with [colon]. cbn [app].
  now rewrite !split_app, split_one.
Qed.

Lemma split_two (m s : jsstring) :
  ~ In colon m -> ~ In colon s -> split colon (m ++ js ":" ++ s) = [m; s].
Proof.
  intros Hm Hs. change (js ":") with [colon]. cbn [app].
  now rewrite !split_app, split_one.
Qed.

(** C4: [convertToSeconds] splits on the colon and reads each part with
    [parseInt]; three parts give first*3600 + second*60 + third, two parts
    first*60 + second, one part its value (more parts give 0).  On parts that
    are runs of digits the result is that integer of seconds, as long as it
    is below 2^53.  In particular 1:05:30 gives 3930, 2:30 gives 150 and 45
    gives 45. *)
Theorem convertToSeconds_parts :
  (forall time,
     convertToSeconds time =
     match map parseInt (split colon time) with
     | [h; m; s] => (h * lit 3600 + m * lit 60 + s)%number
     | [m; s] => (m * lit 60 + s)%number
     | [s] => s
     | _ => lit 0
     end)
  /\ (forall h m s, digits h -> digits m -> digits s ->
        decimal h * 3600 + decimal m * 60 + decimal s < 2 ^ 53 ->
        convertToSeconds (h ++ js ":" ++ m ++ js ":" ++ s)
        = Int false (decimal h * 3600 + decimal m * 60 + decimal s))
  /\ (forall m s, digits m -> digits s ->
        decimal m * 60 + decimal s < 2 ^ 53 ->
        convertToSeconds (m ++ js ":" ++ s)
        = Int false (decimal m * 60 + decimal s))
  /\ (forall s, digits s -> decimal s < 2 ^ 53 ->
        convertToSeconds s = Int false (decimal s))
  /\ convertToSeconds (js "1:05:30") = Int false 3930
  /\ convertToSeconds (js "2:30") = Int false 150
  /\ convertToSeconds (js "45") = Int false 45.
Proof.
  split; [|split; [|split; [|split; [|repeat split]]]].
  - intros time. unfold convertToSeconds.
    destruct (map _ (split colon time)) as [|a [|b [|c [|d l]]]]; reflexivity.
  - intros h m s [Hh Hh'] [Hm Hm'] [Hs Hs'] Hlt. unfold convertToSeconds.
    rewrite split_three by now apply digits_no_colon.
    cbn [map length Nat.eqb nth]. rewrite !parseInt_digits by assumption.
    rewrite !of_integer_small by lia. unfold lit.
    rewrite !mul_small by lia. now rewrite !add_small by lia.
  - intros m s [Hm Hm'] [Hs Hs'] Hlt. unfold convertToSeconds.
    rewrite split_two by now apply digits_no_colon.
    cbn [map length Nat.eqb nth]. rewrite !parseInt_digits by assumption.
    rewrite !of_integer_small by lia. unfold lit.
    rewrite !mul_small by lia. now rewrite !add_small by lia.
  - intros s [Hs Hs'] Hlt. rewrite convertToSeconds_digits by assumption.
    now apply of_integer_small.
Qed.

(** ** The time of an entry *)

Lemma entry_in_timestamps (decode : jsstring -> jsstring) (content : jsstring)
    (yt : bool) (e : TimestampEntry) :
  In e (timestamps (annotate decode content yt)) ->
  exists line tm,
    In line (split nl content) /\ timestampMatch yt line = Some tm
    /\ e = entry_of_match decode yt tm.
Proof.
  cbn [annotate timestamps]. intros H.
  apply in_map_iff in H as (line & <- & H). apply filter_In in H as [Hin Hts].
  unfold is_timestamp in Hts. unfold entry_of.
  destruct (timestampMatch yt line) as [tm|] eqn:E; [|discriminate].
  now exists line, tm.
Qed.

(** C10 fails on seconds too long for a Number: 309 nines give +Infinity. *)
Lemma timestamp_time_infinite :
  exists content yt,
    forall decode, exists pd e,
      phaseDescription decode content yt = Normal pd
      /\ In e (timestamps pd) /\ time e = Infinity false.
Proof.
  exists sample_long_time, false. intros decode.
  exists (annotate decode sample_long_time false),
    (entry_of decode false sample_long_time).
  split; [apply phaseDescription_annotate|].
  split; [left; reflexivity|]. vm_compute. reflexivity.
Qed.

(** ** The title of an entry *)


(** The run between [<] and the first [>] is one run only. *)
Lemma run_unique (cl : cclass) (stop : char) (x y r1 r2 : jsstring) :
  cmatch cl stop = false -> all_of cl x -> all_of cl y ->
  x ++ stop :: r1 = y ++ stop :: r2 -> x = y /\ r1 = r2.
Proof.
  intros Hs. revert y. induction x as [|a x IH]; intros [|b y] Hx Hy E;
    cbn [app] in E.
  - injection E as ->. auto.
  - injection E as <- _. unfold all_of in Hy. cbn [forallb] in Hy.
    rewrite Hs in Hy. discriminate.
  - injection E as -> _. unfold all_of in Hx. cbn [forallb] in Hx.
    rewrite Hs in Hx. discriminate.
  - injection E as -> E. unfold all_of in *. cbn [forallb] in *.
    apply andb_true_iff in Hx as [_ Hx]. apply andb_true_iff in Hy as [_ Hy].
    destruct (IH y Hx Hy E) as [-> ->]. auto.
Qed.


















Lemma filter_split {A : Type} (f : A -> bool) (l : list A) (pre' post' : list A)
    (a : A) :
  filter f l = pre' ++ a :: post' ->
  exists pre post, l = pre ++ a :: post /\ filter f post = post'.
Proof.
  revert pre'. induction l as [|b l IH]; intros pre' E; cbn [filter] in E.
  - destruct pre'; discriminate.
  - destruct (f b) eqn:Hb.
    + destruct pre' as [|p pre']; injection E as <- E.
      * now exists [], l.
      * destruct (IH _ E) as (pre & post & -> & Hf). now exists (b :: pre), post.
    + destruct (IH _ E) as (pre & post & -> & Hf). now exists (b :: pre), post.
Qed.












(** ** Where the integers stop being finite Numbers *)

Lemma size_lt_pow (v k : N) : v < 2 ^ k -> N.size v <= k.
Proof.
  intros H. destruct (N.eq_dec v 0) as [->|Hv]; [simpl; lia|].
  rewrite N.size_log2 by assumption. apply N.le_succ_l.
  apply N.log2_lt_pow2; lia.
Qed.

Lemma size_ge_pow (v k : N) : 2 ^ k <= v -> k < N.size v.
Proof.
  intros H. assert (0 < 2 ^ k) by (apply N.neq_0_lt_0, N.pow_nonzero; lia).
  rewrite N.size_log2 by lia. apply N.lt_succ_r. apply N.log2_le_pow2; lia.
Qed.

Lemma size_bounds (n : N) :
  n <> 0 -> 2 ^ (N.size n - 1) <= n < 2 ^ N.size n.
Proof.
  intros H. rewrite N.size_log2 by assumption.
  replace (N.succ (N.log2 n) - 1) with (N.log2 n) by lia.
  apply N.log2_spec. lia.
Qed.

(** Rounding a number of more than 53 bits: quotient and remainder by the
    weight of the last bit kept, and the quotient one up when the remainder
    is over the half, or at the half with an odd quotient. *)
Lemma round53_large (n : N) :
  53 < N.size n ->
  exists half q r,
    2 ^ (N.size n - 53) = 2 * half /\ half <> 0
    /\ n = q * (2 * half) + r /\ r < 2 * half
    /\ 2 ^ 52 <= q < 2 ^ 53
    /\ round53 n
       = (if (half <? r) || ((r =? half) && N.odd q) then q + 1 else q) * (2 * half).
Proof.
  intros Hb. unfold round53. destruct (N.leb_spec (N.size n) 53); [lia|].
  set (sh := N.size n - 53).
  assert (n <> 0) as Hn by (intros ->; simpl in Hb; lia).
  destruct (size_bounds n Hn) as [Hlo Hhi].
  assert (2 ^ sh = 2 * 2 ^ (sh - 1)) as EP.
  { rewrite <- N.pow_succ_r'. f_equal. unfold sh. lia. }
  assert (2 ^ (sh - 1) <> 0) as Hh by (apply N.pow_nonzero; lia).
  exists (2 ^ (sh - 1)), (n / 2 ^ sh), (n mod 2 ^ sh).
  rewrite N.shiftr_div_pow2, N.land_ones, !N.shiftl_mul_pow2, N.mul_1_l, <- EP.
  assert (2 ^ sh <> 0) as HP by (apply N.pow_nonzero; lia).
  split; [reflexivity|]. split; [assumption|].
  split; [rewrite N.mul_comm; apply N.div_mod; assumption|].
  split; [now apply N.mod_lt|].
  replace (N.size n - 1) with (52 + sh) in Hlo by (unfold sh; lia).
  assert (N.size n = 53 + sh) as Eb by (unfold sh; lia).
  rewrite Eb in Hhi. rewrite N.pow_add_r in Hlo, Hhi.
  split; [|reflexivity]. split.
  - apply N.div_le_lower_bound; [assumption|]. now rewrite N.mul_comm.
  - apply N.Div0.div_lt_upper_bound. now rewrite N.mul_comm.
Qed.

(** The Number for a natural number is finite exactly below 2^1024 - 2^970. *)
Lemma of_integer_finite (n : N) :
  n < 2 ^ 1024 - 2 ^ 970 -> exists v, of_integer false n = Int false v.
Proof.
  intros H. unfold of_integer.
  destruct (N.ltb_spec 1024 (N.size (round53 n))) as [Hs|Hs]; [exfalso|eauto].
  assert (round53 n < 2 ^ 1024) as Hv; [|apply size_lt_pow in Hv; lia].
  clear Hs. destruct (N.le_gt_cases (N.size n) 53) as [Hb|Hb].
  - unfold round53. destruct (N.leb_spec (N.size n) 53); lia.
  - destruct (round53_large n Hb) as (half & q & r & EP & Hh & En & Hr & Hq & ->).
    assert (N.size n <= 1024) as Hb'.
    { apply size_lt_pow. lia. }
    destruct (N.eq_dec (N.size n) 1024) as [E|E].
    + rewrite E in EP. change (1024 - 53) with 971 in EP.
      assert (half = 2 ^ 970) as -> by lia.
      destruct (N.ltb_spec (2 ^ 970) r); cbn [orb].
      * lia.
      * destruct (N.eqb_spec r (2 ^ 970)); cbn [andb]; [destruct (N.odd q)|]; lia.
    + assert (2 ^ (N.size n - 53) * 2 ^ 53 <= 2 ^ 1023) as Hp.
      { rewrite <- N.pow_add_r. apply N.pow_le_mono_r; lia. }
      destruct ((half <? r) || ((r =? half) && N.odd q)); nia.
Qed.

Lemma of_integer_infinite (n : N) :
  2 ^ 1024 - 2 ^ 970 <= n -> of_integer false n = Infinity false.
Proof.
  intros H. unfold of_integer.
  destruct (N.ltb_spec 1024 (N.size (round53 n))) as [Hs|Hs]; [reflexivity|exfalso].
  assert (2 ^ 1024 <= round53 n) as Hv; [|apply size_ge_pow in Hv; lia].
  clear Hs.
  assert (1023 < N.size n) as Hb by (apply size_ge_pow; lia).
  destruct (round53_large n) as (half & q & r & EP & Hh & En & Hr & Hq & ->); [lia|].
  destruct (N.eq_dec (N.size n) 1024) as [E|E].
  - rewrite E in EP. change (1024 - 53) with 971 in EP.
    assert (half = 2 ^ 970) as -> by lia.
    assert (n < 2 ^ 1024) as Hn.
    { assert (n <> 0) as Hn0 by lia. destruct (size_bounds n Hn0) as [_ Hhi].
      now rewrite E in Hhi. }
    assert (q = 2 ^ 53 - 1) as -> by lia.
    destruct (N.ltb_spec (2 ^ 970) r); cbn [orb]; [lia|].
    destruct (N.eqb_spec r (2 ^ 970)); cbn [andb]; [|lia].
    change (N.odd (2 ^ 53 - 1)) with true. cbv iota. lia.
  - assert (2 ^ 1024 <= 2 ^ 52 * 2 ^ (N.size n - 53)) as Hp.
    { rewrite <- N.pow_add_r. apply N.pow_le_mono_r; lia. }
    destruct ((half <? r) || ((r =? half) && N.odd q)); nia.
Qed.

(** C10, as it holds: the time of every entry is the Number for the integer
    that the digits of the match write: the entry comes from a line of the
    content that the timestamp pattern of the mode matches, the group of the
    seconds of that match (the first in alternate mode, the second in legacy
    mode) is a non-empty text of digits, and the time is the Number for the
    integer it writes.  It is never [NaN] and never negative; it is that very
    integer when it is below 2^53, a finite integer-valued Number when it is
    below 2^1024 - 2^970, and +Infinity from there on. *)
Theorem timestamp_time_number :
  forall (decode : jsstring -> jsstring) (content : jsstring) (yt : bool)
         (pd : PhasedDescription) (e : TimestampEntry),
    phaseDescription decode content yt = Normal pd ->
    In e (timestamps pd) ->
    exists line tm T,
      In line (split nl content) /\ timestampMatch yt line = Some tm
      /\ e = entry_of decode yt line
      /\ at_index tm (if yt then 1 else 2)%nat = VStr T
      /\ digits T
      /\ time e = of_integer false (decimal T)
      /\ time e <> NaN
      /\ (forall v, time e <> Int true v) /\ time e <> Infinity true
      /\ (decimal T < 2 ^ 53 -> time e = Int false (decimal T))
      /\ (decimal T < 2 ^ 1024 - 2 ^ 970 -> exists v, time e = Int false v)
      /\ (2 ^ 1024 - 2 ^ 970 <= decimal T -> time e = Infinity false).
Proof.
  intros decode content yt pd e Hpd Hin.
  rewrite phaseDescription_annotate in Hpd. injection Hpd as <-.
  cbn [annotate timestamps] in Hin.
  apply in_map_iff in Hin as (line & <- & Hin).
  apply filter_In in Hin as [Hline Hts].
  unfold is_timestamp in Hts. unfold entry_of.
  destruct (timestampMatch yt line) as [tm|] eqn:Htm; [|discriminate].
  destruct (timestamp_time _ _ _ Htm) as (T & ET & Hne & HT).
  exists line, tm, T. cbn [entry_of_match time]. rewrite ET. cbn [capture_text].
  rewrite convertToSeconds_digits by assumption.
  split; [assumption|]. split; [assumption|].
  split; [unfold entry_of; now rewrite Htm|].
  split; [reflexivity|]. split; [now split|]. split; [reflexivity|].
  assert (of_integer false (decimal T) = Infinity false
          \/ exists v, of_integer false (decimal T) = Int false v) as Hcases.
  { destruct (N.lt_ge_cases (decimal T) (2 ^ 1024 - 2 ^ 970)) as [H|H].
    - right. now apply of_integer_finite.
    - left. now apply of_integer_infinite. }
  split; [destruct Hcases as [->|[v ->]]; discriminate|].
  split; [intros v; destruct Hcases as [->|[v' ->]]; discriminate|].
  split; [destruct Hcases as [->|[v ->]]; discriminate|].
  split; [apply of_integer_small|].
  split; [apply of_integer_finite|apply of_integer_infinite].
Qed.

Lemma timestamp_time_number_witness :
  exists line tm T,
    In line (split nl sample_legacy) /\ timestampMatch false line = Some tm
    /\ entry_of no_decoding false sample_legacy = entry_of no_decoding false line
    /\ at_index tm 2%nat = VStr T
    /\ digits T
    /\ time (entry_of no_decoding false sample_legacy) = of_integer false (decimal T)
    /\ time (entry_of no_decoding false sample_legacy) <> NaN
    /\ (forall v, time (entry_of no_decoding false sample_legacy) <> Int true v)
    /\ time (entry_of no_decoding false sample_legacy) <> Infinity true
    /\ (decimal T < 2 ^ 53 ->
        time (entry_of no_decoding false sample_legacy) = Int false (decimal T))
    /\ (decimal T < 2 ^ 1024 - 2 ^ 970 ->
        exists v, time (entry_of no_decoding false sample_legacy) = Int false v)
    /\ (2 ^ 1024 - 2 ^ 970 <= decimal T ->
        time (entry_of no_decoding false sample_legacy) = Infinity false).
Proof.
  apply (timestamp_time_number no_decoding sample_legacy false
           (annotate no_decoding sample_legacy false)).
  - apply phaseDescription_annotate.
  - left. reflexivity.
Defined.

(** ** A second pass over a rewritten line *)

Lemma parses_Opt_some (r0 r : regex) (caps : list value) (w rest : jsstring)
    (st' : mstate) :
  ngroups r0 = 0%nat -> w <> [] ->
  parses r0 (caps, w ++ rest) (caps, rest) -> parses r (caps, rest) st' ->
  parses (Cat (Opt r0) r) (caps, w ++ rest) st'.
Proof.
  intros Hn Hw H0 H. exists (caps, rest). split; [|exact H].
  apply parses_Opt; [assumption|]. left. split; [assumption|].
  cbn [snd]. rewrite length_app. destruct w; [congruence|]. cbn [length]. lia.
Qed.

Lemma parses_Opt_none (r0 r : regex) (caps : list value) (inp : jsstring)
    (st' : mstate) :
  ngroups r0 = 0%nat -> parses r (caps, inp) st' ->
  parses (Cat (Opt r0) r) (caps, inp) st'.
Proof.
  intros Hn H. exists (caps, inp). split; [|exact H].
  apply parses_Opt; [assumption|]. now right.
Qed.

Lemma parses_Grp_Star_intro (g : bool) (cl : cclass) (r : regex)
    (caps : list value) (w rest : jsstring) (st' : mstate) :
  all_of cl w -> parses r (caps ++ [VStr w], rest) st' ->
  parses (Cat (Grp (Star g cl)) r) (caps, w ++ rest) st'.
Proof.
  intros Hw H. apply parses_Grp_intro; [reflexivity| |assumption].
  now apply parses_Star_last.
Qed.

Lemma parses_Grp_Plus_intro (cl : cclass) (r : regex)
    (caps : list value) (w rest : jsstring) (st' : mstate) :
  w <> [] -> all_of cl w -> parses r (caps ++ [VStr w], rest) st' ->
  parses (Cat (Grp (Plus cl)) r) (caps, w ++ rest) st'.
Proof.
  intros Hne Hw H. apply parses_Grp_intro; [reflexivity| |assumption].
  now apply parses_Plus_last.
Qed.

(** The alternate pattern accepts exactly the texts of its shape. *)
Lemma ytjs_accepts (suf : jsstring) :
  accepts ytJsPattern suf <-> exists rest, ytjs_shape suf rest.
Proof.
  split.
  - intros [st' Hp]. apply ytjs_parse in Hp
      as (O & T & W & X1 & X2 & L & X3 & TITLE & E & _ & H).
    exists (snd st'), O, T, W, X1, X2, L, X3, TITLE. auto.
  - intros (rest & O & T & W & X1 & X2 & L & X3 & TITLE & -> & HO & HT & HT'
            & HW & HX1 & HX2 & HL & HX3 & HTi).
    eexists. unfold ytJsPattern. apply parses_Str_intro.
    assert (forall st' k,
              parses k ([], js "t=" ++ T ++ W ++ js "s" ++ X1 ++ js "<span" ++ X2
                            ++ js ">" ++ L ++ js "</span>" ++ X3 ++ js ">" ++ TITLE
                            ++ js "</span>" ++ rest) st' ->
              parses (Opt (Star false NonSpace;; Str (js "&")) ;; k)%regex
                ([], O ++ js "t=" ++ T ++ W ++ js "s" ++ X1 ++ js "<span" ++ X2
                       ++ js ">" ++ L ++ js "</span>" ++ X3 ++ js ">" ++ TITLE
                       ++ js "</span>" ++ rest) st') as HOpt.
    { intros st' k Hk. destruct HO as [->|(NS & -> & HNS)].
      - now apply parses_Opt_none.
      - apply parses_Opt_some; [reflexivity|now destruct NS| |assumption].
        rewrite <- app_assoc. apply parses_Star_intro; [assumption|].
        apply parses_Str_last. }
    apply HOpt. apply parses_Str_intro.
    apply parses_Grp_Plus_intro; [assumption..|].
    apply parses_Star_intro; [assumption|]. apply parses_Str_intro.
    apply parses_Star_intro; [assumption|]. apply parses_Str_intro.
    apply parses_Star_intro; [assumption|]. apply parses_Str_intro.
    apply parses_Grp_Star_intro; [assumption|]. apply parses_Str_intro.
    apply parses_Star_intro; [assumption|]. apply parses_Str_intro.
    apply parses_Grp_Star_intro; [assumption|]. apply parses_Str_last.
Qed.

(** Where a text put into a concatenation starts: after its first part, or
    inside it. *)
Lemma app_split (x R y Z : jsstring) :
  x ++ R = y ++ Z ->
  (exists l, y = x ++ l /\ R = l ++ Z)
  \/ (exists c k, x = y ++ c :: k /\ Z = (c :: k) ++ R).
Proof.
  intros E. apply app_eq_app in E as [l [[-> ->]|[-> ->]]].
  - destruct l as [|c k].
    + left. exists []. now rewrite !app_nil_r.
    + right. now exists c, k.
  - left. now exists l.
Qed.

Lemma all_of_app (cl : cclass) (a b : jsstring) :
  all_of cl (a ++ b) <-> all_of cl a /\ all_of cl b.
Proof. unfold all_of. rewrite forallb_app. apply andb_true_iff. Qed.

Lemma all_of_delete (cl : cclass) (a ins b : jsstring) :
  all_of cl (a ++ ins ++ b) -> all_of cl (a ++ b).
Proof. rewrite !all_of_app. tauto. Qed.

Lemma all_of_In (cl : cclass) (w : jsstring) (c : char) :
  all_of cl w -> In c w -> cmatch cl c = true.
Proof. unfold all_of. rewrite forallb_forall. auto. Qed.

(** The attributes start with a space: they cannot start inside a part that
    holds no space. *)
Lemma step_fixed (x R y z : jsstring) :
  ~ In 32 x ->
  x ++ R = y ++ linkAttributes ++ z ->
  exists l, y = x ++ l /\ R = l ++ linkAttributes ++ z.
Proof.
  intros Hx E. apply app_split in E as [E|(c & k & -> & E)]; [exact E|].
  exfalso. apply Hx. injection E as <- _. apply in_or_app. right. now left.
Qed.

(** A part that may hold anything of its class, before a part that starts
    with a character the attributes do not hold: the attributes start after
    it, or lie in it. *)
Lemma step_flex (X fx R y z : jsstring) (f : char) (fx' : jsstring) :
  fx = f :: fx' -> has f linkAttributes = false ->
  X ++ fx ++ R = y ++ linkAttributes ++ z ->
  (exists l, y = X ++ l /\ fx ++ R = l ++ linkAttributes ++ z)
  \/ (exists k2, X = y ++ linkAttributes ++ k2 /\ z = k2 ++ fx ++ R).
Proof.
  intros -> Hf E. apply app_split in E as [E|(c & k & -> & E)]; [now left|].
  right. apply app_eq_app in E as [l [[E1 E2]|[E1 E2]]].
  - destruct l as [|f' l].
    + rewrite app_nil_r in E1. exists []. rewrite E1. cbn [app] in *.
      now rewrite app_nil_r.
    + exfalso. cbn [app] in E2. injection E2 as <- _.
      apply (not_has_In f linkAttributes Hf). rewrite E1.
      apply in_or_app. right. now left.
  - exists l. now rewrite E1.
Qed.

(** White space before the letter s: the attributes, a space and then the
    letter t, cannot start in it. *)
Lemma step_space (W R y z : jsstring) :
  all_of Space W ->
  W ++ js "s" ++ R = y ++ linkAttributes ++ z ->
  exists l, y = W ++ l /\ js "s" ++ R = l ++ linkAttributes ++ z.
Proof.
  intros HW E. apply app_split in E as [E|(c & k & -> & E)]; [exact E|].
  exfalso. apply all_of_app in HW as [_ HW].
  injection E as <- E. destruct k as [|c' k]; [discriminate|].
  injection E as <- _. unfold all_of in HW. cbn in HW. discriminate.
Qed.

Lemma digits_no_space (T : jsstring) : all_of Digit T -> ~ In 32 T.
Proof. intros H Hin. apply (all_of_In _ _ _ H) in Hin. discriminate. Qed.

Lemma nonspace_no_space (NS : jsstring) : all_of NonSpace NS -> ~ In 32 NS.
Proof. intros H Hin. apply (all_of_In _ _ _ H) in Hin. discriminate. Qed.

Ltac no_space := apply not_has_In; reflexivity.

(** Putting the attributes into a text makes no match of the alternate
    pattern: a match in the text with them is a match in the text without. *)
Lemma ytjs_insertion (y z pre1 suf1 rest : jsstring) :
  pre1 ++ suf1 = y ++ linkAttributes ++ z ->
  ytjs_shape suf1 rest ->
  exists pre0 suf0 rest0, y ++ z = pre0 ++ suf0 /\ ytjs_shape suf0 rest0.
Proof.
  intros E (O & T & W & X1 & X2 & L & X3 & TITLE & -> & HO & HT & HT'
            & HW & HX1 & HX2 & HL & HX3 & HTi).
  apply (step_flex _ _ _ _ _ 38 []) in E; [|reflexivity..].
  destruct E as [(l & -> & E)|(k2 & -> & ->)].
  2:{ exists (y ++ k2), (js "&" ++ O ++ js "t=" ++ T ++ W ++ js "s" ++ X1
                          ++ js "<span" ++ X2 ++ js ">" ++ L ++ js "</span>" ++ X3
                          ++ js ">" ++ TITLE ++ js "</span>" ++ rest), rest.
      split; [now rewrite <- !app_assoc|].
      exists O, T, W, X1, X2, L, X3, TITLE. auto 12. }
  apply step_fixed in E; [|no_space]. destruct E as (l0 & -> & E).
  apply step_fixed in E.
  2:{ destruct HO as [->|(NS & -> & HNS)]; [intros []|].
      intros Hin. apply in_app_or in Hin as [Hin|Hin];
        [now apply (nonspace_no_space NS)|revert Hin; no_space]. }
  destruct E as (l1 & -> & E).
  apply step_fixed in E; [|no_space]. destruct E as (l2 & -> & E).
  apply step_fixed in E; [|now apply digits_no_space]. destruct E as (l3 & -> & E).
  apply step_space in E; [|assumption]. destruct E as (l4 & -> & E).
  apply step_fixed in E; [|no_space]. destruct E as (l5 & -> & E).
  apply (step_flex _ _ _ _ _ lt (js "span")) in E; [|reflexivity..].
  destruct E as [(l6 & -> & E)|(k2 & -> & ->)].
  2:{ exists pre1, (js "&" ++ O ++ js "t=" ++ T ++ W ++ js "s" ++ (l5 ++ k2)
                       ++ js "<span" ++ X2 ++ js ">" ++ L ++ js "</span>" ++ X3
                       ++ js ">" ++ TITLE ++ js "</span>" ++ rest), rest.
      split; [now rewrite <- !app_assoc|].
      exists O, T, W, (l5 ++ k2), X2, L, X3, TITLE.
      apply all_of_delete in HX1. auto 12. }
  apply step_fixed in E; [|no_space]. destruct E as (l7 & -> & E).
  apply (step_flex _ _ _ _ _ gt []) in E; [|reflexivity..].
  destruct E as [(l8 & -> & E)|(k2 & -> & ->)].
  2:{ exists pre1, (js "&" ++ O ++ js "t=" ++ T ++ W ++ js "s" ++ X1
                       ++ js "<span" ++ (l7 ++ k2) ++ js ">" ++ L ++ js "</span>"
                       ++ X3 ++ js ">" ++ TITLE ++ js "</span>" ++ rest), rest.
      split; [now rewrite <- !app_assoc|].
      exists O, T, W, X1, (l7 ++ k2), L, X3, TITLE.
      apply all_of_delete in HX2. auto 12. }
  apply step_fixed in E; [|no_space]. destruct E as (l9 & -> & E).
  apply (step_flex _ _ _ _ _ lt (js "/span>")) in E; [|reflexivity..].
  destruct E as [(l10 & -> & E)|(k2 & -> & ->)].
  2:{ exists pre1, (js "&" ++ O ++ js "t=" ++ T ++ W ++ js "s" ++ X1
                       ++ js "<span" ++ X2 ++ js ">" ++ (l9 ++ k2) ++ js "</span>"
                       ++ X3 ++ js ">" ++ TITLE ++ js "</span>" ++ rest), rest.
      split; [now rewrite <- !app_assoc|].
      exists O, T, W, X1, X2, (l9 ++ k2), X3, TITLE.
      apply all_of_delete in HL. auto 12. }
  apply step_fixed in E; [|no_space]. destruct E as (l11 & -> & E).
  apply (step_flex _ _ _ _ _ gt []) in E; [|reflexivity..].
  destruct E as [(l12 & -> & E)|(k2 & -> & ->)].
  2:{ exists pre1, (js "&" ++ O ++ js "t=" ++ T ++ W ++ js "s" ++ X1
                       ++ js "<span" ++ X2 ++ js ">" ++ L ++ js "</span>"
                       ++ (l11 ++ k2) ++ js ">" ++ TITLE ++ js "</span>" ++ rest),
        rest.
      split; [now rewrite <- !app_assoc|].
      exists O, T, W, X1, X2, L, (l11 ++ k2), TITLE.
      apply all_of_delete in HX3. auto 12. }
  apply step_fixed in E; [|no_space]. destruct E as (l13 & -> & E).
  apply (step_flex _ _ _ _ _ lt (js "/span>")) in E; [|reflexivity..].
  destruct E as [(l14 & -> & E)|(k2 & -> & ->)].
  2:{ exists pre1, (js "&" ++ O ++ js "t=" ++ T ++ W ++ js "s" ++ X1
                       ++ js "<span" ++ X2 ++ js ">" ++ L ++ js "</span>"
                       ++ X3 ++ js ">" ++ (l13 ++ k2) ++ js "</span>" ++ rest),
        rest.
      split; [now rewrite <- !app_assoc|].
      exists O, T, W, X1, X2, L, X3, (l13 ++ k2).
      apply all_of_delete in HTi. auto 12. }
  apply step_fixed in E; [|no_space]. destruct E as (l15 & -> & ->).
  exists pre1, (js "&" ++ O ++ js "t=" ++ T ++ W ++ js "s" ++ X1
                  ++ js "<span" ++ X2 ++ js ">" ++ L ++ js "</span>"
                  ++ X3 ++ js ">" ++ TITLE ++ js "</span>" ++ l15 ++ z), (l15 ++ z).
  split; [now rewrite <- !app_assoc|].
  exists O, T, W, X1, X2, L, X3, TITLE. auto 12.
Qed.

(** A run without a character, that character, and a rest: the run is found
    again at the head of any other reading of the text up to that character. *)
Lemma first_stop (c : char) (x g r1 r2 : jsstring) :
  all_of (Not c) x ->
  x ++ c :: r1 = g ++ c :: r2 ->
  (g = x /\ r1 = r2) \/ (exists g', g = x ++ c :: g' /\ r1 = g' ++ c :: r2).
Proof.
  intros Hx E. apply app_eq_app in E as [l [[E1 E2]|[E1 E2]]].
  - destruct l as [|c' l].
    + left. rewrite app_nil_r in E1. cbn [app] in E2. injection E2 as ->. auto.
    + exfalso. cbn [app] in E2. injection E2 as <- _.
      assert (In c x) as Hin by (rewrite E1; apply in_or_app; right; now left).
      apply (all_of_In _ _ _ Hx) in Hin. cbn [cmatch] in Hin.
      now rewrite N.eqb_refl in Hin.
  - destruct l as [|c' l].
    + left. rewrite app_nil_r in E1. cbn [app] in E2. injection E2 as ->. auto.
    + right. cbn [app] in E2. injection E2 as <- ->. now exists l.
Qed.

(** How a match of the legacy pattern starts. *)
Lemma invidious_head (suf : jsstring) :
  accepts invidiousPattern suf ->
  exists U1 tail,
    suf = js "<a href=" ++ dq :: U1 ++ dq :: 32 :: 100 :: tail
    /\ U1 <> [] /\ all_of (Not dq) U1.
Proof.
  intros [st' Hp]. apply invidious_parse in Hp
    as (U & T & P & W & TITLE & -> & _ & HU & HU' & _).
  exists U. eexists. split; [|auto]. reflexivity.
Qed.

Lemma url_accepts_intro (V r : jsstring) :
  V <> [] -> all_of (Not dq) V -> accepts urlPattern (js "<a href=" ++ dq :: V ++ dq :: r).
Proof.
  intros Hne HV. destruct V as [|c V]; [congruence|].
  exists ([VStr (c :: V)], r). apply url_parse. exists c, V. auto.
Qed.

Lemma cons_eq (a b : char) (x y : jsstring) : a :: x = b :: y -> a = b /\ x = y.
Proof. intros E. now injection E. Qed.

Lemma suffix_head (x R suf y : jsstring) (c : char) (t : jsstring) :
  suf = c :: t -> has c x = false ->
  x ++ R = y ++ suf -> exists l, y = x ++ l /\ R = l ++ suf.
Proof.
  intros -> Hc E. apply app_split in E as [E|(c' & k & -> & E)]; [exact E|].
  exfalso. injection E as <- _. apply (not_has_In c _ Hc).
  apply in_or_app. right. now left.
Qed.

(** In the legacy mode the rewritten line is no timestamp line when the line
    was none: the attributes stand where the pattern wants [data-onclick]. *)
Lemma invidious_insertion (pre U post pre1 suf1 : jsstring) :
  U <> [] -> all_of (Not dq) U ->
  (forall pre' suf', pre ++ js "<a href='" ++ U ++ dq :: post = pre' ++ suf' ->
                     (length pre' < length pre)%nat -> ~ accepts urlPattern suf') ->
  (forall pre' suf', pre ++ js "<a href='" ++ U ++ dq :: post = pre' ++ suf' ->
                     ~ accepts invidiousPattern suf') ->
  pre ++ js "<a href='" ++ U ++ dq :: linkAttributes ++ post = pre1 ++ suf1 ->
  ~ accepts invidiousPattern suf1.
Proof.
  intros HU HU' Hleft Hno E Hacc.
  destruct (invidious_head _ Hacc) as (U1 & tail & Es & HU1 & HU1').
  assert (all_of (Not dq) (js "<a href=")) as HA by reflexivity.
  assert (linkAttributes
          = js " target=" ++ dq
              :: js "_blank' rel='noopener noreferrer' class='link'") as Elink
      by reflexivity.
  apply app_split in E as [(l & -> & E)|(c & k & -> & E)].
  - (* the match starts in the anchor or after it *)
    destruct l as [|c l].
    + (* at the anchor: the attributes are not [data-onclick] *)
      cbn [app] in E. subst suf1.
      change (js "<a href='" ++ U ++ dq :: linkAttributes ++ post)
        with (js "<a href=" ++ dq :: U ++ dq :: linkAttributes ++ post) in Es.
      apply app_inv_head in Es. apply cons_eq in Es as [_ Es].
      apply (run_unique (Not dq) dq) in Es as [_ Es]; [discriminate|reflexivity|assumption..].
    + change (js "<a href='" ++ U ++ dq :: linkAttributes ++ post)
        with (lt :: js "a href=" ++ dq :: U ++ dq :: linkAttributes ++ post) in E.
      cbn [app] in E. apply cons_eq in E as [<- E].
      apply (suffix_head _ _ _ _ lt _ Es) in E; [|reflexivity].
      destruct E as (l2 & -> & E).
      destruct l2 as [|c l2]; [cbn [app] in E; subst suf1; discriminate|].
      cbn [app] in E. apply cons_eq in E as [<- E].
      apply app_split in E as [(l4 & -> & E)|(c & k & EU & E)].
      * destruct l4 as [|c l4]; [cbn [app] in E; subst suf1; discriminate|].
        cbn [app] in E. apply cons_eq in E as [<- E].
        apply (suffix_head _ _ _ _ lt _ Es) in E; [|reflexivity].
        destruct E as (l6 & -> & ->).
        (* after the attributes: the match is one of the line as it was *)
        apply (Hno (pre ++ js "<a href='" ++ U ++ dq :: l6) suf1);
          [|assumption].
        rewrite <- !app_assoc. cbn [app]. now rewrite <- ?app_assoc.
      * (* in the address: then the address of the match is [ target=] *)
        rewrite E in Es.
        assert (all_of (Not dq) (c :: k)) as Hk
            by (rewrite EU in HU'; now apply all_of_app in HU' as [_ ?]).
        apply (run_unique (Not dq) dq) in Es as [_ Es]; [|reflexivity|assumption..].
        rewrite Elink, <- app_assoc in Es. cbn [app] in Es.
        apply (run_unique (Not dq) dq) in Es as [_ Es]; [discriminate|reflexivity|
                                            reflexivity|assumption].
  - (* the match starts before the anchor: [urlRegex] matches there too *)
    apply (Hleft pre1 ((c :: k) ++ js "<a href='" ++ U ++ dq :: post)).
    + now rewrite <- !app_assoc.
    + rewrite length_app. cbn [length]. lia.
    + rewrite E in Es.
      change ((c :: k) ++ js "<a href='" ++ U ++ dq :: linkAttributes ++ post)
        with ((c :: k) ++ js "<a href=" ++ dq :: U ++ dq :: linkAttributes ++ post)
        in Es.
      rewrite app_assoc in Es. symmetry in Es.
      apply (first_stop dq _ _ _ _ HA) in Es as [[Eg _]|(g' & Eg & Es)].
      * exfalso. apply (f_equal (@length _)) in Eg. rewrite length_app in Eg.
        cbn in Eg. lia.
      * change ((c :: k) ++ js "<a href='" ++ U ++ dq :: post)
          with ((c :: k) ++ js "<a href=" ++ dq :: U ++ dq :: post).
        rewrite app_assoc, Eg.
        apply (first_stop dq _ _ _ _ HU1') in Es as [[-> _]|(g'' & -> & _)].
        -- rewrite <- app_assoc. cbn [app]. now apply url_accepts_intro.
        -- rewrite <- !app_assoc. cbn [app]. rewrite <- app_assoc. cbn [app].
           now apply url_accepts_intro.
Qed.

(** A URL line that is no timestamp line is none after the rewrite, in either
    mode. *)
Lemma modified_not_timestamp (yt : bool) (line : jsstring) :
  is_url line = true -> is_timestamp yt line = false ->
  is_timestamp yt (modifiedLine line) = false.
Proof.
  intros Hu Ht.
  destruct (modifiedLine_spec line Hu) as (pre & U & post & El & HU & HU' & Hleft & ->).
  unfold is_timestamp, timestampMatch in *. apply is_some_false in Ht.
  apply is_some_false. destruct yt.
  - apply search_None. intros pre1 suf1 E1.
    destruct (m ytJsPattern Some ([], suf1)) eqn:Em; [exfalso|reflexivity].
    assert (accepts ytJsPattern suf1) as Ha by (apply m_accepts; congruence).
    apply ytjs_accepts in Ha as [rest Hshape].
    destruct (ytjs_insertion (pre ++ js "<a href='" ++ U ++ [dq])
                (post ++ js "</span>") pre1 suf1 rest)
      as (pre0 & suf0 & rest0 & E0 & H0); [|assumption|].
    { rewrite <- E1, <- !app_assoc. cbn [app]. now rewrite <- ?app_assoc. }
    assert (accepts ytJsPattern suf0) as Ha by (apply ytjs_accepts; eauto).
    apply m_accepts in Ha. apply Ha.
    apply (proj1 (search_None _ _ _) Ht pre0).
    rewrite <- E0, El, <- !app_assoc. cbn [app]. now rewrite <- ?app_assoc.
  - apply search_None. intros pre1 suf1 E1.
    destruct (m invidiousPattern Some ([], suf1)) eqn:Em; [exfalso|reflexivity].
    assert (accepts invidiousPattern suf1) as Ha by (apply m_accepts; congruence).
    revert Ha. subst line.
    apply (invidious_insertion pre U post pre1 suf1); try assumption.
    intros pre' suf' E' Ha. apply m_accepts in Ha. apply Ha.
    now apply (proj1 (search_None _ _ _) Ht pre').
Qed.

Lemma retained_not_timestamp (yt : bool) (line : jsstring) :
  is_timestamp yt line = false -> is_timestamp yt (retained line) = false.
Proof.
  intros Ht. unfold retained. destruct (is_url line) eqn:Hu; [|assumption].
  now apply modified_not_timestamp.
Qed.

Lemma modifiedLine_longer (line : jsstring) :
  is_url line = true -> modifiedLine line <> line.
Proof.
  intros Hu E.
  destruct (modifiedLine_spec line Hu) as (pre & U & post & El & _ & _ & _ & Em).
  rewrite Em in E. rewrite El in E.
  apply (f_equal (@length _)) in E. rewrite !length_app in E. cbn [length] in E.
  rewrite length_app in E. cbn in E. lia.
Qed.

Lemma map_fixed {A : Type} (f : A -> A) (l : list A) :
  map f l = l -> forall x, In x l -> f x = x.
Proof.
  induction l as [|a l IH]; [intros _ x []|].
  cbn [map]. intros E x [<-|Hin]; injection E as E1 E2; auto.
Qed.

(** The lines of a description are no timestamp lines. *)
Lemma description_lines_not_timestamp (decode : jsstring -> jsstring)
    (content : jsstring) (yt : bool) (line : jsstring) :
  In line (split nl (description (annotate decode content yt))) ->
  is_timestamp yt line = false.
Proof.
  cbn [annotate description].
  rewrite split_joined by apply retained_lines_no_nl.
  destruct (map retained _) as [|p rest] eqn:E.
  - intros [<-|[]]. now destruct yt.
  - rewrite <- E. clear E. intros Hin.
    apply in_map_iff in Hin as (l0 & <- & Hin).
    apply filter_In in Hin as [_ Hts]. apply negb_true_iff in Hts.
    now apply retained_not_timestamp.
Qed.

(** What [annotate] returns on lines none of which is a timestamp line. *)
Lemma annotate_no_timestamp (decode : jsstring -> jsstring) (content : jsstring)
    (yt : bool) :
  (forall line, In line (split nl content) -> is_timestamp yt line = false) ->
  annotate decode content yt
  = mkPhased (join [nl] (map retained (split nl content))) [].
Proof.
  intros H. unfold annotate.
  assert (forall lines, (forall line, In line lines -> is_timestamp yt line = false) ->
            filter (is_timestamp yt) lines = []
            /\ filter (fun l => negb (is_timestamp yt l)) lines = lines) as Hl.
  { induction lines as [|l lines IH]; intros Hall; [now split|].
    destruct IH as [IH1 IH2]; [intros; apply Hall; now right|].
    cbn [filter]. rewrite (Hall l (or_introl eq_refl)). cbn [negb].
    now rewrite IH1, IH2. }
  now destruct (Hl _ H) as [-> ->].
Qed.

(** C2, as it holds: [phaseDescription] on the description it returned finds
    no timestamp, and returns the lines of that description as a first pass
    retains them: a line with no anchor tag as it is, a line with one with
    the attributes put into its first anchor once more.  So the description
    comes back unchanged exactly when none of its lines contains an anchor
    tag. *)
Theorem phaseDescription_second_pass :
  forall (decode : jsstring -> jsstring) (content : jsstring) (yt : bool),
    exists pd pd',
      phaseDescription decode content yt = Normal pd
      /\ phaseDescription decode (description pd) yt = Normal pd'
      /\ timestamps pd' = []
      /\ description pd'
         = join [nl]
             (map (fun l => if is_url l then modifiedLine l else l)
                (split nl (description pd)))
      /\ (description pd' = description pd <->
          forall line, In line (split nl (description pd)) -> is_url line = false).
Proof.
  intros decode content yt.
  exists (annotate decode content yt),
    (annotate decode (description (annotate decode content yt)) yt).
  split; [apply phaseDescription_annotate|].
  split; [apply phaseDescription_annotate|].
  set (d := description (annotate decode content yt)).
  rewrite (annotate_no_timestamp decode d yt)
    by (intros line; apply description_lines_not_timestamp).
  cbn [timestamps description]. split; [reflexivity|]. split; [reflexivity|].
  fold retained. split.
  - intros E line Hin. destruct (is_url line) eqn:Hu; [exfalso|reflexivity].
    rewrite <- (join_split nl d) in E at 2.
    apply (f_equal (split nl)) in E.
    rewrite !split_join in E.
    + apply (map_fixed _ _ E) in Hin. unfold retained in Hin. rewrite Hu in Hin.
      now apply (modifiedLine_longer line).
    + apply split_not_nil.
    + apply split_pieces.
    + intros Hnil. apply map_eq_nil in Hnil. now apply split_not_nil in Hnil.
    + apply Forall_map, Forall_forall. intros l Hl. apply retained_no_nl.
      revert l Hl. apply Forall_forall, split_pieces.
  - intros H.
    assert (map retained (split nl d) = split nl d) as ->.
    { induction (split nl d) as [|l ls IH]; [reflexivity|].
      cbn [map]. rewrite IH by (intros; apply H; now right).
      unfold retained. now rewrite (H l (or_introl eq_refl)). }
    apply join_split.
Qed.

(** * Further properties of the annotator *)

Lemma split_concat (sep : char) (a b : jsstring) :
  split sep (a ++ sep :: b) = split sep a ++ split sep b.
Proof.
  induction a as [|c a IH]; simpl.
  - now rewrite N.eqb_refl.
  - destruct (c =? sep); [now rewrite IH|].
    rewrite IH. destruct (split sep a) as [|p ps] eqn:E; [|reflexivity].
    now apply split_not_nil in E.
Qed.

Lemma join_app (sep : jsstring) (l1 l2 : list jsstring) :
  join sep (l1 ++ l2) =
  match l1, l2 with
  | [], _ => join sep l2
  | _, [] => join sep l1
  | _, _ => join sep l1 ++ sep ++ join sep l2
  end.
Proof.
  induction l1 as [|p l1 IH]; [reflexivity|].
  destruct l2 as [|q l2]; [now rewrite app_nil_r|].
  destruct l1 as [|p' l1]; [reflexivity|].
  change ((p :: p' :: l1) ++ q :: l2) with (p :: (p' :: l1) ++ q :: l2).
  cbn [app]. rewrite !join_cons. cbn [app] in IH. rewrite IH.
  now rewrite <- !app_assoc.
Qed.

Lemma filter_negb_nil {A : Type} (f : A -> bool) (l : list A) :
  forallb f l = (match filter (fun x => negb (f x)) l with [] => true | _ => false end).
Proof.
  induction l as [|x l IH]; [reflexivity|]. simpl.
  destruct (f x); simpl; [apply IH|reflexivity].
Qed.

(** X1: the lines of a description are handled one by one.  The timestamps of
    [a], a newline and [b] are those of [a] followed by those of [b]; the
    description is the two descriptions with a newline between them, or one
    of them alone when every line of the other is a timestamp line. *)
Theorem phaseDescription_concat :
  forall (decode : jsstring -> jsstring) (a b : jsstring) (yt : bool),
    exists pa pb pab,
      phaseDescription decode a yt = Normal pa
      /\ phaseDescription decode b yt = Normal pb
      /\ phaseDescription decode (a ++ nl :: b) yt = Normal pab
      /\ timestamps pab = timestamps pa ++ timestamps pb
      /\ description pab =
         if forallb (is_timestamp yt) (split nl a) then description pb
         else if forallb (is_timestamp yt) (split nl b) then description pa
         else description pa ++ nl :: description pb.
Proof.
  intros decode a b yt.
  exists (annotate decode a yt), (annotate decode b yt),
    (annotate decode (a ++ nl :: b) yt).
  rewrite !phaseDescription_annotate. repeat (split; [reflexivity|]).
  cbn [annotate timestamps description]. rewrite split_concat, !filter_app, !map_app.
  split; [reflexivity|]. rewrite join_app, !filter_negb_nil.
  destruct (filter _ (split nl a)) as [|x xs]; [reflexivity|].
  destruct (filter _ (split nl b)) as [|y ys]; reflexivity.
Qed.

(** X2: [timePretty] of every entry is a string, never [undefined]: in legacy
    mode a clock text (digits, a colon, digits, and possibly a colon and
    digits more), in alternate mode a text without the character [<]. *)
Theorem timePretty_text :
  forall (decode : jsstring -> jsstring) (content : jsstring) (yt : bool),
    exists pd,
      phaseDescription decode content yt = Normal pd
      /\ forall e, In e (timestamps pd) ->
           exists P, timePretty e = VStr P
                     /\ if yt then all_of (Not lt) P else clock P.
Proof.
  intros decode content yt. exists (annotate decode content yt).
  split; [apply phaseDescription_annotate|]. intros e He.
  apply entry_in_timestamps in He as (line & tm & _ & Htm & ->).
  unfold entry_of_match, at_index. cbn [timePretty].
  unfold timestampMatch in Htm. destruct yt.
  - apply ytjs_match in Htm as (whole & T & L & TITLE & -> & _ & _ & HL & _).
    now exists L.
  - apply invidious_match in Htm as (whole & U & T & P & TITLE & -> & _ & _ & HP & _).
    now exists P.
Qed.

Lemma only_terminators_after_eq (pat s : jsstring) :
  only_terminators_after pat s =
  match strip_prefix pat s with
  | Some rest => forallb isLineTerminator rest
  | None => true
  end
  && match s with
     | [] => true
     | _ :: s' => only_terminators_after pat s'
     end.
Proof. destruct s; reflexivity. Qed.

Lemma only_terminators_after_spec (pat s a b : jsstring) :
  only_terminators_after pat s = true -> s = a ++ pat ++ b ->
  forallb isLineTerminator b = true.
Proof.
  revert s. induction a as [|c a IH]; intros s H ->.
  - rewrite only_terminators_after_eq in H. cbn [app] in H.
    rewrite strip_prefix_app in H. now apply andb_true_iff in H as [H _].
  - cbn [app only_terminators_after] in H. apply andb_true_iff in H as [_ H].
    now apply (IH _ H).
Qed.

(** X3: a legacy timestamp needs a title.  A line in which nothing but line
    terminators (a carriage return, say) follows any [</a>] is no timestamp
    line of the legacy mode: it yields no entry and stays in the description,
    as a URL line when it has an anchor. *)
Theorem legacy_timestamp_needs_title :
  forall (decode : jsstring -> jsstring) (content line : jsstring),
    In line (split nl content) ->
    only_terminators_after (js "</a>") line = true ->
    is_timestamp false line = false
    /\ exists pd,
         phaseDescription decode content false = Normal pd
         /\ In (retained line) (split nl (description pd)).
Proof.
  intros decode content line Hin Hafter.
  assert (is_timestamp false line = false) as Hts.
  { apply is_some_false. unfold timestampMatch.
    destruct (search invidiousPattern 0 line) as [tm|] eqn:E; [exfalso|reflexivity].
    apply search_parses in E as (pre & suf & st' & -> & Hp & _ & _).
    apply invidious_parse in Hp
      as (U & T & P & W & TITLE & -> & _ & _ & _ & _ & _ & _ & _ & HT & HT').
    pose proof (only_terminators_after_spec (js "</a>") _
                  (pre ++ js "<a href='" ++ U
                     ++ js "' data-onclick='jump_to_time' data-jump-time='" ++ T
                     ++ js "'>" ++ P) (W ++ TITLE ++ snd st') Hafter) as K.
    rewrite <- !app_assoc in K. specialize (K eq_refl).
    rewrite !forallb_app in K. apply andb_true_iff in K as [_ K].
    apply andb_true_iff in K as [K _].
    destruct TITLE as [|c TITLE]; [congruence|].
    unfold all_of in HT'. cbn [forallb cmatch] in *.
    apply andb_true_iff in K as [K _]. apply andb_true_iff in HT' as [HT' _].
    rewrite K in HT'. discriminate. }
  split; [exact Hts|]. exists (annotate decode content false).
  split; [apply phaseDescription_annotate|]. now apply retained_in_description.
Qed.

Lemma legacy_timestamp_needs_title_witness :
  is_timestamp false sample_untitled = false
  /\ exists pd,
       phaseDescription no_decoding sample_untitled false = Normal pd
       /\ In (retained sample_untitled) (split nl (description pd)).
Proof.
  apply (legacy_timestamp_needs_title no_decoding sample_untitled sample_untitled).
  - left. reflexivity.
  - vm_compute. reflexivity.
Defined.

Lemma mul_NaN_l (x : number) : mul NaN x = NaN.
Proof. reflexivity. Qed.

Lemma add_NaN_l (x : number) : add NaN x = NaN.
Proof. reflexivity. Qed.

Lemma add_NaN_r (x : number) : add x NaN = NaN.
Proof. destruct x; reflexivity. Qed.

Lemma split_length (sep : char) (s : jsstring) :
  length (split sep s) = S (count_occ N.eq_dec s sep).
Proof.
  induction s as [|c s IH]; [reflexivity|]. cbn [split count_occ].
  destruct (N.eqb_spec c sep) as [->|Hne].
  - destruct (N.eq_dec sep sep); [|congruence]. cbn [length]. now rewrite IH.
  - destruct (N.eq_dec c sep); [congruence|].
    destruct (split sep s) as [|p ps]; [discriminate|]. exact IH.
Qed.

(** X4: a part that is no number makes the whole time [NaN].  When the time
    has at most two colons and [parseInt] reads no number from one of its
    parts (an empty part, as in a time that ends with a colon, is one), the
    result of [convertToSeconds] is [NaN]. *)
Theorem convertToSeconds_NaN :
  forall (time part : jsstring),
    (count_occ N.eq_dec time colon <= 2)%nat ->
    In part (split colon time) -> parseInt part = NaN ->
    convertToSeconds time = NaN.
Proof.
  intros time part Hc Hin Hp. unfold convertToSeconds.
  pose proof (split_length colon time) as Hl.
  destruct (split colon time) as [|a [|b [|c [|d l]]]];
    cbn [length] in Hl; try lia; cbn [map length Nat.eqb nth].
  - destruct Hin as [->|[]]. exact Hp.
  - destruct Hin as [->|[->|[]]]; rewrite Hp.
    + reflexivity.
    + apply add_NaN_r.
  - destruct Hin as [->|[->|[->|[]]]]; rewrite Hp.
    + reflexivity.
    + rewrite mul_NaN_l, add_NaN_r. reflexivity.
    + apply add_NaN_r.
Qed.

Lemma convertToSeconds_NaN_witness : convertToSeconds (js "5:") = NaN.
Proof.
  apply (convertToSeconds_NaN (js "5:") []).
  - vm_compute. lia.
  - right. left. reflexivity.
  - reflexivity.
Defined.

(** * Strings *)

Lemma string_eqb_eq (a b : jsstring) : string_eqb a b = true <-> a = b.
Proof.
  revert b. induction a as [|x a IH]; intros [|y b]; simpl;
    try (split; [discriminate|discriminate]); [tauto|].
  rewrite andb_true_iff, N.eqb_eq, IH. split.
  - now intros [-> ->].
  - intros E. injection E as -> ->. auto.
Qed.

Lemma endsWith_spec (s t : jsstring) :
  endsWith s t = true <-> exists p, s = p ++ t.
Proof.
  unfold endsWith. rewrite andb_true_iff, Nat.leb_le, string_eqb_eq. split.
  - intros [Hl E]. exists (firstn (length s - length t) s).
    pose proof (firstn_skipn (length s - length t) s) as K.
    rewrite E in K. now symmetry.
  - intros [p ->]. rewrite length_app. split; [lia|].
    replace (length p + length t - length t)%nat with (length p) by lia.
    apply skipn_length_app.
Qed.

Lemma endsWith_false (s t : jsstring) :
  endsWith s t = false <-> forall p, s <> p ++ t.
Proof.
  split.
  - intros H p E. assert (endsWith s t = true) by (apply endsWith_spec; eauto).
    congruence.
  - intros H. destruct (endsWith s t) eqn:E; [|reflexivity].
    apply endsWith_spec in E as [p E]. now apply H in E.
Qed.

Lemma slice_drop_last (p : jsstring) (c : char) :
  slice (p ++ [c]) 0 (Some (-1)%Z) = p.
Proof.
  unfold slice, relative_index. cbn [Z.ltb Z.compare]. rewrite length_app.
  cbn [length Z.to_nat Nat.min skipn].
  replace (Z.to_nat (Z.max (Z.of_nat (length p + 1) + -1) 0)) with (length p) by lia.
  rewrite Nat.sub_0_r. apply firstn_length_app.
Qed.

Lemma slice_tail (c : char) (w : jsstring) : slice (c :: w) 1 None = w.
Proof.
  unfold slice, relative_index. cbn [Z.ltb Z.compare length].
  change (Z.to_nat 1) with 1%nat. rewrite Nat.min_l by lia.
  cbn [skipn]. replace (S (length w) - 1)%nat with (length w) by lia.
  apply firstn_all.
Qed.

(** X5: [ensureNoTrailingSlash] takes one slash off the end of a string and
    no more: a url that ends with a slash comes back without that slash, so
    the result still ends with a slash exactly when the url ended with two.
    A string that does not end with a slash comes back as it is, and what is
    no string gives the empty string. *)
Theorem ensureNoTrailingSlash_one_slash :
  (forall p, ensureNoTrailingSlash (any_string (p ++ js "/")) = p)
  /\ (forall s, endsWith (ensureNoTrailingSlash (any_string s)) (js "/")
                = endsWith s (js "//"))
  /\ (forall s, ensureNoTrailingSlash (any_string s) = s
                \/ s = ensureNoTrailingSlash (any_string s) ++ js "/")
  /\ (forall v, match v with
                | any_string _ => True
                | _ => ensureNoTrailingSlash v = []
                end).
Proof.
  assert (forall p, ensureNoTrailingSlash (any_string (p ++ js "/")) = p) as H1.
  { intros p. unfold ensureNoTrailingSlash.
    assert (endsWith (p ++ js "/") (js "/") = true) as ->
        by (apply endsWith_spec; eauto).
    apply slice_drop_last. }
  split; [exact H1|]. split; [|split].
  - intros s. destruct (endsWith s (js "/")) eqn:E.
    + apply endsWith_spec in E as [p ->]. rewrite H1.
      destruct (endsWith p (js "/")) eqn:E2.
      * apply endsWith_spec in E2 as [q ->]. symmetry. apply endsWith_spec.
        exists q. now rewrite <- app_assoc.
      * symmetry. apply endsWith_false. intros q E.
        apply (proj1 (endsWith_false _ _) E2 q).
        change (js "//") with (js "/" ++ js "/") in E.
        rewrite app_assoc in E. now apply app_inj_tail in E as [E _].
    + unfold ensureNoTrailingSlash. rewrite E, E. symmetry.
      apply endsWith_false. intros q E2.
      apply (proj1 (endsWith_false _ _) E (q ++ js "/")).
      now rewrite <- app_assoc.
  - intros s. destruct (endsWith s (js "/")) eqn:E.
    + apply endsWith_spec in E as [p ->]. rewrite H1. now right.
    + unfold ensureNoTrailingSlash. rewrite E. now left.
  - intros []; exact I || reflexivity.
Qed.

(** * The case functions *)

Lemma take_drop (p : char -> bool) (s : jsstring) :
  s = takeWhile p s ++ dropWhile p s.
Proof.
  induction s as [|c s IH]; [reflexivity|]. simpl.
  destruct (p c); [simpl; now f_equal|reflexivity].
Qed.

Lemma takeWhile_forallb (p : char -> bool) (s : jsstring) :
  forallb p (takeWhile p s) = true.
Proof.
  induction s as [|c s IH]; [reflexivity|]. simpl.
  destruct (p c) eqn:E; [simpl; now rewrite E|reflexivity].
Qed.

Lemma consumed_take (p : char -> bool) (s : jsstring) :
  consumed s (dropWhile p s) = takeWhile p s.
Proof. rewrite (take_drop p s) at 1. apply consumed_app. Qed.

Lemma star_of_total (p : char -> bool) (k : jsstring -> option jsstring)
    (g : jsstring -> jsstring) (inp : jsstring) :
  (forall i, k i = Some (g i)) ->
  star_of p k inp = Some (g (dropWhile p inp)).
Proof.
  intros Hk. induction inp as [|c inp IH]; simpl; [apply Hk|].
  destruct (p c); [now rewrite IH|apply Hk].
Qed.

Lemma star_greedy_total (cl : cclass) (k : list value * jsstring -> option (list value * jsstring))
    (g : list value * jsstring -> list value * jsstring) (caps : list value)
    (inp : jsstring) :
  (forall st, k st = Some (g st)) ->
  star_greedy cl k caps inp = Some (g (caps, dropWhile (cmatch cl) inp)).
Proof.
  intros Hk. induction inp as [|c inp IH]; simpl; [apply Hk|].
  destruct (cmatch cl c); [now rewrite IH|apply Hk].
Qed.

Lemma sentencePattern_rest (inp : jsstring) :
  sentencePattern inp
  = Some (dropWhile isSentenceEnd
            (dropWhile (fun c => negb (isSentenceEnd c)) inp)).
Proof.
  unfold sentencePattern.
  apply (star_of_total _ _ (dropWhile isSentenceEnd)).
  intros i. now apply (star_of_total _ _ (fun x => x)).
Qed.

Lemma match_all_skip (matcher : jsstring -> option jsstring) (w rest : jsstring) :
  match_all matcher (length w) (w ++ rest) = match_all matcher 0 rest.
Proof. induction w as [|c w IH]; [reflexivity|]. simpl. exact IH. Qed.

Lemma match_all_sentences (n : nat) :
  forall inp, (length inp <= n)%nat ->
    exists chunks,
      Forall sentence chunks /\ concat chunks = inp
      /\ match_all sentencePattern 0 inp = chunks ++ [[]].
Proof.
  induction n as [|n IH]; intros inp Hn.
  - destruct inp; [|simpl in Hn; lia]. exists []. repeat split; constructor.
  - destruct inp as [|c inp']; [exists []; repeat split; constructor|].
    set (inp := c :: inp') in *.
    set (a := takeWhile (fun c => negb (isSentenceEnd c)) inp).
    set (mid := dropWhile (fun c => negb (isSentenceEnd c)) inp).
    set (b := takeWhile isSentenceEnd mid).
    set (rest := dropWhile isSentenceEnd mid).
    assert (inp = (a ++ b) ++ rest) as E.
    { rewrite <- app_assoc. unfold a, b, rest.
      rewrite <- (take_drop isSentenceEnd mid). apply take_drop. }
    assert (a ++ b <> []) as Hne.
    { unfold a, b, mid, inp. cbn [takeWhile dropWhile].
      destruct (isSentenceEnd c) eqn:Ec; cbn [negb].
      - cbn [takeWhile app]. rewrite Ec. discriminate.
      - discriminate. }
    destruct (IH rest) as (chunks & Hall & Hcat & Hm).
    { apply (f_equal (@length _)) in E. rewrite length_app in E.
      destruct (a ++ b); [congruence|]. simpl in *. lia. }
    exists ((a ++ b) :: chunks). split; [|split].
    + constructor; [|assumption]. split; [assumption|].
      exists a, b. repeat split; apply takeWhile_forallb.
    + cbn [concat]. now rewrite Hcat.
    + change (match_all sentencePattern 0 inp) with
        (match sentencePattern inp with
         | Some rest =>
             consumed inp rest ::
             match consumed inp rest with
             | [] => match_all sentencePattern 0 inp'
             | _ :: w => match_all sentencePattern (length w) inp'
             end
         | None => match_all sentencePattern 0 inp'
         end).
      rewrite sentencePattern_rest. fold mid. fold rest.
      rewrite E at 1 2. rewrite consumed_app.
      destruct (a ++ b) as [|x w] eqn:Eab; [congruence|].
      cbn [app] in E. unfold inp in E. injection E as _ E. rewrite E.
      rewrite match_all_skip, Hm. reflexivity.
Qed.

Lemma dropWhile_all (p : char -> bool) (s : jsstring) :
  forallb p s = true -> dropWhile p s = [].
Proof.
  induction s as [|c s IH]; [reflexivity|]. simpl.
  intros H. apply andb_true_iff in H as [-> H]. now apply IH.
Qed.

Lemma dropWhile_none (p : char -> bool) (s : jsstring) :
  forallb (fun c => negb (p c)) s = true -> dropWhile p s = s.
Proof.
  destruct s as [|c s]; [reflexivity|]. simpl. intros H.
  apply andb_true_iff in H as [H _]. now destruct (p c).
Qed.

Lemma forallb_rev {A : Type} (p : A -> bool) (l : list A) :
  forallb p (rev l) = forallb p l.
Proof.
  induction l as [|x l IH]; [reflexivity|]. simpl.
  rewrite forallb_app, IH. simpl. rewrite andb_true_r. apply andb_comm.
Qed.

Lemma trim_spaces (w : jsstring) : forallb isWhiteSpace w = true -> trim w = [].
Proof. intros H. unfold trim. now rewrite (dropWhile_all _ _ H). Qed.

Lemma trim_word (w : jsstring) :
  forallb (fun c => negb (isWhiteSpace c)) w = true -> trim w = w.
Proof.
  intros H. unfold trim. rewrite (dropWhile_none _ _ H).
  rewrite dropWhile_none by now rewrite forallb_rev. apply rev_involutive.
Qed.

(** The pattern of line 50 at a character: the white space from there on. *)
Lemma spacesPattern_match (c : char) (inp : jsstring) :
  m spacesPattern Some ([], c :: inp) =
  if isWhiteSpace c
  then Some ([VStr (c :: takeWhile isWhiteSpace inp)], dropWhile isWhiteSpace inp)
  else None.
Proof.
  unfold spacesPattern, Plus. cbn [m fst snd length cmatch].
  destruct (isWhiteSpace c); [|reflexivity].
  rewrite (star_greedy_total Space _
             (fun st' => (firstn 0 (fst st')
                            ++ VStr (consumed (c :: inp) (snd st'))
                            :: skipn 0 (fst st'), snd st')))
    by reflexivity.
  cbn [fst snd firstn skipn app]. change (cmatch Space) with isWhiteSpace.
  assert (consumed (c :: inp) (dropWhile isWhiteSpace inp)
          = c :: takeWhile isWhiteSpace inp) as ->; [|reflexivity].
  rewrite (take_drop isWhiteSpace inp) at 1.
  rewrite app_comm_cons. apply consumed_app.
Qed.

Lemma split_regex_from_skip (r : regex) (acc w rest : jsstring) :
  split_regex_from r acc (length w) (w ++ rest) = split_regex_from r acc 0 rest.
Proof.
  induction w as [|c w IH]; [|exact IH].
  destruct rest; reflexivity.
Qed.

Lemma words_from_spaces (w rest : jsstring) :
  forallb isWhiteSpace w = true -> words_from [] (w ++ rest) = words_from [] rest.
Proof.
  induction w as [|c w IH]; [reflexivity|]. simpl. intros H.
  apply andb_true_iff in H as [-> H]. now apply IH.
Qed.

Lemma filter_words_cons (word : jsstring) (rest : list value) (ws : list jsstring) :
  filter_words rest = Normal ws ->
  filter_words (VStr word :: rest)
  = Normal (if (0 <? length (trim word))%nat then word :: ws else ws).
Proof. intros H. cbn [filter_words]. now rewrite H. Qed.

Lemma filter_words_piece (acc : jsstring) (rest : list value) (ws : list jsstring) :
  forallb (fun c => negb (isWhiteSpace c)) acc = true ->
  filter_words rest = Normal ws ->
  filter_words (VStr acc :: rest)
  = Normal match acc with [] => ws | _ :: _ => acc :: ws end.
Proof.
  intros Hacc H. rewrite (filter_words_cons _ _ _ H), (trim_word _ Hacc).
  now destruct acc.
Qed.

(** The pieces that [filter] keeps are the words of the text. *)
Lemma split_words (n : nat) :
  forall inp acc, (length inp <= n)%nat ->
    forallb (fun c => negb (isWhiteSpace c)) acc = true ->
    filter_words (split_regex_from spacesPattern acc 0 inp)
    = Normal (words_from acc inp).
Proof.
  induction n as [|n IH]; intros inp acc Hn Hacc.
  - destruct inp; [|simpl in Hn; lia].
    cbn [split_regex_from words_from]. now apply filter_words_piece.
  - destruct inp as [|c inp]; [cbn [split_regex_from words_from];
                               now apply filter_words_piece|].
    cbn [length] in Hn. cbn [split_regex_from words_from].
    rewrite spacesPattern_match. destruct (isWhiteSpace c) eqn:Ec.
    + rewrite (take_drop isWhiteSpace inp) at 1.
      rewrite app_comm_cons, consumed_app. cbn [app].
      pose proof (takeWhile_forallb isWhiteSpace inp) as Htw.
      pose proof (take_drop isWhiteSpace inp) as E.
      remember (takeWhile isWhiteSpace inp) as tw eqn:Etw.
      remember (dropWhile isWhiteSpace inp) as dw eqn:Edw.
      rewrite E, split_regex_from_skip, (words_from_spaces _ _ Htw).
      assert (filter_words (split_regex_from spacesPattern [] 0 dw)
              = Normal (words_from [] dw)) as K.
      { apply IH; [|reflexivity].
        apply (f_equal (@length _)) in E. rewrite length_app in E. lia. }
      assert (filter_words
                (VStr (c :: tw) :: split_regex_from spacesPattern [] 0 dw)
              = Normal (words_from [] dw)) as K2.
      { rewrite (filter_words_cons _ _ _ K), trim_spaces; [reflexivity|].
        cbn [forallb]. now rewrite Ec. }
      rewrite (filter_words_piece _ _ _ Hacc K2). now destruct acc.
    + apply IH; [lia|]. rewrite forallb_app, Hacc. cbn [forallb].
      now rewrite Ec.
Qed.

Section CasingFacts.

Variable toUpperCase toLowerCase : jsstring -> jsstring.

(** X6: [sentenceCase] on a text that is not empty ends with a space.  The
    pattern of line 36 finds the sentences of the text, one after the other
    and all of it, and then the empty string at the end of the text: the
    result is the sentences, each trimmed and cased, joined with spaces, and
    one space more for the empty match. *)
Theorem sentenceCase_trailing_space :
  forall (c : char) (text : jsstring),
    exists chunks,
      chunks <> [] /\ Forall sentence chunks /\ concat chunks = c :: text
      /\ sentenceCase toUpperCase toLowerCase (c :: text)
         = join (js " ") (map (sentence_cased toUpperCase toLowerCase) chunks)
             ++ js " ".
Proof.
  intros c text.
  destruct (match_all_sentences (length (c :: text)) (c :: text) (le_n _))
    as (chunks & Hall & Hcat & Hm).
  exists chunks. split; [intros ->; discriminate|].
  split; [assumption|]. split; [assumption|].
  unfold sentenceCase. rewrite Hm, map_app, join_app.
  destruct chunks as [|s chunks]; [discriminate|].
  cbn [map]. reflexivity.
Qed.

(** X7: [titleCase] returns the words of the text, its maximal runs of
    characters that are no white space, joined with one space each: white
    space at the ends goes and every run of it inside becomes one space.  A
    word that begins with a letter of [a-zA-Z] gets that letter in upper case
    and the rest in lower case; any other word stays as it is, its capitals
    included.  Nothing is thrown. *)
Theorem titleCase_words :
  forall (text : jsstring),
    titleCase toUpperCase toLowerCase text
    = Normal (join (js " ")
                (map (fun word =>
                        match word with
                        | [] => []
                        | c :: rest =>
                            if isAsciiLetter c
                            then toUpperCase [c] ++ toLowerCase rest
                            else word
                        end) (words text))).
Proof.
  intros [|c text]; [reflexivity|]. unfold titleCase, split_regex, words.
  rewrite (split_words _ _ [] (le_n _) eq_refl). cbn [bind]. do 2 f_equal.
  apply map_ext. intros [|x w]; [reflexivity|].
  unfold title_cased, charAt. rewrite slice_tail.
  cbn [length Nat.eqb nth_error existsb]. now rewrite orb_false_r.
Qed.

End CasingFacts.

(** * Rounding *)

Lemma inject_Z_pos (z : Z) : (0 < z)%Z -> (0 < inject_Z z)%Q.
Proof. intros H. rewrite Zlt_Qlt in H. exact H. Qed.

Lemma pow2_pos (e : Z) : (0 < 2 ^ e)%Q.
Proof. now apply Qpower_0_lt. Qed.

Lemma pow2_succ (e : Z) : (2 ^ (e + 1) == 2 * 2 ^ e)%Q.
Proof. rewrite Qpower_plus by discriminate. change (2 ^ 1)%Q with 2%Q. ring. Qed.

Lemma pow2_add (e f : Z) : (2 ^ (e + f) == 2 ^ e * 2 ^ f)%Q.
Proof. now apply Qpower_plus. Qed.

Lemma pow2_Z (e : Z) : (0 <= e)%Z -> inject_Z (2 ^ e) == (2 ^ e)%Q.
Proof. intros H. now rewrite Zpower_Qpower. Qed.

(** The ratio that [scaled] returns. *)
Lemma scaled_value (a b e : Z) :
  (0 < b)%Z ->
  (0 < snd (scaled 2 a b e))%Z
  /\ inject_Z (fst (scaled 2 a b e)) * 2 ^ e * inject_Z b
     == inject_Z a * inject_Z (snd (scaled 2 a b e)).
Proof.
  intros Hb. unfold scaled. destruct (Z.leb_spec 0 e) as [He|He]; cbn [fst snd].
  - split; [apply Z.mul_pos_pos; [assumption|now apply Z.pow_pos_nonneg]|].
    rewrite inject_Z_mult, pow2_Z by assumption. ring.
  - split; [assumption|].
    rewrite inject_Z_mult, pow2_Z by lia. rewrite Qpower_opp.
    field. intros K. pose proof (pow2_pos e). lra.
Qed.

Lemma nearest_even_bounds (n d : Z) :
  (0 < d)%Z ->
  (2 * n - d <= 2 * d * nearest_even n d <= 2 * n + d)%Z
  /\ (n / d <= nearest_even n d <= n / d + 1)%Z.
Proof.
  intros Hd. unfold nearest_even.
  pose proof (Z.div_mod n d) as E. pose proof (Z.mod_pos_bound n d Hd) as R.
  assert (n = d * (n / d) + n mod d)%Z as E' by (apply E; lia). clear E.
  set (q := (n / d)%Z) in *. set (r := (n mod d)%Z) in *.
  destruct (Z.ltb_spec d (2 * r)) as [H|H]; cbn [orb].
  - split; nia.
  - destruct (Z.eqb_spec (2 * r) d) as [H2|H2]; cbn [andb].
    + destruct (Z.odd q); split; nia.
    + split; nia.
Qed.

Lemma nearest_even_exact (k d : Z) :
  (0 < d)%Z -> nearest_even (k * d) d = k.
Proof.
  intros Hd. unfold nearest_even.
  rewrite Z.div_mul, Z.mod_mul by lia.
  destruct (Z.ltb_spec d (2 * 0)); [lia|].
  destruct (Z.eqb_spec (2 * 0) d); [lia|]. reflexivity.
Qed.

Lemma pow2_le (e f : Z) : (e <= f)%Z -> (2 ^ e <= 2 ^ f)%Q.
Proof.
  intros H. replace f with (e + (f - e))%Z by lia. rewrite pow2_add.
  assert (1 <= 2 ^ (f - e))%Q as K.
  { rewrite <- pow2_Z by lia. change 1%Q with (inject_Z 1). rewrite <- Zle_Qle.
    pose proof (Z.pow_pos_nonneg 2 (f - e)). lia. }
  pose proof (pow2_pos e). nra.
Qed.

Lemma pow2_lt (e f : Z) : (e < f)%Z -> (2 ^ e < 2 ^ f)%Q.
Proof.
  intros H. pose proof (pow2_le (e + 1) f ltac:(lia)) as K.
  rewrite pow2_succ in K. pose proof (pow2_pos e). lra.
Qed.

Lemma ratio_le (x y n d : Q) :
  (0 < d)%Q -> (0 <= x)%Q -> (n * x == y * d)%Q ->
  ((d <= n)%Q -> (x <= y)%Q) /\ ((n < d)%Q -> (0 < x)%Q -> (y < x)%Q).
Proof.
  intros Hd Hx E. split.
  - intros H. apply (Qmult_le_r _ _ d Hd). rewrite <- E. nra.
  - intros H Hx'. apply (Qmult_lt_r _ _ d Hd). rewrite <- E. nra.
Qed.

(** The whole part of the binary logarithm of a ratio. *)
Lemma ilog2_spec (a b : Z) :
  (0 < a)%Z -> (0 < b)%Z ->
  let e := ilog 2 Z.log2 a b in
  (2 ^ e * inject_Z b <= inject_Z a)%Q /\ (inject_Z a < 2 ^ (e + 1) * inject_Z b)%Q.
Proof.
  intros Ha Hb. unfold ilog.
  pose proof (Z.log2_spec a Ha) as [La La']. pose proof (Z.log2_spec b Hb) as [Lb Lb'].
  pose proof (Z.log2_nonneg a) as Na. pose proof (Z.log2_nonneg b) as Nb.
  rewrite Zle_Qle in La, Lb. rewrite Zlt_Qlt in La', Lb'.
  rewrite Z.pow_succ_r in La', Lb' by assumption.
  rewrite inject_Z_mult in La', Lb'.
  rewrite pow2_Z in La, Lb, La', Lb' by assumption.
  set (la := Z.log2 a) in *. set (lb := Z.log2 b) in *.
  pose proof (scaled_value a b (la - lb) Hb) as [Hd Hv].
  destruct (scaled 2 a b (la - lb)) as [n d]. cbn [fst snd] in *.
  assert (2 ^ la == 2 ^ (la - lb) * 2 ^ lb)%Q as P
      by (rewrite <- pow2_add; now replace (la - lb + lb)%Z with la by lia).
  pose proof (pow2_pos (la - lb)) as P0. pose proof (pow2_pos lb) as P1.
  pose proof (inject_Z_pos b Hb) as B. pose proof (inject_Z_pos d Hd) as D.
  pose proof (inject_Z_pos a Ha) as A.
  change (inject_Z 2) with 2%Q in *.
  assert (0 < 2 ^ (la - lb) * inject_Z b)%Q as X by nra.
  destruct (ratio_le (2 ^ (la - lb) * inject_Z b) (inject_Z a) (inject_Z n)
              (inject_Z d) D ltac:(lra) ltac:(rewrite <- Hv; ring)) as [K1 K2].
  destruct (Z.leb_spec d n) as [H|H].
  - rewrite Zle_Qle in H. split; [now apply K1|].
    rewrite pow2_succ. nra.
  - rewrite Zlt_Qlt in H. replace (la - lb - 1 + 1)%Z with (la - lb)%Z by lia.
    assert (2 ^ (la - lb) == 2 * 2 ^ (la - lb - 1))%Q as P2
        by (rewrite <- pow2_succ; now replace (la - lb - 1 + 1)%Z with (la - lb)%Z by lia).
    pose proof (pow2_pos (la - lb - 1)) as P3.
    split; [|now apply K2]. nra.
Qed.

Lemma dyadic_value (M E : Z) : dyadic M E == inject_Z M * 2 ^ E.
Proof.
  unfold dyadic. pose proof (scaled_value 1 1 E ltac:(lia)) as [Hd Hv].
  destruct (scaled 2 1 1 E) as [n d]. cbn [fst snd] in *.
  rewrite Qred_correct.
  pose proof (pow2_pos E) as P. pose proof (inject_Z_pos d Hd) as D.
  assert (0 < n)%Z as Hn.
  { rewrite Zlt_Qlt. change (inject_Z 1) with 1%Q in Hv.
    destruct (Qlt_le_dec 0 (inject_Z n)) as [K|K]; [exact K|]. nra. }
  rewrite Qmake_Qdiv, Z2Pos.id, inject_Z_mult by assumption.
  pose proof (inject_Z_pos n Hn) as N. change (inject_Z 1) with 1%Q in Hv.
  field_simplify_eq; [|lra].
  assert (inject_Z d == inject_Z n * 2 ^ E) as -> by lra. ring.
Qed.

(** A ratio below 2^1023 rounds to a double [M * 2^E], not further from it
    than half of [2^E]. *)
Lemma round_ratio_spec (a b : Z) :
  (0 < a)%Z -> (0 < b)%Z ->
  let e := ilog 2 Z.log2 a b in
  let E := Z.max (e - 52) (-1074) in
  (e <= 1022)%Z ->
  exists M,
    round_ratio a b = dFin (dyadic M E)
    /\ M = nearest_even (fst (scaled 2 a b E)) (snd (scaled 2 a b E))
    /\ (2 * (inject_Z M * 2 ^ E * inject_Z b - inject_Z a) <= 2 ^ E * inject_Z b)%Q
    /\ (2 * (inject_Z a - inject_Z M * 2 ^ E * inject_Z b) <= 2 ^ E * inject_Z b)%Q.
Proof.
  intros Ha Hb e E He. unfold round_ratio. fold e. fold E.
  pose proof (ilog2_spec a b Ha Hb) as [L1 L2]. fold e in L1, L2.
  pose proof (scaled_value a b E Hb) as [Hd Hv].
  destruct (scaled 2 a b E) as [n d]. cbn [fst snd] in *.
  pose proof (nearest_even_bounds n d Hd) as [[B1 B2] [B3 B4]].
  set (M := nearest_even n d) in *. exists M.
  pose proof (pow2_pos E) as P. pose proof (inject_Z_pos d Hd) as D.
  pose proof (inject_Z_pos b Hb) as B. pose proof (inject_Z_pos a Ha) as A.
  assert (2 * n <= 2 * d * M + d)%Z as B1' by lia. clear B1.
  rewrite Zle_Qle in B1', B2.
  rewrite ?inject_Z_plus in B1', B2. rewrite ?inject_Z_mult in B1', B2.
  change (inject_Z 2) with 2%Q in *.
  assert (inject_Z n < inject_Z (2 ^ 53) * inject_Z d)%Q as Hn.
  { apply (Qmult_lt_r _ _ (2 ^ E * inject_Z b)); [nra|].
    assert (2 ^ (e + 1) <= 2 ^ 53 * 2 ^ E)%Q as K
        by (rewrite <- pow2_add; apply pow2_le; lia).
    rewrite pow2_Z by lia.
    assert (inject_Z n * (2 ^ E * inject_Z b) == inject_Z a * inject_Z d)%Q as ->
        by (rewrite <- Hv; ring).
    assert (inject_Z a * inject_Z d < 2 ^ (e + 1) * inject_Z b * inject_Z d)%Q
      as K1 by (apply Qmult_lt_r; assumption).
    assert (2 ^ (e + 1) * (inject_Z b * inject_Z d)
            <= 2 ^ 53 * 2 ^ E * (inject_Z b * inject_Z d))%Q
      as K2 by (apply Qmult_le_compat_r; [assumption|nra]).
    lra. }
  rewrite <- inject_Z_mult, <- Zlt_Qlt in Hn.
  assert (n / d < 2 ^ 53)%Z as Hq by (apply Z.div_lt_upper_bound; lia).
  assert (Z.log2 M <= 53)%Z as HM.
  { change 53%Z with (Z.log2 (2 ^ 53)). apply Z.log2_le_mono. lia. }
  destruct (Z.leb_spec 1024 (Z.log2 M + E)) as [H|H]; [lia|].
  split; [reflexivity|]. split; [reflexivity|].
  assert (0 < 2 ^ E * inject_Z b)%Q as PB by nra.
  assert (inject_Z a * inject_Z d == inject_Z n * (2 ^ E * inject_Z b))%Q as K
      by (rewrite <- Hv; ring).
  set (X := (2 ^ E * inject_Z b)%Q) in *.
  split.
  - apply (Qmult_le_r _ _ (inject_Z d) D).
    assert ((2 * inject_Z d * inject_Z M) * X <= (2 * inject_Z n + inject_Z d) * X)%Q
      as K1 by (apply Qmult_le_compat_r; lra).
    assert (inject_Z M * 2 ^ E * inject_Z b == inject_Z M * X)%Q as -> by (unfold X; ring).
    lra.
  - apply (Qmult_le_r _ _ (inject_Z d) D).
    assert ((2 * inject_Z n - inject_Z d) * X <= (2 * inject_Z d * inject_Z M) * X)%Q
      as K1 by (apply Qmult_le_compat_r; lra).
    assert (inject_Z M * 2 ^ E * inject_Z b == inject_Z M * X)%Q as -> by (unfold X; ring).
    lra.
Qed.

Lemma scaled_nonpos (a b E : Z) :
  (E <= 0)%Z -> scaled 2 a b E = ((a * 2 ^ (- E))%Z, b).
Proof.
  intros H. unfold scaled. destruct (Z.leb_spec 0 E) as [K|K]; [|reflexivity].
  replace E with 0%Z by lia. cbn [Z.opp]. now rewrite Z.pow_0_r, !Z.mul_1_r.
Qed.

Lemma ilog2_small (a b : Z) :
  (0 < a < 2 ^ 53)%Z -> (0 < b)%Z ->
  let e := ilog 2 Z.log2 a b in
  (e <= 52)%Z /\ (b < 2 ^ (53 - e))%Z.
Proof.
  intros [Ha Ha'] Hb e. pose proof (ilog2_spec a b Ha Hb) as [L1 _]. fold e in L1.
  pose proof (inject_Z_pos b Hb) as B.
  rewrite Zlt_Qlt, pow2_Z in Ha' by lia.
  assert (e <= 52)%Z as He.
  { destruct (Z.le_gt_cases e 52) as [K|K]; [exact K|exfalso].
    pose proof (pow2_le 53 e ltac:(lia)) as P.
    assert (inject_Z 1 <= inject_Z b)%Q as B1 by (rewrite <- Zle_Qle; lia).
    change (inject_Z 1) with 1%Q in B1. pose proof (pow2_pos e). nra. }
  split; [exact He|]. rewrite Zlt_Qlt, pow2_Z by lia.
  apply (Qmult_lt_r _ _ (2 ^ e)); [apply pow2_pos|].
  rewrite <- pow2_add. replace (53 - e + e)%Z with 53%Z by lia. lra.
Qed.

(** The floor of a rounded ratio is the floor of the ratio, as long as the
    numerator has no more than 53 bits. *)
Lemma round_ratio_floor (a b : Z) :
  (0 < a < 2 ^ 53)%Z -> (0 < b)%Z ->
  exists v, round_ratio a b = dFin v /\ Qfloor v = (a / b)%Z.
Proof.
  intros Ha Hb. pose proof (ilog2_small a b Ha Hb) as [He Hb'].
  destruct (round_ratio_spec a b ltac:(lia) Hb ltac:(lia)) as (M & -> & HM & _).
  set (e := ilog 2 Z.log2 a b) in *. set (E := Z.max (e - 52) (-1074)) in *.
  exists (dyadic M E). split; [reflexivity|].
  assert (E <= 0)%Z as HE by lia.
  rewrite scaled_nonpos in HM by assumption. cbn [fst snd] in HM.
  unfold dyadic. rewrite scaled_nonpos by assumption.
  rewrite (Qfloor_comp _ _ (Qred_correct _)). rewrite Z.mul_1_l, Z.mul_1_r.
  unfold Qfloor. set (k := (- E)%Z) in *.
  assert (0 <= k)%Z as Hk by lia.
  pose proof (Z.pow_pos_nonneg 2 k ltac:(lia) Hk) as P.
  rewrite Z2Pos.id by assumption.
  pose proof (nearest_even_bounds (a * 2 ^ k) b Hb) as [[_ B2] [B3 _]].
  rewrite <- HM in B2, B3.
  pose proof (Z.div_mod a b ltac:(lia)) as D.
  pose proof (Z.mod_pos_bound a b Hb) as R.
  set (A := (a / b)%Z) in *. set (r := (a mod b)%Z) in *.
  assert (A * 2 ^ k <= M)%Z as Lo.
  { apply Z.le_trans with (a * 2 ^ k / b)%Z; [|exact B3].
    apply Z.div_le_lower_bound; nia. }
  assert (b < 2 ^ (k + 1) * (b - r))%Z as Cond.
  { destruct (Z.max_spec (e - 52) (-1074)) as [[_ K]|[_ K]]; fold E in K.
    - (* clamped *)
      destruct (Z.lt_ge_cases b (2 ^ (k + 1))) as [Hlt|Hge]; [nia|].
      assert (2 ^ 54 <= 2 ^ (k + 1))%Z as P54 by (apply Z.pow_le_mono_r; lia).
      assert (A = 0)%Z as A0 by (apply Z.div_small; lia).
      assert (r = a) by nia. nia.
    - replace (k + 1)%Z with (53 - e)%Z by lia. nia. }
  assert (M < (A + 1) * 2 ^ k)%Z as Hi.
  { rewrite Z.pow_add_r, Z.pow_1_r in Cond by lia. nia. }
  symmetry. apply Z.div_unique with (M - A * 2 ^ k)%Z; lia.
Qed.

Lemma round_floor (q : Q) :
  (0 <= Qnum q < 2 ^ 53)%Z ->
  Math_floor (round q) = dFin (inject_Z (Qfloor q)).
Proof.
  intros H. unfold round, Qfloor. destruct q as [[|a|a] b]; cbn [Qnum Qden] in *.
  - reflexivity.
  - destruct (round_ratio_floor (Z.pos a) (Z.pos b)) as (v & -> & Hv); [lia..|].
    cbn [Math_floor]. now rewrite Hv.
  - lia.
Qed.

(** Integers of at most 53 bits are doubles. *)
Lemma round_integer (n : Z) :
  (0 <= n < 2 ^ 53)%Z ->
  exists v, round (inject_Z n) = dFin v /\ v == inject_Z n.
Proof.
  intros H. unfold round, inject_Z. cbn [Qnum Qden].
  destruct n as [|a|a]; [now exists 0%Q| |lia].
  pose proof (ilog2_small (Z.pos a) 1 ltac:(lia) ltac:(lia)) as [He _].
  destruct (round_ratio_spec (Z.pos a) 1 ltac:(lia) ltac:(lia) ltac:(lia))
    as (M & -> & HM & _).
  set (e := ilog 2 Z.log2 (Z.pos a) 1) in *. set (E := Z.max (e - 52) (-1074)) in *.
  exists (dyadic M E). split; [reflexivity|].
  assert (E <= 0)%Z as HE by lia.
  rewrite scaled_nonpos in HM by assumption. cbn [fst snd] in HM.
  rewrite <- (Z.mul_1_r (Z.pos a * 2 ^ (- E))) in HM.
  rewrite nearest_even_exact in HM by lia. subst M.
  rewrite dyadic_value, inject_Z_mult, pow2_Z by lia.
  change (Z.pos a # 1) with (inject_Z (Z.pos a)).
  rewrite <- Qmult_assoc, <- pow2_add. replace (- E + E)%Z with 0%Z by lia.
  change (2 ^ 0)%Q with 1%Q. ring.
Qed.

(** From 2^53 on the doubles stay above 2^53. *)
Lemma round_large (n : Z) :
  (2 ^ 53 <= n)%Z ->
  round (inject_Z n) = dInf false
  \/ exists v, round (inject_Z n) = dFin v /\ (inject_Z (2 ^ 53) <= v)%Q.
Proof.
  intros H. unfold round, inject_Z. cbn [Qnum Qden].
  destruct n as [|a|a]; [lia| |lia].
  pose proof (ilog2_spec (Z.pos a) 1 ltac:(lia) ltac:(lia)) as [L1 L2].
  unfold round_ratio.
  set (e := ilog 2 Z.log2 (Z.pos a) 1) in *. set (E := Z.max (e - 52) (-1074)) in *.
  assert (53 <= e)%Z as He.
  { destruct (Z.le_gt_cases 53 e) as [K|K]; [exact K|exfalso].
    pose proof (pow2_le (e + 1) 53 ltac:(lia)) as P.
    rewrite Zle_Qle, pow2_Z in H by lia. change (inject_Z 1) with 1%Q in L2. lra. }
  assert (E = e - 52)%Z as HE by lia.
  unfold scaled. destruct (Z.leb_spec 0 E) as [K|K]; [|lia].
  rewrite Z.mul_1_l.
  pose proof (Z.pow_pos_nonneg 2 E ltac:(lia) K) as P.
  pose proof (nearest_even_bounds (Z.pos a) (2 ^ E) P) as [_ [B3 _]].
  set (M := nearest_even (Z.pos a) (2 ^ E)) in *.
  destruct (1024 <=? Z.log2 M + E)%Z; [now left|right].
  exists (dyadic M E). split; [reflexivity|].
  rewrite dyadic_value.
  assert (2 ^ 52 <= M)%Z as HM.
  { apply Z.le_trans with (Z.pos a / 2 ^ E)%Z; [|exact B3].
    apply Z.div_le_lower_bound; [assumption|]. rewrite <- Z.pow_add_r by lia.
    rewrite Zle_Qle, pow2_Z by lia. change (inject_Z 1) with 1%Q in L1.
    replace (E + 52)%Z with e by lia. lra. }
  rewrite Zle_Qle, pow2_Z in HM by lia.
  change (2 ^ 53 # 1) with (inject_Z (2 ^ 53)). rewrite pow2_Z by lia.
  assert (2 ^ 53 == 2 ^ 52 * 2 ^ 1)%Q as -> by reflexivity.
  pose proof (pow2_le 1 E ltac:(lia)) as P1. pose proof (pow2_pos 52) as P52.
  change (2 ^ 1)%Q with 2%Q in *.
  assert (2 ^ 52 * 2 ^ E <= inject_Z M * 2 ^ E)%Q
    by (apply Qmult_le_compat_r; [assumption|apply Qlt_le_weak, pow2_pos]).
  nra.
Qed.

(** A ratio below [len * (1 - 2^-53)] does not round up to [len]. *)
Lemma round_ratio_below (a b len : Z) :
  (0 < a)%Z -> (0 < b)%Z -> (0 < len < 2 ^ 1000)%Z ->
  (a * 2 ^ 53 <= len * (2 ^ 53 - 1) * b)%Z ->
  exists v, round_ratio a b = dFin v /\ (0 <= v)%Q /\ (v < inject_Z len)%Q.
Proof.
  intros Ha Hb Hlen Hr.
  pose proof (ilog2_spec a b Ha Hb) as [L1 L2].
  set (e := ilog 2 Z.log2 a b) in *.
  pose proof (inject_Z_pos b Hb) as B. pose proof (inject_Z_pos a Ha) as A.
  pose proof (inject_Z_pos len ltac:(lia)) as L.
  rewrite Zle_Qle, !inject_Z_mult in Hr.
  change (inject_Z (2 ^ 53 - 1)) with (inject_Z (2 ^ 53) - 1)%Q in Hr.
  rewrite pow2_Z in Hr by lia.
  assert (inject_Z len < 2 ^ 1000)%Q as L'
      by (rewrite <- pow2_Z by lia; rewrite <- Zlt_Qlt; lia).
  assert (e <= 1022)%Z as He.
  { destruct (Z.le_gt_cases e 1022) as [K|K]; [exact K|exfalso].
    pose proof (pow2_le 1000 e ltac:(lia)) as P.
    pose proof (pow2_pos 53) as P53.
    assert (inject_Z a * 2 ^ 53 < inject_Z len * 2 ^ 53 * inject_Z b)%Q by nra.
    assert (inject_Z a < inject_Z len * inject_Z b)%Q
      by (apply (Qmult_lt_r _ _ (2 ^ 53) P53); lra).
    assert (2 ^ 1000 * inject_Z b <= 2 ^ e * inject_Z b)%Q
      by (apply Qmult_le_compat_r; lra).
    nra. }
  destruct (round_ratio_spec a b Ha Hb He) as (M & -> & HM & B1 & _).
  fold e in HM, B1. set (E := Z.max (e - 52) (-1074)) in *.
  exists (dyadic M E). split; [reflexivity|]. rewrite dyadic_value.
  pose proof (pow2_pos E) as PE. pose proof (pow2_pos 53) as P53.
  assert (0 <= M)%Z as M0.
  { pose proof (scaled_value a b E Hb) as [Hd Hv].
    pose proof (nearest_even_bounds (fst (scaled 2 a b E)) (snd (scaled 2 a b E)) Hd)
      as [_ [B3 _]].
    rewrite <- HM in B3. apply Z.le_trans with (2 := B3).
    apply Z.div_pos; [|assumption].
    rewrite Zle_Qle.
    destruct (Qlt_le_dec (inject_Z (fst (scaled 2 a b E))) 0) as [K|K]; [|exact K].
    pose proof (inject_Z_pos _ Hd). exfalso.
    assert (0 < 2 ^ E * inject_Z b)%Q by nra.
    assert (inject_Z (fst (scaled 2 a b E)) * (2 ^ E * inject_Z b) < 0)%Q by nra.
    nra. }
  rewrite Zle_Qle in M0. change (inject_Z 0) with 0%Q in M0.
  split; [apply Qmult_le_0_compat; lra|].
  (* the unit of the rounding is less than [len * 2^-52] *)
  assert (2 ^ E * 2 ^ 53 * inject_Z b < 2 * (inject_Z len * inject_Z b))%Q as U.
  { destruct (Z.max_spec (e - 52) (-1074)) as [[_ K]|[_ K]]; fold E in K.
    - rewrite K.
      assert (2 ^ (-1074) * 2 ^ 53 <= 1)%Q as P by (rewrite <- pow2_add; now cbn).
      assert (2 ^ (-1074) * 2 ^ 53 * inject_Z b <= 1 * inject_Z b)%Q
        by (apply Qmult_le_compat_r; lra).
      assert (inject_Z 1 <= inject_Z len)%Q as L1' by (rewrite <- Zle_Qle; lia).
      change (inject_Z 1) with 1%Q in L1'. nra.
    - assert (2 ^ E * 2 ^ 53 == 2 * 2 ^ e)%Q as ->.
      { rewrite <- pow2_add, <- pow2_succ. now replace (E + 53)%Z with (e + 1)%Z by lia. }
      assert (inject_Z a * 2 ^ 53 < inject_Z len * 2 ^ 53 * inject_Z b)%Q by nra.
      assert (inject_Z a < inject_Z len * inject_Z b)%Q
        by (apply (Qmult_lt_r _ _ (2 ^ 53) P53); lra).
      lra. }
  apply (Qmult_lt_r _ _ (inject_Z b * (2 * 2 ^ 53))); [nra|].
  assert (2 * (inject_Z M * 2 ^ E * inject_Z b) * 2 ^ 53
          <= (2 * inject_Z a + 2 ^ E * inject_Z b) * 2 ^ 53)%Q as K1
      by (apply Qmult_le_compat_r; lra).
  lra.
Qed.

(** * Numerals *)

Lemma log2_div10 (n : N) : 10 <= n -> N.log2 (n / 10) < N.log2 n.
Proof.
  intros H. apply N.log2_lt_pow2.
  - apply N.div_str_pos. lia.
  - pose proof (N.log2_spec n ltac:(lia)) as [L1 L2].
    apply N.Div0.div_lt_upper_bound. rewrite N.pow_succ_r' in L2. lia.
Qed.

Lemma numeral_fuel_spec (fuel : nat) :
  forall n acc, (N.to_nat (N.log2 n) < fuel)%nat ->
    numeral_fuel fuel n acc = numeral n ++ acc.
Proof.
  induction fuel as [fuel IH] using lt_wf_ind. intros n acc Hf.
  destruct fuel as [|f]; [lia|]. unfold numeral. cbn [numeral_fuel].
  destruct (N.ltb_spec n 10) as [H|H]; [reflexivity|].
  pose proof (log2_div10 n H) as L.
  rewrite (IH f) by lia. rewrite (IH (N.to_nat (N.log2 n))) by lia.
  now rewrite <- app_assoc.
Qed.

Lemma numeral_small (n : N) : n < 10 -> numeral n = [48 + n].
Proof.
  intros H. unfold numeral. cbn [numeral_fuel].
  destruct (N.ltb_spec n 10); [|lia]. now rewrite N.mod_small.
Qed.

Lemma numeral_step (n : N) :
  10 <= n -> numeral n = numeral (n / 10) ++ [48 + n mod 10].
Proof.
  intros H. unfold numeral at 1. cbn [numeral_fuel].
  destruct (N.ltb_spec n 10); [lia|].
  apply numeral_fuel_spec. pose proof (log2_div10 n H). lia.
Qed.

Lemma numeral_ind (P : N -> Prop) :
  (forall n, n < 10 -> P n) ->
  (forall n, 10 <= n -> P (n / 10) -> P n) ->
  forall n, P n.
Proof.
  intros H0 H1 n. pattern n. apply (well_founded_induction N.lt_wf_0).
  clear n. intros n IH.
  destruct (N.lt_ge_cases n 10) as [H|H]; [now apply H0|].
  apply H1; [assumption|]. apply IH. apply N.Div0.div_lt_upper_bound. lia.
Qed.

Lemma numeral_digits (n : N) : all_of Digit (numeral n) /\ numeral n <> [].
Proof.
  induction n as [n H|n H [IH1 IH2]] using numeral_ind.
  - rewrite numeral_small by assumption. split; [|discriminate].
    unfold all_of. cbn [forallb cmatch]. unfold isDigit.
    destruct (N.leb_spec 48 (48 + n)); [|lia].
    destruct (N.leb_spec (48 + n) 57); [reflexivity|lia].
  - rewrite numeral_step by assumption. split.
    + unfold all_of in *. rewrite forallb_app, IH1. cbn [forallb cmatch andb].
      unfold isDigit. pose proof (N.mod_upper_bound n 10 ltac:(lia)).
      generalize dependent (n mod 10). intros r Hr.
      destruct (N.leb_spec 48 (48 + r)); [|lia].
      destruct (N.leb_spec (48 + r) 57); [reflexivity|lia].
    + intros E. now apply app_eq_nil in E as [_ E].
Qed.

Lemma radix_value_app (ds : jsstring) (d : N) :
  d < 10 -> radix_value 10 (ds ++ [48 + d]) = radix_value 10 ds * 10 + d.
Proof.
  intros H. unfold radix_value. rewrite fold_left_app. cbn [fold_left].
  f_equal. unfold digit_of, isDigit.
  destruct (N.leb_spec 48 (48 + d)); [|lia].
  destruct (N.leb_spec (48 + d) 57); [|lia]. cbn [andb].
  replace (48 + d - 48) with d by lia.
  destruct (N.ltb_spec d 10); [reflexivity|lia].
Qed.

(** The numeral of a number reads back as the number. *)
Lemma decimal_numeral (n : N) : decimal (numeral n) = n.
Proof.
  unfold decimal. induction n as [n H|n H IH] using numeral_ind.
  - rewrite numeral_small by assumption.
    change [48 + n] with ([] ++ [48 + n]). now rewrite radix_value_app.
  - rewrite numeral_step by assumption.
    rewrite radix_value_app by (apply N.mod_upper_bound; lia). rewrite IH.
    pose proof (N.div_mod n 10 ltac:(lia)) as D.
    generalize dependent (n mod 10). generalize dependent (n / 10). lia.
Qed.

Lemma numeral_mul10 (n : N) : 0 < n -> numeral (n * 10) = numeral n ++ js "0".
Proof.
  intros H. rewrite numeral_step by lia.
  now rewrite N.div_mul, N.Div0.mod_mul by lia.
Qed.

Lemma numeral_zeros (n : N) (t : nat) :
  0 < n -> numeral (n * 10 ^ N.of_nat t) = numeral n ++ repeat 48 t.
Proof.
  intros H. induction t as [|t IH].
  - cbn [repeat]. now rewrite N.mul_1_r, app_nil_r.
  - rewrite Nat2N.inj_succ, N.pow_succ_r', (N.mul_comm 10), N.mul_assoc.
    rewrite numeral_mul10 by (apply N.mul_pos_pos; [assumption|];
                              apply N.neq_0_lt_0, N.pow_nonzero; lia).
    rewrite IH, <- app_assoc. f_equal.
    change (js "0") with (repeat 48 1%nat).
    rewrite <- repeat_app. f_equal. lia.
Qed.

(** * The decimal logarithm *)

Lemma log10_fuel_spec (fuel : nat) :
  forall n, (0 < n)%Z -> (Z.log2 n <= Z.of_nat fuel)%Z ->
    (0 <= log10_fuel fuel n)%Z
    /\ (10 ^ log10_fuel fuel n <= n < 10 ^ (log10_fuel fuel n + 1))%Z.
Proof.
  induction fuel as [|f IH]; intros n Hn Hf; cbn [log10_fuel].
  - assert (n < 2 ^ 1)%Z by (apply Z.log2_lt_pow2; lia).
    change (2 ^ 1)%Z with 2%Z in *. split; [lia|]. cbn. lia.
  - destruct (Z.ltb_spec n 10) as [H|H]; [split; [lia|cbn; lia]|].
    assert (0 < n / 10)%Z as Hq by (apply Z.div_str_pos; lia).
    assert (Z.log2 (n / 10) < Z.log2 n)%Z as L.
    { apply Z.log2_lt_pow2; [assumption|].
      pose proof (Z.log2_spec n Hn) as [L1 L2].
      apply Z.div_lt_upper_bound; [lia|].
      rewrite Z.pow_succ_r in L2 by apply Z.log2_nonneg. lia. }
    destruct (IH (n / 10)%Z Hq ltac:(lia)) as [I0 [I1 I2]].
    set (l := log10_fuel f (n / 10)) in *.
    split; [lia|].
    replace (1 + l + 1)%Z with (Z.succ (l + 1)) by lia.
    replace (1 + l)%Z with (Z.succ l) by lia.
    rewrite !Z.pow_succ_r by lia.
    pose proof (Z.div_mod n 10 ltac:(lia)).
    pose proof (Z.mod_pos_bound n 10 ltac:(lia)). lia.
Qed.

Lemma log10_spec (n : Z) :
  (0 < n)%Z ->
  (0 <= log10 n)%Z /\ (10 ^ log10 n <= n < 10 ^ (log10 n + 1))%Z.
Proof.
  intros H. apply log10_fuel_spec; [assumption|].
  rewrite Z2Nat.id by apply Z.log2_nonneg. lia.
Qed.

(** * [toString] on the integers of at most 53 bits *)

Lemma decimal_Q_integer (s t : Z) :
  (0 <= t)%Z -> decimal_Q s t = inject_Z (s * 10 ^ t).
Proof.
  intros H. unfold decimal_Q, scaled. destruct (Z.leb_spec 0 t); [|lia].
  now rewrite Z.mul_1_l.
Qed.

Lemma reads_back_integer (n s t : Z) :
  (0 < n < 2 ^ 53)%Z -> (0 <= s)%Z -> (0 <= t)%Z ->
  reads_back (inject_Z n) s t = (s * 10 ^ t =? n)%Z.
Proof.
  intros Hn Hs Ht. unfold reads_back. rewrite decimal_Q_integer by assumption.
  assert (0 <= s * 10 ^ t)%Z as Hv by (apply Z.mul_nonneg_nonneg; lia).
  set (v := (s * 10 ^ t)%Z) in *.
  destruct (Z.lt_ge_cases v (2 ^ 53)) as [H|H].
  - destruct (round_integer v ltac:(lia)) as (w & -> & Hw). cbn [d_eq].
    destruct (Z.eqb_spec v n) as [->|Hne].
    + now apply Qeq_bool_iff.
    + destruct (Qeq_bool w (inject_Z n)) eqn:E; [|reflexivity].
      apply Qeq_bool_iff in E. rewrite Hw in E.
      unfold Qeq, inject_Z in E. cbn [Qnum Qden] in E. lia.
  - destruct (Z.eqb_spec v n) as [->|_]; [lia|].
    destruct (round_large v H) as [->|(w & -> & Hw)]; [reflexivity|]. cbn [d_eq].
    destruct (Qeq_bool w (inject_Z n)) eqn:E; [|reflexivity].
    apply Qeq_bool_iff in E. rewrite E in Hw. rewrite <- Zle_Qle in Hw. lia.
Qed.

Lemma shortest_eq (fuel : nat) (q : Q) (n k : Z) :
  shortest (S fuel) q n k =
  let t := (n - k)%Z in
  let lo := Qfloor (q / decimal_Q 1 t)%Q in
  let hi := (lo + 1)%Z in
  match reads_back q lo t, reads_back q hi t with
  | true, true =>
      match (q - decimal_Q lo t ?= decimal_Q hi t - q)%Q with
      | Lt => (lo, k)
      | Gt => (hi, k)
      | Eq => if Z.even lo then (lo, k) else (hi, k)
      end
  | true, false => (lo, k)
  | false, true => (hi, k)
  | false, false => shortest fuel q n (k + 1)
  end.
Proof. reflexivity. Qed.

Lemma shortest_integer (n D : Z) :
  (0 < n < 2 ^ 53)%Z -> D = (log10 n + 1)%Z ->
  forall fuel k, (1 <= k <= D)%Z -> (D - k < Z.of_nat fuel)%Z ->
    exists s k', shortest fuel (inject_Z n) D k = (s, k')
                 /\ (k <= k' <= D)%Z /\ (s * 10 ^ (D - k') = n)%Z /\ (0 < s)%Z.
Proof.
  intros Hn HD. pose proof (log10_spec n ltac:(lia)) as [L0 [L1 L2]].
  induction fuel as [|f IH]; intros k Hk Hf; [lia|].
  rewrite shortest_eq. cbv zeta. set (t := (D - k)%Z).
  assert (0 <= t)%Z as Ht by lia.
  pose proof (Z.pow_pos_nonneg 10 t ltac:(lia) Ht) as P.
  rewrite decimal_Q_integer, Z.mul_1_l, <- Zdiv_Qdiv by assumption.
  pose proof (Z.div_mod n (10 ^ t) ltac:(lia)) as Dm.
  pose proof (Z.mod_pos_bound n (10 ^ t) P) as Rm.
  assert (10 ^ t <= 10 ^ log10 n)%Z as Pt by (apply Z.pow_le_mono_r; lia).
  assert (1 <= n / 10 ^ t)%Z as Lo by (apply Z.div_le_lower_bound; lia).
  set (lo := (n / 10 ^ t)%Z) in *.
  rewrite !reads_back_integer by lia.
  destruct (Z.eqb_spec ((lo + 1) * 10 ^ t) n) as [E|_]; [nia|].
  destruct (Z.eqb_spec (lo * 10 ^ t) n) as [E|E].
  - exists lo, k. repeat split; try lia. exact E.
  - assert (k < D)%Z as Hk'.
    { destruct (Z.eq_dec k D) as [->|]; [|lia]. exfalso. apply E.
      unfold t in *. rewrite Z.sub_diag in *. change (10 ^ 0)%Z with 1%Z in *. lia. }
    destruct (IH (k + 1)%Z ltac:(lia) ltac:(lia)) as (s & k' & -> & K1 & K2 & K3).
    exists s, k'. repeat split; try lia.
Qed.

Lemma log10_one : log10 1 = 0%Z.
Proof. reflexivity. Qed.

Lemma ilog10_integer (n : Z) : (0 < n)%Z -> ilog 10 log10 n 1 = log10 n.
Proof.
  intros H. pose proof (log10_spec n H) as [L0 [L1 _]].
  unfold ilog. rewrite log10_one, Z.sub_0_r. unfold scaled.
  destruct (Z.leb_spec 0 (log10 n)); [|lia]. rewrite Z.mul_1_l.
  destruct (Z.leb_spec (10 ^ log10 n) n); [reflexivity|lia].
Qed.

Lemma toString_natural (n : Z) :
  (0 <= n < 2 ^ 53)%Z -> toString (dlit n) = numeral (Z.to_N n).
Proof.
  intros Hn. destruct (Z.eq_dec n 0) as [->|H0]; [reflexivity|].
  unfold toString, dlit, is_zero, is_negative. cbn [inject_Z Qnum].
  destruct (Z.eqb_spec n 0); [lia|]. destruct (Z.ltb_spec n 0); [lia|].
  unfold toString_positive, inject_Z. cbn [Qnum Qden].
  rewrite ilog10_integer by lia.
  pose proof (log10_spec n ltac:(lia)) as [L0 [L1 L2]].
  assert (log10 n < 16)%Z as L16.
  { apply (Z.pow_lt_mono_r_iff 10); [lia|lia|].
    apply Z.le_lt_trans with (1 := L1). apply Z.lt_trans with (2 ^ 53)%Z; [lia|].
    reflexivity. }
  destruct (shortest_integer n (log10 n + 1) ltac:(lia) eq_refl 17 1
              ltac:(lia) ltac:(lia)) as (s & k & E & Hk & Hs & Hs0).
  change (n # 1) with (inject_Z n). rewrite E.
  set (D := (log10 n + 1)%Z) in *.
  assert (0 < 10 ^ (D - k))%Z as P by (apply Z.pow_pos_nonneg; lia).
  assert (s < 10 ^ k)%Z as Hsk.
  { apply (Z.mul_lt_mono_pos_r (10 ^ (D - k))); [assumption|].
    rewrite <- Z.pow_add_r by lia. replace (k + (D - k))%Z with D by lia.
    rewrite Hs. exact L2. }
  destruct (Z.eqb_spec s (10 ^ k)); [lia|].
  unfold notation. destruct (Z.leb_spec k D); [|lia].
  destruct (Z.leb_spec D 21); [|lia]. cbn [andb].
  rewrite <- Hs. unfold zeros.
  rewrite Z2N.inj_mul, Z2N.inj_pow by lia. change (Z.to_N 10) with 10.
  rewrite <- (Z_N_nat (D - k)). symmetry.
  rewrite <- (N2Nat.id (Z.to_N (D - k))) at 1. apply numeral_zeros. lia.
Qed.

(** * Arithmetic on whole Numbers *)

Lemma Qred_inject_Z (z : Z) : Qred (inject_Z z) = inject_Z z.
Proof.
  unfold Qred, inject_Z.
  pose proof (Z.ggcd_correct_divisors z 1) as D.
  pose proof (Z.ggcd_gcd z 1) as G. rewrite Z.gcd_1_r in G.
  destruct (Z.ggcd z 1) as [g [aa bb]]. cbn [fst snd] in *. subst g.
  destruct D as [D1 D2]. rewrite Z.mul_1_l in D1, D2. now subst.
Qed.

Lemma dyadic_integer (M E n : Z) : dyadic M E == inject_Z n -> dyadic M E = inject_Z n.
Proof.
  intros H. unfold dyadic in *. destruct (scaled 2 1 1 E) as [x y].
  rewrite <- (Qred_inject_Z n). apply Qred_complete.
  now rewrite Qred_correct in H.
Qed.

Lemma round_natural (n : Z) : (0 <= n < 2 ^ 53)%Z -> round (inject_Z n) = dlit n.
Proof.
  intros H. unfold round, inject_Z. cbn [Qnum Qden].
  destruct n as [|a|a]; [reflexivity| |lia].
  pose proof (ilog2_small (Z.pos a) 1 ltac:(lia) ltac:(lia)) as [He _].
  destruct (round_ratio_spec (Z.pos a) 1 ltac:(lia) ltac:(lia) ltac:(lia))
    as (M & -> & HM & _).
  set (e := ilog 2 Z.log2 (Z.pos a) 1) in *. set (E := Z.max (e - 52) (-1074)) in *.
  unfold dlit. f_equal. apply dyadic_integer.
  assert (E <= 0)%Z as HE by lia.
  rewrite scaled_nonpos in HM by assumption. cbn [fst snd] in HM.
  rewrite <- (Z.mul_1_r (Z.pos a * 2 ^ (- E))) in HM.
  rewrite nearest_even_exact in HM by lia. subst M.
  rewrite dyadic_value, inject_Z_mult, pow2_Z by lia.
  rewrite <- Qmult_assoc, <- pow2_add. replace (- E + E)%Z with 0%Z by lia.
  change (2 ^ 0)%Q with 1%Q. ring.
Qed.

Lemma round_whole (n : Z) : (- 2 ^ 53 < n < 2 ^ 53)%Z -> round (inject_Z n) = dlit n.
Proof.
  intros H. destruct n as [|a|a]; [reflexivity|apply round_natural; lia|].
  pose proof (round_natural (Z.pos a) ltac:(lia)) as K.
  unfold round, inject_Z in *. cbn [Qnum Qden] in *. now rewrite K.
Qed.

Lemma d_lt_dlit (a b : Z) : d_lt (dlit a) (dlit b) = (a <? b)%Z.
Proof.
  unfold d_lt, dlit, Qcompare, inject_Z, Z.ltb. cbn [Qnum Qden].
  now rewrite !Z.mul_1_r.
Qed.

Lemma d_eq_dlit (a b : Z) : d_eq (dlit a) (dlit b) = (a =? b)%Z.
Proof.
  unfold d_eq, dlit, Qeq_bool, inject_Z. cbn [Qnum Qden].
  now rewrite !Z.mul_1_r.
Qed.

(** Division by a literal, with the floor taken. *)
Lemma floor_div_natural (n : Z) (c : positive) :
  (0 <= n < 2 ^ 53)%Z ->
  Math_floor (d_div (dlit n) (dlit (Z.pos c))) = dlit (n / Z.pos c).
Proof.
  intros H. unfold d_div, dlit, is_zero. cbn [inject_Z Qnum Z.eqb].
  rewrite round_floor.
  - unfold dlit. do 2 f_equal. unfold Qfloor, Qdiv, Qmult, Qinv, inject_Z.
    cbn [Qnum Qden]. now rewrite Z.mul_1_r.
  - unfold Qdiv, Qmult, Qinv, inject_Z. cbn [Qnum Qden]. lia.
Qed.

(** The remainder of a natural number by a literal. *)
Lemma rem_natural (n : Z) (c : positive) :
  (0 <= n)%Z -> d_rem (dlit n) (dlit (Z.pos c)) = dlit (n mod Z.pos c).
Proof.
  intros H. unfold d_rem, dlit, is_zero. cbn [inject_Z Qnum Z.eqb].
  f_equal. rewrite <- (Qred_inject_Z (n mod Z.pos c)). apply Qred_complete.
  unfold truncate_Q, is_negative, Qdiv, Qmult, Qinv, inject_Z. cbn [Qnum Qden].
  rewrite Z.mul_1_r. destruct (Z.ltb_spec n 0); [lia|].
  unfold Qfloor. cbn [Qnum Qden].
  change (Z.pos (1 * c)) with (Z.pos c).
  unfold Qeq, Qminus, Qplus, Qopp, Qmult, inject_Z. cbn [Qnum Qden].
  pose proof (Z.div_mod n (Z.pos c) ltac:(lia)). lia.
Qed.

Lemma round_natural_id (n : Z) : Math_round (dlit n) = dlit n.
Proof.
  unfold Math_round, dlit. do 2 f_equal.
  unfold Qfloor, Qplus, inject_Z. cbn [Qnum Qden].
  change (Z.pos (1 * 2)) with 2%Z. 
  replace (n * 2 + 1 * 1)%Z with (1 + n * 2)%Z by lia.
  rewrite Z.div_add by lia. reflexivity.
Qed.

Lemma padded_natural (n : Z) :
  (0 <= n < 2 ^ 53)%Z ->
  padded (dlit n)
  = if (n <? 10)%Z then js "0" ++ numeral (Z.to_N n) else numeral (Z.to_N n).
Proof. intros H. unfold padded. now rewrite d_lt_dlit, toString_natural. Qed.

(** * [videoLength] and [humanizeSeconds] *)

Lemma numeral_two (x : N) : x < 100 ->
  (if x <? 10 then js "0" ++ numeral x else numeral x) = two_digits x.
Proof.
  intros H. unfold two_digits. destruct (N.ltb_spec x 10) as [K|K].
  - rewrite numeral_small, N.div_small, N.mod_small by assumption. reflexivity.
  - rewrite numeral_step by assumption.
    rewrite numeral_small by (apply N.Div0.div_lt_upper_bound; lia). reflexivity.
Qed.

Lemma padded_two (x : N) :
  x < 100 -> padded (dlit (Z.of_N x)) = two_digits x.
Proof.
  intros H. rewrite padded_natural by (split; [lia|];
    apply Z.lt_trans with 100%Z; [lia|reflexivity]).
  rewrite N2Z.id, <- (numeral_two x H).
  destruct (Z.ltb_spec (Z.of_N x) 10), (N.ltb_spec x 10); try reflexivity; lia.
Qed.

(** The parts of a length of [n] seconds. *)
Lemma videoLength_parts (n : N) :
  n < 2 ^ 53 ->
  let z := Z.of_N n in
  Math_floor (d_div (dlit z) (dlit 3600)) = dlit (Z.of_N (n / 3600))
  /\ Math_floor (d_div (d_rem (dlit z) (dlit 3600)) (dlit 60))
     = dlit (Z.of_N (n mod 3600 / 60))
  /\ Math_round (d_rem (dlit z) (dlit 60)) = dlit (Z.of_N (n mod 60)).
Proof.
  intros H z.
  assert (0 <= z < 2 ^ 53)%Z as Hz.
  { unfold z. split; [lia|]. change (2 ^ 53)%Z with (Z.of_N (2 ^ 53)). lia. }
  rewrite !rem_natural by lia. rewrite round_natural_id.
  rewrite !floor_div_natural.
  - unfold z. now rewrite !N2Z.inj_div, !N2Z.inj_mod.
  - pose proof (Z.mod_pos_bound z 3600 ltac:(lia)). split; [lia|].
    apply Z.lt_trans with 3600%Z; [lia|reflexivity].
  - exact Hz.
Qed.

Lemma of_N_small (x : N) : x < 2 ^ 53 -> (0 <= Z.of_N x < 2 ^ 53)%Z.
Proof.
  intros H. split; [lia|]. change (2 ^ 53)%Z with (Z.of_N (2 ^ 53)). lia.
Qed.

Lemma videoLength_text (n : N) :
  n < 2 ^ 53 ->
  videoLength (dlit (Z.of_N n))
  = (if n / 3600 =? 0 then [] else numeral (n / 3600) ++ js ":")
      ++ two_digits (n mod 3600 / 60) ++ js ":" ++ two_digits (n mod 60).
Proof.
  intros H. unfold videoLength.
  destruct (videoLength_parts n H) as (-> & -> & ->).
  assert (n mod 3600 / 60 < 100) as Hm.
  { apply N.Div0.div_lt_upper_bound.
    pose proof (N.mod_upper_bound n 3600 ltac:(lia)) as K.
    generalize dependent (n mod 3600). lia. }
  assert (n mod 60 < 100) as Hs.
  { pose proof (N.mod_upper_bound n 60 ltac:(lia)) as K.
    generalize dependent (n mod 60). lia. }
  rewrite !padded_two by assumption.
  assert (n / 3600 < 2 ^ 53) as Hh.
  { apply N.le_lt_trans with (2 := H). apply N.Div0.div_le_upper_bound.
    generalize dependent (2 ^ 53). lia. }
  rewrite d_eq_dlit, toString_natural, N2Z.id by now apply of_N_small.
  destruct (N.eqb_spec (n / 3600) 0) as [->|K]; [reflexivity|].
  destruct (Z.eqb_spec (Z.of_N (n / 3600)) 0); [lia|].
  cbn [negb app]. now rewrite <- !app_assoc.
Qed.

(** X8: for a whole number of seconds below 2^53 [videoLength] writes the
    minutes and the seconds with two digits each, and before them the hours
    when there is one at least. *)
Theorem videoLength_clock :
  forall n : N, n < 2 ^ 53 ->
    videoLength (dlit (Z.of_N n))
    = (if n / 3600 =? 0 then [] else numeral (n / 3600) ++ js ":")
        ++ two_digits (n mod 3600 / 60) ++ js ":" ++ two_digits (n mod 60).
Proof. exact videoLength_text. Qed.

Lemma videoLength_clock_witness :
  videoLength (dlit 3930) = js "1:05:30".
Proof. exact (videoLength_clock 3930 eq_refl). Defined.

Lemma decimal_two (x : N) : x < 100 -> decimal (two_digits x) = x.
Proof.
  intros H. rewrite <- numeral_two by assumption.
  destruct (N.ltb_spec x 10); [|apply decimal_numeral].
  rewrite numeral_small by assumption. unfold decimal, radix_value.
  cbn [app js map list_ascii_of_string fold_left].
  change (digit_of 10 (js_char "0")) with (Some 0).
  pose proof (radix_value_app [] x ltac:(lia)) as K.
  unfold radix_value in K. cbn [app fold_left] in K.
  cbn [N.mul N.add]. exact K.
Qed.

Lemma two_digits_digits (x : N) : x < 100 -> digits (two_digits x).
Proof.
  intros H. rewrite <- numeral_two by assumption.
  destruct (N.ltb_spec x 10); [|split; apply numeral_digits].
  split; [discriminate|]. unfold all_of. cbn [app js map list_ascii_of_string forallb].
  apply (proj1 (numeral_digits x)).
Qed.

(** X9: [convertToSeconds] reads back what [videoLength] writes: for a whole
    number of seconds below 2^53 the text of [videoLength] parses to that
    number. *)
Theorem convertToSeconds_videoLength :
  forall n : N, n < 2 ^ 53 ->
    convertToSeconds (videoLength (dlit (Z.of_N n))) = Int false n.
Proof.
  intros n H. rewrite videoLength_text by assumption.
  assert (n mod 3600 / 60 < 100) as Hm.
  { apply N.Div0.div_lt_upper_bound.
    pose proof (N.mod_upper_bound n 3600 ltac:(lia)) as K.
    generalize dependent (n mod 3600). lia. }
  assert (n mod 60 < 100) as Hs.
  { pose proof (N.mod_upper_bound n 60 ltac:(lia)) as K.
    generalize dependent (n mod 60). lia. }
  pose proof (two_digits_digits _ Hm) as [Dm1 Dm2].
  pose proof (two_digits_digits _ Hs) as [Ds1 Ds2].
  pose proof (numeral_digits (n / 3600)) as [Dh2 Dh1].
  assert (n = n / 3600 * 3600 + n mod 3600 / 60 * 60 + n mod 60) as E.
  { pose proof (N.div_mod n 3600 ltac:(lia)) as E1.
    pose proof (N.div_mod (n mod 3600) 60 ltac:(lia)) as E2.
    assert (n mod 60 = (n mod 3600) mod 60) as E3.
    { replace 3600 with (60 * 60) by reflexivity.
      rewrite N.Div0.mod_mul_r.
      rewrite (N.mul_comm 60 ((n / 60) mod 60)), N.Div0.mod_add.
      now rewrite N.Div0.mod_mod. }
    rewrite E3.
    generalize dependent (n mod 3600 mod 60). generalize dependent (n mod 3600 / 60).
    generalize dependent (n mod 3600). generalize dependent (n / 3600). lia. }
  unfold convertToSeconds.
  destruct (N.eqb_spec (n / 3600) 0) as [Eh|Eh].
  - cbn [app]. rewrite split_two by now apply digits_no_colon.
    cbn [map length Nat.eqb nth]. rewrite !parseInt_digits by assumption.
    rewrite !decimal_two by assumption.
    rewrite Eh in E. cbn [N.mul N.add] in E.
    rewrite !of_integer_small by
      (generalize dependent (n mod 60); generalize dependent (n mod 3600 / 60); lia).
    unfold lit. rewrite mul_small, add_small by
      (generalize dependent (n mod 60); generalize dependent (n mod 3600 / 60); lia).
    now rewrite <- E.
  - rewrite <- app_assoc. rewrite split_three by now apply digits_no_colon.
    cbn [map length Nat.eqb nth]. rewrite !parseInt_digits by assumption.
    rewrite !decimal_two by assumption. rewrite decimal_numeral.
    generalize dependent (n mod 60). generalize dependent (n mod 3600 / 60).
    generalize dependent (n / 3600). intros h _ _ _ m _ _ _ s _ _ _ E.
    rewrite !of_integer_small by lia. unfold lit.
    rewrite !mul_small by lia. rewrite !add_small by lia. now rewrite <- E.
Qed.

Lemma convertToSeconds_videoLength_witness :
  convertToSeconds (videoLength (dlit 3930)) = Int false 3930.
Proof. exact (convertToSeconds_videoLength 3930 eq_refl). Defined.

Lemma Qfloor_unique (x : Q) (z : Z) :
  (inject_Z z <= x)%Q -> (x < inject_Z (z + 1))%Q -> Qfloor x = z.
Proof.
  intros H1 H2. pose proof (Qfloor_le x) as F1. pose proof (Qlt_floor x) as F2.
  assert (inject_Z (Qfloor x) < inject_Z (z + 1))%Q as K1 by lra.
  assert (inject_Z z < inject_Z (Qfloor x + 1))%Q as K2 by lra.
  rewrite <- Zlt_Qlt in K1, K2. lia.
Qed.

Lemma truncate_Q_nonneg (q : Q) : (0 <= q)%Q -> truncate_Q q = Qfloor q.
Proof.
  intros H. unfold truncate_Q, is_negative.
  destruct (Z.ltb_spec (Qnum q) 0) as [K|K]; [|reflexivity].
  exfalso. unfold Qle in H. cbn [Qnum Qden] in H. lia.
Qed.

(** X10: [videoLength] rounds the seconds and floors the minutes, so it can
    show 60 seconds: when the seconds left over after the whole minutes are
    59.5 or more, the text ends with [:60]. *)
Theorem videoLength_sixty_seconds :
  forall q : Q,
    (0 <= q)%Q ->
    (119 # 2 <= q - 60 * inject_Z (Qfloor (q / 60)))%Q ->
    exists pre, videoLength (dFin q) = pre ++ js ":60".
Proof.
  intros q Hq H.
  assert (Math_round (d_rem (dFin q) (dlit 60)) = dlit 60) as Hs.
  { unfold d_rem, dlit, is_zero. cbn [inject_Z Qnum Z.eqb]. unfold Math_round.
    do 2 f_equal. change (60 # 1) with (inject_Z 60).
    rewrite truncate_Q_nonneg.
    - rewrite (Qfloor_comp _ (q - inject_Z 60 * inject_Z (Qfloor (q / inject_Z 60)) + (1 # 2)))
        by now rewrite Qred_correct.
      pose proof (Qlt_floor (q / inject_Z 60)) as F.
      rewrite inject_Z_plus in F. change (inject_Z 1) with 1%Q in F.
      change (inject_Z 60) with 60%Q in *.
      assert (q == q / 60 * 60)%Q as Eq by (field; discriminate).
      assert (q < 60 * (inject_Z (Qfloor (q / 60)) + 1))%Q as F' by lra.
      apply Qfloor_unique.
      + change (inject_Z 60) with 60%Q. lra.
      + change (inject_Z (60 + 1)) with 61%Q. lra.
    - apply Qle_shift_div_l; [reflexivity|]. lra. }
  unfold videoLength. rewrite Hs.
  change (padded (dlit 60)) with (js "60").
  destruct (negb _).
  - exists (toString (Math_floor (d_div (dFin q) (dlit 3600))) ++ js ":"
            ++ padded (Math_floor (d_div (d_rem (dFin q) (dlit 3600)) (dlit 60)))).
    now rewrite <- !app_assoc.
  - exists (padded (Math_floor (d_div (d_rem (dFin q) (dlit 3600)) (dlit 60)))).
    reflexivity.
Qed.

Lemma videoLength_sixty_seconds_witness :
  exists pre, videoLength (dFin (119 # 2)) = pre ++ js ":60".
Proof.
  apply (videoLength_sixty_seconds (119 # 2)).
  - discriminate.
  - vm_compute. discriminate.
Defined.

Lemma humanizeSeconds_formula (n : N) :
  n < 2 ^ 53 ->
  let h := n / 3600 in
  let m := n mod 3600 / 60 in
  humanizeSeconds (dlit (Z.of_N n))
  = join (js ", ")
      ((if 0 <? h
        then [numeral h ++ js " hour" ++ (if 1 <? h then js "s" else [])]
        else [])
       ++ (if 0 <? m
           then [numeral m ++ js " minute" ++ (if 1 <? m then js "s" else [])]
           else [])).
Proof.
  intros H h m. unfold humanizeSeconds.
  destruct (videoLength_parts n H) as (-> & -> & _). fold h. fold m.
  assert (h < 2 ^ 53) as Hh.
  { apply N.le_lt_trans with (2 := H). apply N.Div0.div_le_upper_bound.
    generalize dependent (2 ^ 53). lia. }
  assert (m < 2 ^ 53) as Hm.
  { apply N.lt_trans with 100; [|reflexivity]. apply N.Div0.div_lt_upper_bound.
    pose proof (N.mod_upper_bound n 3600 ltac:(lia)) as K.
    generalize dependent (n mod 3600). lia. }
  unfold counted. rewrite !d_lt_dlit.
  rewrite !toString_natural, !N2Z.id by now apply of_N_small.
  clearbody h m.
  destruct (Z.ltb_spec 0 (Z.of_N h)), (N.ltb_spec 0 h); try lia;
    destruct (Z.ltb_spec 1 (Z.of_N h)), (N.ltb_spec 1 h); try lia;
    destruct (Z.ltb_spec 0 (Z.of_N m)), (N.ltb_spec 0 m); try lia;
    destruct (Z.ltb_spec 1 (Z.of_N m)), (N.ltb_spec 1 m); try lia;
    reflexivity.
Qed.

(** X11: for a whole number of seconds below 2^53 [humanizeSeconds] names the
    whole hours and the whole minutes left over, each of them only when it is
    not zero and with an s when it is more than one; the seconds are dropped,
    so that less than a minute gives the empty string. *)
Theorem humanizeSeconds_parts :
  forall n : N, n < 2 ^ 53 ->
    let h := n / 3600 in
    let m := n mod 3600 / 60 in
    humanizeSeconds (dlit (Z.of_N n))
    = join (js ", ")
        ((if 0 <? h
          then [numeral h ++ js " hour" ++ (if 1 <? h then js "s" else [])]
          else [])
         ++ (if 0 <? m
             then [numeral m ++ js " minute" ++ (if 1 <? m then js "s" else [])]
             else []))
    /\ humanizeSeconds (dlit (Z.of_N (n mod 60))) = [].
Proof.
  intros n H h m. split; [now apply humanizeSeconds_formula|].
  pose proof (N.mod_upper_bound n 60 ltac:(lia)) as K.
  generalize dependent (n mod 60). intros s Hs.
  rewrite humanizeSeconds_formula by (apply N.lt_trans with 60; [assumption|reflexivity]).
  rewrite (N.mod_small s 3600) by lia. rewrite !N.div_small by lia. reflexivity.
Qed.

Lemma humanizeSeconds_parts_witness :
  humanizeSeconds (dlit 7320) = js "2 hours, 2 minutes"
  /\ humanizeSeconds (dlit 0) = [].
Proof. exact (humanizeSeconds_parts 7320 eq_refl). Defined.

(** * [truncate] *)

Lemma d_lt_fin (q : Q) (z : Z) :
  d_lt (dFin q) (dlit z) = true <-> (q < inject_Z z)%Q.
Proof.
  unfold d_lt, dlit. rewrite Qlt_alt. destruct (q ?= inject_Z z)%Q; split;
    congruence.
Qed.

Lemma truncate_Q_bounds (q : Q) :
  ((0 <= q)%Q -> (0 <= truncate_Q q)%Z /\ (inject_Z (truncate_Q q) <= q)%Q
                 /\ (q < inject_Z (truncate_Q q + 1))%Q)
  /\ ((q < 0)%Q -> (truncate_Q q <= 0)%Z).
Proof.
  split; intros H.
  - rewrite truncate_Q_nonneg by assumption.
    split; [|split; [apply Qfloor_le|apply Qlt_floor]].
    change 0%Z with (Qfloor 0). now apply Qfloor_resp_le.
  - unfold truncate_Q. destruct (is_negative q).
    + assert (0 <= Qfloor (- q))%Z; [|lia].
      change 0%Z with (Qfloor 0). apply Qfloor_resp_le. lra.
    + assert (Qfloor q <= Qfloor 0)%Z by (apply Qfloor_resp_le; lra).
      now change (Qfloor 0) with 0%Z in *.
Qed.

(** The index at which [truncate] cuts. *)
Lemma clamp_index_cut (len : nat) (M : double) :
  d_lt M (dlit (Z.of_nat len)) = true ->
  let c := clamp_index len M in
  (c <= len)%nat
  /\ forall k, d_lt M (dlit (Z.of_nat (c + S k))) = true
               /\ clamp_index (c + k) M = c.
Proof.
  intros H c. destruct M as [|s|q]; [discriminate| |].
  - cbn [d_lt dlit] in H. subst s. cbn in c. subst c.
    split; [lia|]. intros k. split; reflexivity.
  - apply d_lt_fin in H. unfold clamp_index in c.
    destruct (truncate_Q_bounds q) as [B1 B2].
    destruct (Qlt_le_dec q 0) as [Hneg|Hpos].
    + specialize (B2 Hneg). assert (c = 0%nat) as -> by (unfold c; lia).
      split; [lia|]. intros k. split.
      * apply d_lt_fin. assert (inject_Z 0 < inject_Z (Z.of_nat (0 + S k)))%Q
          by (rewrite <- Zlt_Qlt; lia). change (inject_Z 0) with 0%Q in *. lra.
      * unfold clamp_index. lia.
    + destruct (B1 Hpos) as (T0 & T1 & T2).
      assert (truncate_Q q < Z.of_nat len)%Z as T3
          by (rewrite Zlt_Qlt; lra).
      assert (c = Z.to_nat (truncate_Q q)) as Ec by (unfold c; lia).
      split; [lia|]. intros k. split.
      * apply d_lt_fin.
        assert (inject_Z (truncate_Q q + 1) <= inject_Z (Z.of_nat (c + S k)))%Q
          by (rewrite <- Zle_Qle; lia). lra.
      * unfold clamp_index. fold c. lia.
Qed.

Lemma substring_from_zero (s : jsstring) (M : double) :
  substring s (dlit 0) M = firstn (clamp_index (length s) M) s.
Proof.
  unfold substring. change (clamp_index (length s) (dlit 0)) with (Nat.min 0 (length s)).
  cbn [Nat.min]. now rewrite Nat.max_0_l, Nat.sub_0_r.
Qed.

(** X12: [truncate] is idempotent, whatever the limit is (a fraction, a
    negative number, an infinity, [NaN] or none at all): a text that has
    been truncated is longer than the limit by its three dots, and truncating
    it again cuts at the same place. *)
Theorem truncate_idempotent :
  forall (value : jsstring) (maxLength : option double),
    truncate (truncate value maxLength) maxLength = truncate value maxLength.
Proof.
  intros value maxLength. unfold truncate.
  set (M := match maxLength with Some x => x | None => dlit 50 end).
  destruct (d_lt M (dlit (Z.of_nat (length value)))) eqn:E; [|now rewrite E].
  destruct (clamp_index_cut _ _ E) as [Hc Hk].
  rewrite !substring_from_zero.
  set (c := clamp_index (length value) M) in *.
  assert (length (firstn c value ++ js "...") = (c + 3)%nat) as L
      by (rewrite length_app, length_firstn; cbn [length js map list_ascii_of_string]; lia).
  rewrite L. destruct (Hk 2%nat) as [-> _]. destruct (Hk 3%nat) as [_ ->].
  f_equal. rewrite firstn_app, length_firstn.
  replace (c - Nat.min c (length value))%nat with 0%nat by lia.
  cbn [firstn]. rewrite app_nil_r. rewrite firstn_firstn. f_equal. lia.
Qed.

(** X13: with a whole limit [m], [truncate] leaves a text of at most [m]
    characters as it is and turns a longer one into its first [m] characters
    and three dots: the result has [m + 3] characters, which is more than the
    text had when the text was only one or two characters over the limit. *)
Theorem truncate_length :
  forall (value : jsstring) (m : nat),
    truncate value (Some (dlit (Z.of_nat m)))
    = (if (m <? length value)%nat then firstn m value ++ js "..." else value)
    /\ length (truncate value (Some (dlit (Z.of_nat m))))
       = if (m <? length value)%nat then (m + 3)%nat else length value.
Proof.
  intros value m.
  assert (truncate value (Some (dlit (Z.of_nat m)))
          = if (m <? length value)%nat then firstn m value ++ js "..." else value)
    as E.
  { unfold truncate. rewrite d_lt_dlit, substring_from_zero.
    destruct (Nat.ltb_spec m (length value)), (Z.ltb_spec (Z.of_nat m) (Z.of_nat (length value)));
      try lia; [|reflexivity].
    unfold clamp_index, dlit. rewrite truncate_Q_nonneg
      by (change 0%Q with (inject_Z 0); rewrite <- Zle_Qle; lia).
    rewrite Qfloor_Z, Nat2Z.id. now rewrite Nat.min_l by lia. }
  split; [exact E|]. rewrite E.
  destruct (Nat.ltb_spec m (length value)); [|reflexivity].
  rewrite length_app, length_firstn. cbn [length js map list_ascii_of_string]. lia.
Qed.

(** * [numberWithCommas] *)

Lemma list_ind3 {A : Type} (P : list A -> Prop) :
  P [] -> (forall x, P [x]) -> (forall x y, P [x; y]) ->
  (forall x y z l, P l -> P (x :: y :: z :: l)) ->
  forall l, P l.
Proof.
  intros H0 H1 H2 H3.
  fix IH 1. intros [|x [|y [|z l]]];
    [exact H0|exact (H1 x)|exact (H2 x y)|exact (H3 x y z l (IH l))].
Qed.

Lemma no_digit_app (D rest : jsstring) :
  D <> [] -> no_digit (D ++ rest) = no_digit D.
Proof. destruct D; [congruence|reflexivity]. Qed.

Lemma triples_three (a b c : char) :
  isDigit a = true -> isDigit b = true -> isDigit c = true ->
  triples no_digit [a; b; c] = true.
Proof. intros Ha Hb Hc. cbn. now rewrite Ha, Hb, Hc. Qed.

(** Three digits more at the end of a run of digits do not change where the
    pattern matches inside the run. *)
Lemma triples_append3 (a b c : char) :
  isDigit a = true -> isDigit b = true -> isDigit c = true ->
  forall D, D <> [] -> triples no_digit (D ++ [a; b; c]) = triples no_digit D.
Proof.
  intros Ha Hb Hc D. induction D as [|x|x y|x y z l IH] using list_ind3; intros Hne.
  - congruence.
  - cbn. rewrite Hc. cbn. now rewrite !andb_false_r.
  - cbn. rewrite Hb. cbn. now rewrite !andb_false_r.
  - cbn [app triples]. destruct l as [|w l].
    + cbn [app]. rewrite (triples_three a b c) by assumption. reflexivity.
    + rewrite IH by discriminate. reflexivity.
Qed.

(** Nor does a decimal point and what follows it. *)
Lemma triples_point (F : jsstring) :
  forall D, triples no_digit (D ++ 46 :: F) = triples no_digit D.
Proof.
  intros D. induction D as [|x|x y|x y z l IH] using list_ind3.
  - destruct F as [|b [|c rest]]; reflexivity.
  - destruct F as [|c rest]; [reflexivity|]. cbn.
    now rewrite andb_false_r.
  - cbn. now rewrite andb_false_r.
  - cbn [app triples]. rewrite IH. destruct l; reflexivity.
Qed.

Lemma isWordChar_digit (c : char) : isDigit c = true -> isWordChar c = true.
Proof. intros H. unfold isWordChar. rewrite H. now rewrite orb_true_r. Qed.

Lemma commas_from_eq (prev : option char) (inp : jsstring) :
  commas_from prev inp =
  (if thousandsPattern prev inp then js "," else [])
  ++ match inp with
     | c :: inp' => c :: commas_from (Some c) inp'
     | [] => []
     end.
Proof. destruct inp; reflexivity. Qed.

Lemma commas_from_nil (prev : option char) : commas_from prev [] = [].
Proof.
  rewrite commas_from_eq. unfold thousandsPattern. cbn [triples].
  now rewrite andb_false_r.
Qed.

Lemma commas_from_append3 (a b c : char) :
  isDigit a = true -> isDigit b = true -> isDigit c = true ->
  forall D p, forallb isDigit D = true -> isDigit p = true ->
    commas_from (Some p) (D ++ [a; b; c])
    = commas_from (Some p) D ++ js "," ++ [a; b; c].
Proof.
  intros Ha Hb Hc D. induction D as [|d D IH]; intros p HD Hp.
  - rewrite commas_from_nil. cbn [app].
    rewrite commas_from_eq. unfold thousandsPattern, not_boundary.
    rewrite (isWordChar_digit _ Hp), (isWordChar_digit _ Ha).
    rewrite triples_three by assumption. cbn [Bool.eqb andb]. do 2 f_equal.
    rewrite commas_from_eq. unfold thousandsPattern. cbn [triples].
    rewrite andb_false_r. cbn [app]. f_equal.
    rewrite commas_from_eq. unfold thousandsPattern. cbn [triples].
    rewrite andb_false_r. cbn [app]. f_equal. apply commas_from_nil.
  - cbn [forallb] in HD. apply andb_true_iff in HD as [Hd HD].
    cbn [app]. rewrite (commas_from_eq _ (d :: D ++ [a; b; c])).
    rewrite (commas_from_eq _ (d :: D)).
    rewrite (IH d HD Hd). unfold thousandsPattern.
    change (d :: D ++ [a; b; c]) with ((d :: D) ++ [a; b; c]).
    rewrite triples_append3 by (assumption || discriminate).
    change (not_boundary (Some p) ((d :: D) ++ [a; b; c]))
      with (not_boundary (Some p) (d :: D)).
    now rewrite <- app_assoc.
Qed.

Lemma commas_digits (d : char) (D : jsstring) :
  isDigit d = true -> commas (d :: D) = d :: commas_from (Some d) D.
Proof.
  intros Hd. unfold commas. rewrite commas_from_eq.
  unfold thousandsPattern, not_boundary. now rewrite (isWordChar_digit _ Hd).
Qed.

Lemma commas_append3 (a b c : char) (D : jsstring) :
  isDigit a = true -> isDigit b = true -> isDigit c = true ->
  forallb isDigit D = true -> D <> [] ->
  commas (D ++ [a; b; c]) = commas D ++ js "," ++ [a; b; c].
Proof.
  intros Ha Hb Hc HD Hne. destruct D as [|d D]; [congruence|].
  cbn [forallb] in HD. apply andb_true_iff in HD as [Hd HD].
  cbn [app]. rewrite !commas_digits by assumption.
  now rewrite commas_from_append3.
Qed.

Lemma commas_short (D : jsstring) :
  forallb isDigit D = true -> (length D <= 3)%nat -> commas D = D.
Proof.
  intros HD Hl. destruct D as [|a [|b [|c [|d D]]]]; cbn [length] in Hl; try lia;
    cbn [forallb] in HD; repeat (apply andb_true_iff in HD as [? HD]);
    try reflexivity;
    rewrite commas_digits by assumption; f_equal;
    repeat (rewrite commas_from_eq; unfold thousandsPattern; cbn [triples];
            rewrite andb_false_r; cbn [app]; f_equal);
    apply commas_from_nil.
Qed.

Lemma three_digits_of (n : N) :
  1000 <= n -> numeral n = numeral (n / 1000) ++ three_digits (n mod 1000).
Proof.
  intros H.
  pose proof (N.div_mod n 1000 ltac:(lia)) as E.
  pose proof (N.mod_upper_bound n 1000 ltac:(lia)) as R.
  set (q := n / 1000) in *. set (r := n mod 1000) in *.
  pose proof (N.div_mod r 100 ltac:(lia)) as E1.
  pose proof (N.mod_upper_bound r 100 ltac:(lia)) as R1.
  pose proof (N.div_mod (r mod 100) 10 ltac:(lia)) as E2.
  pose proof (N.mod_upper_bound (r mod 100) 10 ltac:(lia)) as R2.
  set (a := r / 100) in *. set (bc := r mod 100) in *.
  set (b := bc / 10) in *. set (c := bc mod 10) in *.
  assert (a < 10) as Ha by (unfold a; apply N.Div0.div_lt_upper_bound; lia).
  assert (b < 10) as Hb by (unfold b; apply N.Div0.div_lt_upper_bound; lia).
  assert (three_digits r = [48 + a; 48 + b; 48 + c]) as ->.
  { unfold three_digits. fold a. do 2 f_equal.
    - f_equal. symmetry. apply (N.mod_unique _ _ a); lia || idtac.
      symmetry. apply (N.div_unique _ _ _ c); lia.
    - do 2 f_equal. symmetry. apply (N.mod_unique _ _ (10 * a + b)); lia. }
  assert (n mod 10 = c) as M0
      by (symmetry; apply (N.mod_unique _ _ (100 * q + 10 * a + b)); lia).
  assert (n / 10 = 100 * q + 10 * a + b) as D0
      by (symmetry; apply (N.div_unique _ _ _ c); lia).
  assert ((n / 10) mod 10 = b) as M1
      by (rewrite D0; symmetry; apply (N.mod_unique _ _ (10 * q + a)); lia).
  assert (n / 10 / 10 = 10 * q + a) as D1
      by (rewrite D0; symmetry; apply (N.div_unique _ _ _ b); lia).
  assert ((n / 10 / 10) mod 10 = a) as M2
      by (rewrite D1; symmetry; apply (N.mod_unique _ _ q); lia).
  assert (n / 10 / 10 / 10 = q) as D2
      by (rewrite D1; symmetry; apply (N.div_unique _ _ _ a); lia).
  rewrite (numeral_step n) by lia. rewrite (numeral_step (n / 10)) by lia.
  rewrite (numeral_step (n / 10 / 10)) by lia.
  rewrite M0, M1, M2, D2. now rewrite <- !app_assoc.
Qed.

Lemma three_digits_digits (r : N) :
  r < 1000 -> forallb isDigit (three_digits r) = true.
Proof.
  intros H. unfold three_digits. cbn [forallb]. unfold isDigit.
  assert (r / 100 < 10) by (apply N.Div0.div_lt_upper_bound; lia).
  pose proof (N.mod_upper_bound (r / 10) 10 ltac:(lia)).
  pose proof (N.mod_upper_bound r 10 ltac:(lia)).
  generalize dependent (r / 100). generalize dependent ((r / 10) mod 10).
  generalize dependent (r mod 10). intros c Hc b Hb a Ha.
  repeat match goal with
         | |- context [?x <=? ?y] => destruct (N.leb_spec x y); try lia
         end; try reflexivity.
Qed.

Lemma commas_minus (D : jsstring) : commas (js "-" ++ D) = js "-" ++ commas D.
Proof.
  unfold commas. cbn [app js map list_ascii_of_string].
  rewrite commas_from_eq. unfold thousandsPattern.
  assert (triples no_digit (js_char "-" :: D) = false) as ->
      by (destruct D as [|b [|c rest]]; reflexivity).
  rewrite andb_false_r. cbn [app]. f_equal.
  rewrite (commas_from_eq (Some _)), (commas_from_eq None). reflexivity.
Qed.

Lemma toString_negative (p : positive) :
  toString (dlit (Z.neg p)) = js "-" ++ toString (dlit (Z.pos p)).
Proof. reflexivity. Qed.

Lemma numberWithCommas_negative (n : N) :
  numberWithCommas (Some (dlit (- Z.of_N (N.succ n))))
  = option_map (fun s => js "-" ++ s)
      (numberWithCommas (Some (dlit (Z.of_N (N.succ n))))).
Proof.
  unfold numberWithCommas. cbn [option_map]. f_equal.
  destruct (N.succ n) as [|p] eqn:E; [lia|]. cbn [Z.of_N Z.opp].
  rewrite toString_negative. apply commas_minus.
Qed.

(** X14: [numberWithCommas] groups the digits of a whole number below 2^53
    by three from the right: below 1000 the number is printed as it is, and
    from 1000 on the result is the result for the thousands, a comma, and the
    three digits of the rest.  A negative whole number gets the commas of its
    absolute value after the minus sign, and [undefined] gives
    [undefined]. *)
Theorem numberWithCommas_thousands :
  forall n : N, n < 2 ^ 53 ->
    numberWithCommas (Some (dlit (Z.of_N n)))
    = (if n <? 1000 then Some (numeral n)
       else option_map (fun s => s ++ js "," ++ three_digits (n mod 1000))
              (numberWithCommas (Some (dlit (Z.of_N (n / 1000))))))
    /\ numberWithCommas (Some (dlit (- Z.of_N (N.succ n))))
       = option_map (fun s => js "-" ++ s)
           (numberWithCommas (Some (dlit (Z.of_N (N.succ n)))))
    /\ numberWithCommas None = None.
Proof.
  intros n H. split; [|split; [apply numberWithCommas_negative|reflexivity]].
  unfold numberWithCommas.
  rewrite toString_natural, N2Z.id by now apply of_N_small.
  destruct (N.ltb_spec n 1000) as [K|K].
  - f_equal. apply commas_short; [apply numeral_digits|].
    destruct (N.lt_ge_cases n 10) as [K1|K1];
      [rewrite numeral_small by assumption; cbn [length]; lia
      |rewrite numeral_step by assumption].
    destruct (N.lt_ge_cases (n / 10) 10) as [K2|K2];
      [rewrite numeral_small by assumption; cbn [length app]; lia
      |rewrite numeral_step by assumption].
    rewrite numeral_small; [cbn [length app]; lia|].
    apply N.Div0.div_lt_upper_bound, N.Div0.div_lt_upper_bound. lia.
  - assert (n / 1000 < 2 ^ 53) as Hq.
    { apply N.le_lt_trans with (2 := H). apply N.Div0.div_le_upper_bound.
      generalize dependent (2 ^ 53). lia. }
    rewrite toString_natural, N2Z.id by now apply of_N_small.
    cbn [option_map]. f_equal. rewrite three_digits_of by assumption.
    pose proof (N.mod_upper_bound n 1000 ltac:(lia)) as R.
    pose proof (three_digits_digits _ R) as T. unfold three_digits in *.
    cbn [forallb] in T. apply andb_true_iff in T as [Ta T].
    apply andb_true_iff in T as [Tb T]. apply andb_true_iff in T as [Tc _].
    apply commas_append3; try assumption; [apply numeral_digits|].
    apply numeral_digits.
Qed.

Lemma numberWithCommas_thousands_witness :
  numberWithCommas (Some (dlit 1234567)) = Some (js "1,234,567")
  /\ numberWithCommas (Some (dlit (-1234568))) = Some (js "-1,234,568")
  /\ numberWithCommas None = None.
Proof. exact (numberWithCommas_thousands 1234567 eq_refl). Defined.

Lemma commas_from_point (F : jsstring) :
  forall D prev, forallb isDigit D = true ->
    commas_from prev (D ++ 46 :: F) = commas_from prev D ++ 46 :: commas F.
Proof.
  intros D. induction D as [|d D IH]; intros prev HD.
  - rewrite commas_from_nil. cbn [app]. rewrite commas_from_eq.
    unfold thousandsPattern. pose proof (triples_point F []) as T.
    cbn [app] in T. rewrite T. cbn [triples].
    rewrite andb_false_r. cbn [app]. f_equal.
    unfold commas. rewrite (commas_from_eq (Some 46)), (commas_from_eq None).
    reflexivity.
  - cbn [forallb] in HD. apply andb_true_iff in HD as [Hd HD].
    cbn [app]. rewrite (commas_from_eq _ (d :: D ++ 46 :: F)).
    rewrite (commas_from_eq _ (d :: D)). rewrite (IH (Some d) HD).
    unfold thousandsPattern.
    change (d :: D ++ 46 :: F) with ((d :: D) ++ 46 :: F).
    rewrite triples_point.
    change (not_boundary prev ((d :: D) ++ 46 :: F))
      with (not_boundary prev (d :: D)).
    now rewrite <- app_assoc.
Qed.

(** X15: [numberWithCommas] puts commas into the fraction too.  When the
    text of the number is a run of digits, a decimal point and more text, the
    result is the digits before the point with their commas, the point, and
    the text after it with commas of its own, as if it were a number. *)
Theorem numberWithCommas_fraction :
  forall (x : double) (I F : jsstring),
    toString x = I ++ js "." ++ F -> all_of Digit I ->
    numberWithCommas (Some x) = Some (commas I ++ js "." ++ commas F).
Proof.
  intros x I F E HI. unfold numberWithCommas. rewrite E. f_equal.
  change (js "." ++ F) with (46 :: F).
  unfold commas at 1. now rewrite (commas_from_point F I None HI).
Qed.

Lemma numberWithCommas_fraction_witness :
  numberWithCommas (Some (round (12345678 # 10000))) = Some (js "1,234.5,678").
Proof.
  apply (numberWithCommas_fraction (round (12345678 # 10000)) (js "1234") (js "5678")).
  - vm_compute. reflexivity.
  - reflexivity.
Defined.

(** * [getBestThumbnail] *)

Lemma d_mul_whole (w h : Z) :
  (0 <= w < 2 ^ 26)%Z -> (0 <= h < 2 ^ 26)%Z ->
  d_mul (dlit w) (dlit h) = dlit (w * h).
Proof.
  intros Hw Hh. unfold d_mul, dlit.
  change (inject_Z w * inject_Z h)%Q with (inject_Z (w * h)).
  apply round_natural. split; [nia|].
  apply Z.lt_le_trans with (2 ^ 26 * 2 ^ 26)%Z; [nia|]. discriminate.
Qed.

Lemma d_sub_whole (p r : Z) :
  (0 <= p < 2 ^ 53)%Z -> (0 <= r < 2 ^ 53)%Z ->
  d_sub (dlit p) (dlit r) = dlit (p - r).
Proof.
  intros Hp Hr. unfold d_sub, dlit.
  assert ((inject_Z p - inject_Z r)%Q = inject_Z (p - r)) as ->.
  { unfold Qminus, Qplus, Qopp, inject_Z. cbn [Qnum Qden]. f_equal. lia. }
  apply round_whole. lia.
Qed.

Lemma pixels_whole (image : Image) (w h : Z) :
  width image = dlit w -> height image = dlit h -> pixels image = (w * h)%Z.
Proof.
  intros Ew Eh. unfold pixels. rewrite Ew, Eh. unfold whole, dlit.
  now rewrite !Qfloor_Z.
Qed.

(** The comparator of line 277 on images of whole sizes. *)
Lemma by_area_spec (a b : Image) :
  whole_sized a -> whole_sized b ->
  d_lt (dlit 0) (by_area a b) = (pixels a <? pixels b)%Z.
Proof.
  intros (wa & ha & Hwa & Hha & Ewa & Eha) (wb & hb & Hwb & Hhb & Ewb & Ehb).
  rewrite (pixels_whole a wa ha), (pixels_whole b wb hb) by assumption.
  unfold by_area. rewrite Ewa, Eha, Ewb, Ehb.
  rewrite !d_mul_whole by assumption.
  assert (forall x y, 0 <= x < 2 ^ 26 -> 0 <= y < 2 ^ 26 -> 0 <= x * y < 2 ^ 53)%Z
    as B.
  { intros x y Hx Hy. split; [nia|].
    apply Z.lt_le_trans with (2 ^ 26 * 2 ^ 26)%Z; [nia|]. discriminate. }
  rewrite d_sub_whole by now apply B. rewrite d_lt_dlit.
  destruct (Z.ltb_spec 0 (wb * hb - wa * ha)), (Z.ltb_spec (wa * ha) (wb * hb));
    try reflexivity; lia.
Qed.

(** The head of a stable sort by falling key: the first of the elements
    whose key is the largest. *)
Lemma sort_head {A : Type} (compare : A -> A -> double) (key : A -> Z)
    (l : list A) :
  (forall x y, In x l -> In y l ->
     d_lt (dlit 0) (compare x y) = (key x <? key y)%Z) ->
  l <> [] ->
  exists pre best post tail,
    l = pre ++ best :: post /\ sort compare l = best :: tail
    /\ (forall i, In i pre -> (key i < key best)%Z)
    /\ (forall i, In i post -> (key i <= key best)%Z).
Proof.
  induction l as [|x l IH]; intros Hc Hne; [congruence|].
  destruct l as [|y l].
  - exists [], x, [], []. repeat split; intros i [].
  - destruct IH as (pre & best & post & tail & E & Es & Hpre & Hpost);
      [intros a b Ha Hb; apply Hc; now right|discriminate|].
    cbn [sort fold_right] in *. rewrite Es. cbn [insert_sorted].
    rewrite Hc; [|now left|right; rewrite E; apply in_elt].
    destruct (Z.ltb_spec (key x) (key best)) as [K|K].
    + exists (x :: pre), best, post, (insert_sorted compare x tail).
      rewrite E. repeat split; [|assumption].
      intros i [<-|Hi]; [assumption|now apply Hpre].
    + exists [], x, (y :: l), (best :: tail). repeat split; [intros i []|].
      intros i Hi. rewrite E in Hi. apply in_app_or in Hi as [Hi|[<-|Hi]].
      * specialize (Hpre i Hi). lia.
      * assumption.
      * specialize (Hpost i Hi). lia.
Qed.

Lemma filter_decompose {A : Type} (f : A -> bool) (l fpre fpost : list A)
    (a : A) :
  filter f l = fpre ++ a :: fpost ->
  exists pre post, l = pre ++ a :: post /\ filter f pre = fpre
                   /\ filter f post = fpost /\ f a = true.
Proof.
  intros E. assert (f a = true) as Ha.
  { assert (In a (filter f l)) as K by (rewrite E; apply in_elt).
    now apply filter_In in K. }
  destruct (filter_split f l fpre fpost a E) as (pre & post & -> & Hpost).
  exists pre, post. repeat split; try assumption.
  rewrite filter_app in E. cbn [filter] in E. rewrite Ha, Hpost in E.
  now apply app_inv_tail in E.
Qed.

Lemma filter_nil_existsb {A : Type} (f : A -> bool) (l : list A) :
  existsb f l = match filter f l with [] => false | _ :: _ => true end.
Proof.
  induction l as [|x l IH]; [reflexivity|]. cbn [existsb filter].
  destruct (f x); [reflexivity|exact IH].
Qed.

(** X16: [getBestThumbnail] returns the address of the largest image that is
    below both bounds, the first one in the list when several are as large;
    when no image is below the bounds it returns the address of the first
    image of the list, which then is not below them.  Nothing is thrown.
    (The sides of the images are whole numbers of pixels.) *)
Theorem getBestThumbnail_largest :
  forall (first : Image) (rest : list Image)
         (maxWidthDimension maxHeightDimension : option double),
    Forall whole_sized (first :: rest) ->
    let ok := below_bounds maxWidthDimension maxHeightDimension in
    exists pre best post,
      first :: rest = pre ++ best :: post
      /\ getBestThumbnail (Some (first :: rest)) maxWidthDimension
           maxHeightDimension = Normal (url best)
      /\ if existsb ok (first :: rest)
         then ok best = true
              /\ (forall i, In i pre -> ok i = true ->
                            (pixels i < pixels best)%Z)
              /\ (forall i, In i post -> ok i = true ->
                            (pixels i <= pixels best)%Z)
         else pre = [].
Proof.
  intros first rest maxW maxH Hall ok. unfold getBestThumbnail.
  change (fun image : Image =>
            d_lt (width image) match maxW with Some x => x | None => dlit 480 end
            && d_lt (height image) match maxH with Some x => x | None => dlit 360 end)
    with ok.
  rewrite filter_nil_existsb.
  destruct (filter ok (first :: rest)) as [|f fl] eqn:E.
  - exists [], first, rest. repeat split.
  - rewrite <- E.
    destruct (sort_head by_area pixels (filter ok (first :: rest)))
      as (fpre & best & fpost & tail & Ef & Es & Hpre & Hpost).
    + intros x y Hx Hy. apply filter_In in Hx as [Hx _], Hy as [Hy _].
      rewrite Forall_forall in Hall. apply by_area_spec; now apply Hall.
    + rewrite E. discriminate.
    + rewrite Es.
      destruct (filter_decompose ok _ _ _ _ Ef) as (pre & post & El & Fpre & Fpost & Hb).
      exists pre, best, post. split; [exact El|]. split; [reflexivity|].
      split; [exact Hb|]. split.
      * intros i Hi Hok. apply Hpre. rewrite <- Fpre. now apply filter_In.
      * intros i Hi Hok. apply Hpost. rewrite <- Fpost. now apply filter_In.
Qed.

Lemma sample_thumbnails_whole : Forall whole_sized sample_thumbnails.
Proof.
  repeat constructor;
    match goal with
    | |- whole_sized {| url := _; width := dlit ?w; height := dlit ?h |} =>
        exists w, h; repeat split; discriminate || reflexivity
    end.
Qed.

Lemma getBestThumbnail_largest_witness :
  exists pre best post,
    sample_thumbnails = pre ++ best :: post
    /\ getBestThumbnail (Some sample_thumbnails) None None = Normal (url best)
    /\ if existsb (below_bounds None None) sample_thumbnails
       then below_bounds None None best = true
            /\ (forall i, In i pre -> below_bounds None None i = true ->
                          (pixels i < pixels best)%Z)
            /\ (forall i, In i post -> below_bounds None None i = true ->
                          (pixels i <= pixels best)%Z)
       else pre = [].
Proof.
  exact (getBestThumbnail_largest _ _ None None sample_thumbnails_whole).
Defined.

(** * [unsafeRandomItem] *)

Lemma element_whole {A : Type} (array : list A) (z : Z) :
  (0 <= z)%Z -> element array (dlit z) = nth_error array (Z.to_nat z).
Proof.
  intros H. unfold element, dlit. rewrite Qfloor_Z.
  rewrite (proj2 (Qeq_bool_iff _ _) (Qeq_refl _)).
  destruct (Z.leb_spec 0 z); [reflexivity|lia].
Qed.

(** X17: for a random Number from 0 up to, but not including, 1 (the
    largest double below 1 is 1 - 2^-53) [unsafeRandomItem] returns an element
    of the array when the array is not empty: the product with the length is
    rounded to a double, and that rounding never reaches the length.  For the
    empty array the result is [undefined], whatever the random Number. *)
Theorem unsafeRandomItem_in_array :
  forall (A : Type) (random : Q) (array : list A),
    (0 <= random)%Q -> (random <= 1 - / 2 ^ 53)%Q ->
    array <> [] -> (Z.of_nat (length array) < 2 ^ 32)%Z ->
    (exists x, unsafeRandomItem (dFin random) array = Some x /\ In x array)
    /\ forall r : double, unsafeRandomItem r (@nil A) = None.
Proof.
  intros A random array H0 H1 Hne Hlen. split.
  - unfold unsafeRandomItem.
    assert (exists z, (0 <= z < Z.of_nat (length array))%Z
                      /\ Math_floor (d_mul (dFin random)
                                       (dlit (Z.of_nat (length array)))) = dlit z)
      as (z & Hz & ->).
    { unfold d_mul, dlit, round.
      remember (Z.of_nat (length array)) as len eqn:El.
      assert (0 < len)%Z as Hl by (destruct array; [congruence|cbn in El; lia]).
      destruct len as [|l|l]; try lia.
      destruct random as [[|a|a] b].
      - exists 0%Z. split; [lia|reflexivity].
      - unfold Qmult, inject_Z. cbn [Qnum Qden Z.mul].
        destruct (round_ratio_below (Z.pos (a * l)) (Z.pos (b * 1)) (Z.pos l))
          as (v & -> & V0 & V1); try lia.
        + assert (1 - / 2 ^ 53 == 9007199254740991 # 9007199254740992)%Q as E
              by reflexivity.
          rewrite E in H1. unfold Qle in H1. cbn [Qnum Qden] in H1.
          rewrite Pos.mul_1_r. change (2 ^ 53)%Z with 9007199254740992%Z.
          change (9007199254740992 - 1)%Z with 9007199254740991%Z. 
          rewrite !Pos2Z.inj_mul. nia.
        + exists (Qfloor v). split.
          * split; [change 0%Z with (Qfloor 0); now apply Qfloor_resp_le|].
            rewrite Zlt_Qlt. pose proof (Qfloor_le v). lra.
          * reflexivity.
      - exfalso. unfold Qle in H0. cbn [Qnum Qden] in H0. lia. }
    rewrite element_whole by lia.
    destruct (nth_error array (Z.to_nat z)) as [x|] eqn:E.
    + exists x. split; [reflexivity|]. now apply nth_error_In in E.
    + apply nth_error_None in E. lia.
  - intros r. unfold unsafeRandomItem. cbn [length Z.of_nat].
    destruct r as [|s|[n d]]; try reflexivity.
    unfold d_mul, dlit, round, Qmult, inject_Z. cbn [Qnum Qden].
    rewrite Z.mul_0_r. reflexivity.
Qed.

Lemma unsafeRandomItem_in_array_witness :
  (exists x, unsafeRandomItem (dFin (999 # 1000)) [1; 2; 3] = Some x
             /\ In x [1; 2; 3])
  /\ forall r : double, unsafeRandomItem r (@nil N) = None.
Proof.
  apply (unsafeRandomItem_in_array N (999 # 1000) [1; 2; 3]).
  - discriminate.
  - vm_compute. discriminate.
  - discriminate.
  - reflexivity.
Defined.

(** * The bitrate preference *)

(** X19: what [pullBitratePreference] gives, case by case.  Without the item
    [video-player] in the storage, or with an empty one, it returns -1 and
    [JSON.parse] is not asked.  Otherwise it throws what [JSON.parse] throws,
    throws a [TypeError] when the text parses to [null], and in every other
    case returns the member [bitrate] of the member [quality] of the parsed
    value, as it was parsed, when there is one that counts as true, and -1
    when there is none.  So what it returns always counts as true: a stored
    bitrate of 0 is answered with -1. *)
Theorem pullBitratePreference_result :
  forall (JSON_parse : jsstring -> outcome json)
         (localStorage : list (jsstring * jsstring)),
    let minus_one := json_number (dlit (-1)) in
    pullBitratePreference JSON_parse localStorage
    = match getItem localStorage (js "video-player") with
      | None | Some [] => Returns minus_one
      | Some text =>
          match JSON_parse text with
          | Throws e => Throws e
          | Returns json_null => Throws TypeError
          | Returns settings =>
              Returns match stored_bitrate settings with
                      | Some bitrate =>
                          if truthy bitrate then bitrate else minus_one
                      | None => minus_one
                      end
          end
      end
    /\ forall v, pullBitratePreference JSON_parse localStorage = Returns v ->
                 truthy v = true.
Proof.
  intros JSON_parse localStorage minus_one.
  assert (pullBitratePreference JSON_parse localStorage
          = match getItem localStorage (js "video-player") with
            | None | Some [] => Returns minus_one
            | Some text =>
                match JSON_parse text with
                | Throws e => Throws e
                | Returns json_null => Throws TypeError
                | Returns settings =>
                    Returns match stored_bitrate settings with
                            | Some bitrate =>
                                if truthy bitrate then bitrate else minus_one
                            | None => minus_one
                            end
                end
            end) as E.
  { unfold pullBitratePreference.
    destruct (getItem localStorage (js "video-player")) as [[|c s]|];
      [reflexivity| |reflexivity].
    destruct (JSON_parse (c :: s)) as [settings|e]; [|reflexivity].
    destruct settings as [|b|x|t|elements|members];
      cbn [and_then member stored_bitrate]; try reflexivity.
    destruct (find (named (js "quality")) members) as [[name quality]|];
      [|reflexivity].
    cbn [option_map snd].
    destruct quality as [|b|x|t|elements|fields]; cbn [truthy member and_then];
      try reflexivity.
    - now destruct b.
    - destruct x as [| |q]; try reflexivity. now destruct (is_zero q).
    - now destruct (negb (length t =? 0)%nat).
    - destruct (find (named (js "bitrate")) fields) as [[name' bitrate]|];
        cbn [option_map snd]; [now destruct (truthy bitrate)|reflexivity]. }
  split; [exact E|].
  intros v. rewrite E.
  assert (truthy minus_one = true) as Hm by reflexivity.
  destruct (getItem localStorage (js "video-player")) as [[|c s]|];
    try (now intros [= <-]).
  destruct (JSON_parse (c :: s)) as [settings|e]; [|discriminate].
  destruct settings; try discriminate;
    destruct (stored_bitrate _) as [bitrate|]; try (now intros [= <-]);
    destruct (truthy bitrate) eqn:Tb; now intros [= <-].
Qed.
